(** * Subscriptions, their wire format and the serializability check

    A shallow embedding of [core/state/common.ts] of Qwik: the
    serializability verifier ([verifySerializable], [noSerialize]), the
    subscription codec ([serializeSubscription], [parseSubscription]) and the
    subscription managers ([createSubscriptionManager],
    [LocalSubscriptionManager]); with them [serializeSStyle] of
    [core/style/qrl-styles.ts] and the functions of the theme toggle of the
    documentation site.

    JavaScript strings are sequences of UTF-16 code units, JavaScript arrays
    are lists, objects live in a heap addressed by references, and the
    [Map] and [Set] objects of the source are finite maps and sets. *)

From Stdlib Require Import ZArith NArith List Lia Bool Ascii String DecimalString.
From stdpp Require Import base option list gmap sets strings.

Local Open Scope Z_scope.

(** ** JavaScript strings *)

(** A string is the list of its UTF-16 code units. *)
Definition jsstring := list N.

(** The code units of an ASCII literal of the source. *)
Definition lit (s : string) : jsstring := N_of_ascii <$> list_ascii_of_string s.

(** Code units are 16 bits wide. *)
Definition code_units (s : jsstring) : Prop := Forall (λ c, (c < 65536)%N) s.

Definition SPACE : N := 32%N.
Definition PERCENT : N := 37%N.

(** [s.split(' ')]: the pieces between the occurrences of the separator; the
    result of [split] is never the empty array. *)
Fixpoint split (sep : N) (s : jsstring) : list jsstring :=
  match s with
  | [] => [[]]
  | c :: rest =>
      if N.eqb c sep then [] :: split sep rest
      else match split sep rest with
           | [] => [[c]]
           | p :: ps => (c :: p) :: ps
           end
  end.

(** ** Numbers *)

(** The numbers of the model are the integers and [NaN]; both zeros are
    [Int 0].  Fractions and infinities are not modelled, and an integer
    stands for itself, also beyond 2^53 where a double would round it. *)
Inductive num := NaN | Int (z : Z).

Definition num_eqb (a b : num) : bool :=
  match a, b with
  | Int x, Int y => Z.eqb x y
  | _, _ => false
  end.

(** [a <= b] on numbers: false as soon as one side is [NaN]. *)
Definition num_leb (a b : num) : bool :=
  match a, b with
  | Int x, Int y => Z.leb x y
  | _, _ => false
  end.

(** Number::toString for the integers printed in plain decimal notation
    (magnitude below 10^21); [None] for the others. *)
Definition num_to_string (n : num) : option jsstring :=
  match n with
  | NaN => Some (lit "NaN")
  | Int z =>
      if Z.abs z <? 10 ^ 21
      then Some (lit (NilZero.string_of_int (Z.to_int z)))
      else None
  end.

(** *** parseInt(string, 10) *)

(** The StrWhiteSpaceChar code units: white space and line terminators. *)
Definition is_white_space (c : N) : bool :=
  ((9 <=? c) && (c <=? 13) || (c =? 32) || (c =? 160) || (c =? 5760)
   || (8192 <=? c) && (c <=? 8202) || (c =? 8232) || (c =? 8233)
   || (c =? 8239) || (c =? 8287) || (c =? 12288) || (c =? 65279))%N.

Fixpoint trim_start (s : jsstring) : jsstring :=
  match s with
  | c :: rest => if is_white_space c then trim_start rest else s
  | [] => []
  end.

Definition digit_value (c : N) : option Z :=
  if ((48 <=? c) && (c <=? 57))%N then Some (Z.of_N c - 48) else None.

(** The value of the longest prefix of decimal digits; [None] when the
    string does not start with a digit. *)
Fixpoint leading_digits (acc : option Z) (s : jsstring) : option Z :=
  match s with
  | c :: rest =>
      match digit_value c with
      | Some d => leading_digits (Some (10 * default 0 acc + d)) rest
      | None => acc
      end
  | [] => acc
  end.

Definition MINUS : N := 45%N.
Definition PLUS : N := 43%N.

(** [parseInt(s, 10)], as the integer that the leading digits stand for.
    Up to 2^53 in magnitude that integer is what [parseInt] returns; beyond
    it [parseInt] returns a double near it (and the standard lets an
    implementation drop the digits after the 20th), which the numbers of the
    model do not have. *)
Definition parseInt10 (s : jsstring) : num :=
  let s := trim_start s in
  let '(sign, s) :=
    match s with
    | c :: rest =>
        if N.eqb c MINUS then (-1, rest)
        else if N.eqb c PLUS then (1, rest) else (1, s)
    | [] => (1, s)
    end in
  match leading_digits None s with
  | Some n => Int (sign * n)
  | None => NaN
  end.

(** ** Values *)

(** Object identity. *)
Definition ref := positive.
Bind Scope positive_scope with ref.

(** The values: [undefined], [null], booleans, numbers, strings, objects
    (functions and arrays among them) by their identity, symbols by their
    identity, and bigints. *)
Inductive jsvalue :=
  | VUndefined
  | VNull
  | VBool (b : bool)
  | VNum (n : num)
  | VStr (s : jsstring)
  | VObj (r : ref)
  | VSymbol (r : ref)
  | VBigInt (z : Z).

Global Instance num_eq_dec : EqDecision num.
Proof. solve_decision. Defined.

Global Instance value_eq_dec : EqDecision jsvalue.
Proof. solve_decision. Defined.

Global Instance num_countable : Countable num.
Proof.
  refine (inj_countable'
            (λ n, match n with NaN => None | Int z => Some z end)
            (λ o, match o with None => NaN | Some z => Int z end) _).
  by intros [].
Defined.

Global Instance value_countable : Countable jsvalue.
Proof.
  refine (inj_countable'
            (λ v, match v with
                  | VUndefined => inl (inl true)
                  | VNull => inl (inl false)
                  | VBool b => inl (inr b)
                  | VNum n => inr (inl n)
                  | VStr s => inr (inr (inl s))
                  | VObj r => inr (inr (inr (inl r)))
                  | VSymbol r => inr (inr (inr (inr (inl r))))
                  | VBigInt z => inr (inr (inr (inr (inr z))))
                  end)
            (λ x, match x with
                  | inl (inl true) => VUndefined
                  | inl (inl false) => VNull
                  | inl (inr b) => VBool b
                  | inr (inl n) => VNum n
                  | inr (inr (inl s)) => VStr s
                  | inr (inr (inr (inl r))) => VObj r
                  | inr (inr (inr (inr (inl r)))) => VSymbol r
                  | inr (inr (inr (inr (inr z)))) => VBigInt z
                  end) _).
  by intros [].
Defined.

(** [a === b].  Object references compare by identity; [NaN] differs from
    itself. *)
Definition strict_eq (a b : jsvalue) : bool :=
  match a, b with
  | VUndefined, VUndefined => true
  | VNull, VNull => true
  | VBool x, VBool y => Bool.eqb x y
  | VNum x, VNum y => num_eqb x y
  | VStr x, VStr y => bool_decide (x = y)
  | VObj x, VObj y => Pos.eqb x y
  | VSymbol x, VSymbol y => Pos.eqb x y
  | VBigInt x, VBigInt y => x =? y
  | _, _ => false
  end.

(** ToBoolean. *)
Definition truthy (v : jsvalue) : bool :=
  match v with
  | VUndefined | VNull => false
  | VBool b => b
  | VNum NaN => false
  | VNum (Int z) => negb (z =? 0)
  | VStr s => negb (bool_decide (s = []))
  | VObj _ | VSymbol _ => true
  | VBigInt z => negb (z =? 0)
  end.

(** [v == null]. *)
Definition nullish (v : jsvalue) : bool :=
  match v with
  | VUndefined | VNull => true
  | _ => false
  end.

(** ToString of a primitive.  ToString of an object runs that object's own
    conversion code, which the model does not have: [None]; so it is for a
    symbol, whose conversion to a string throws. *)
Definition to_string (v : jsvalue) : option jsstring :=
  match v with
  | VUndefined => Some (lit "undefined")
  | VNull => Some (lit "null")
  | VBool true => Some (lit "true")
  | VBool false => Some (lit "false")
  | VNum n => num_to_string n
  | VStr s => Some s
  | VObj _ | VSymbol _ => None
  | VBigInt z => num_to_string (Int z)
  end.

(** ToNumber of [undefined], [null], a boolean or a number; [None] for
    strings (numeric literals are not modelled), objects, symbols and
    bigints. *)
Definition to_number (v : jsvalue) : option num :=
  match v with
  | VUndefined => Some NaN
  | VNull => Some (Int 0)
  | VBool b => Some (Int (if b then 1 else 0))
  | VNum n => Some n
  | VStr _ | VObj _ | VSymbol _ | VBigInt _ => None
  end.

(** [a[i]] on an array without holes: [undefined] out of range. *)
Definition idx (a : list jsvalue) (i : nat) : jsvalue := default VUndefined (a !! i).

(** [parts[i]] on an array of strings. *)
Definition part (parts : list jsstring) (i : nat) : jsvalue :=
  from_option VStr VUndefined (parts !! i).

(** ** Errors and outcomes *)

Inductive error :=
  | QError_verifySerializable (unwrapped : jsvalue) (* qError(QError_verifySerializable, unwrapped) *)
  | Error (message : jsstring)                    (* createError(message) *)
  | MustBeNonNull                                 (* logError('must be non null', a) *)
  | AssertError (text : jsstring)                 (* a failed assertTrue / assertFail *)
  | URIError                                      (* thrown by encodeURI / decodeURI *)
  | TypeError.                                    (* a property read on undefined or null *)

(** What a call does: it returns, it throws, it leaves the modelled part of
    the language ([Beyond]: a conversion that would run an object's own
    code), or the model's fuel ran out before the call finished. *)
Inductive outcome (A : Type) :=
  | Ret (a : A)
  | Throw (e : error)
  | Beyond
  | OutOfFuel.

Arguments Ret {A} a.
Arguments Throw {A} e.
Arguments Beyond {A}.
Arguments OutOfFuel {A}.

Global Instance outcome_ret : MRet outcome := λ A a, Ret a.

Global Instance outcome_bind : MBind outcome := λ A B k m,
  match m with
  | Ret a => k a
  | Throw e => Throw e
  | Beyond => Beyond
  | OutOfFuel => OutOfFuel
  end.

(** A conversion of the modelled fragment, or [Beyond]. *)
Definition within {A} (o : option A) : outcome A :=
  match o with
  | Some a => Ret a
  | None => Beyond
  end.

(** ** encodeURI and decodeURI

    The two built-ins, after the abstract operations Encode and Decode of
    ECMA-262 (normative section on URI handling functions). *)

Definition one_of (chars : string) (c : N) : bool := existsb (N.eqb c) (lit chars).

(** uriReserved and [#]. *)
Definition uri_reserved (c : N) : bool := one_of ";/?:@&=+$,#" c.

(** uriUnescaped: letters, decimal digits and uriMark. *)
Definition uri_unescaped (c : N) : bool :=
  ((65 <=? c) && (c <=? 90) || (97 <=? c) && (c <=? 122)
   || (48 <=? c) && (c <=? 57))%N
  || one_of "-_.!~*'()" c.

Definition is_lead (c : N) : bool := ((55296 <=? c) && (c <=? 56319))%N.
Definition is_trail (c : N) : bool := ((56320 <=? c) && (c <=? 57343))%N.

(** UTF16SurrogatePairToCodePoint. *)
Definition pair_code_point (lead trail : N) : N :=
  ((lead - 55296) * 1024 + (trail - 56320) + 65536)%N.

(** UTF16EncodeCodePoint. *)
Definition utf16 (cp : N) : jsstring :=
  (if cp <? 65536 then [cp]
   else [55296 + (cp - 65536) / 1024; 56320 + (cp - 65536) mod 1024])%N.

(** The UTF-8 octets of a code point. *)
Definition utf8 (cp : N) : list N :=
  (if cp <? 128 then [cp]
   else if cp <? 2048 then [192 + cp / 64; 128 + cp mod 64]
   else if cp <? 65536 then
     [224 + cp / 4096; 128 + (cp / 64) mod 64; 128 + cp mod 64]
   else
     [240 + cp / 262144; 128 + (cp / 4096) mod 64;
      128 + (cp / 64) mod 64; 128 + cp mod 64])%N.

Definition hex_digit (n : N) : N :=
  (if n <? 10 then 48 + n else 55 + n)%N.

(** ["%XX"], upper-case. *)
Definition escape_octet (b : N) : jsstring :=
  [PERCENT; hex_digit (b / 16); hex_digit (b mod 16)]%N.

Definition escape_octets (bs : list N) : jsstring := mjoin (escape_octet <$> bs).

Fixpoint Encode (unescaped : N → bool) (s : jsstring) : option jsstring :=
  match s with
  | [] => Some []
  | c :: rest =>
      if unescaped c then (c ::.) <$> Encode unescaped rest
      else if is_trail c then None
      else if is_lead c then
        match rest with
        | c2 :: rest' =>
            if is_trail c2
            then (escape_octets (utf8 (pair_code_point c c2)) ++.) <$> Encode unescaped rest'
            else None
        | [] => None
        end
      else (escape_octets (utf8 c) ++.) <$> Encode unescaped rest
  end.

Definition hex_value (c : N) : option N :=
  (if (48 <=? c) && (c <=? 57) then Some (c - 48)
   else if (65 <=? c) && (c <=? 70) then Some (c - 55)
   else if (97 <=? c) && (c <=? 102) then Some (c - 87)
   else None)%N.

Definition ParseHexOctet (h1 h2 : N) : option N :=
  a ← hex_value h1; b ← hex_value h2; Some (16 * a + b)%N.

(** The number of leading 1 bits of an octet. *)
Definition leading_ones (b : N) : nat :=
  if (b <? 128)%N then 0%nat else if (b <? 192)%N then 1%nat
  else if (b <? 224)%N then 2%nat else if (b <? 240)%N then 3%nat
  else if (b <? 248)%N then 4%nat else if (b <? 252)%N then 5%nat
  else if (b <? 254)%N then 6%nat else if (b <? 255)%N then 7%nat else 8%nat.

(** The [n] escapes ["%XX"] that continue a multi-octet sequence, and what
    follows them. *)
Fixpoint continuation (n : nat) (s : jsstring) : option (list N * jsstring) :=
  match n with
  | O => Some ([], s)
  | S n' =>
      match s with
      | p :: h1 :: h2 :: rest =>
          if N.eqb p PERCENT then
            b ← ParseHexOctet h1 h2;
            '(bs, rest') ← continuation n' rest;
            Some (b :: bs, rest')
          else None
      | _ => None
      end
  end.

Definition is_continuation (b : N) : bool := ((128 <=? b) && (b <? 192))%N.

(** The code point of a multi-octet sequence that is valid UTF-8: shortest
    form, no surrogate, at most U+10FFFF. *)
Definition utf8_code_point (octets : list N) : option N :=
  match octets with
  | [b0; b1] =>
      let cp := ((b0 - 192) * 64 + (b1 - 128))%N in
      if is_continuation b1 && (128 <=? cp)%N then Some cp else None
  | [b0; b1; b2] =>
      let cp := ((b0 - 224) * 4096 + (b1 - 128) * 64 + (b2 - 128))%N in
      if is_continuation b1 && is_continuation b2 && (2048 <=? cp)%N
         && negb (is_lead cp || is_trail cp)
      then Some cp else None
  | [b0; b1; b2; b3] =>
      let cp := ((b0 - 240) * 262144 + (b1 - 128) * 4096
                 + (b2 - 128) * 64 + (b3 - 128))%N in
      if is_continuation b1 && is_continuation b2 && is_continuation b3
         && (65536 <=? cp)%N && (cp <=? 1114111)%N
      then Some cp else None
  | _ => None
  end.

(** Decode; every round of its loop consumes at least one code unit, and
    [fuel] bounds the number of rounds.  [None] is the URIError. *)
Fixpoint Decode (fuel : nat) (preserve : N → bool) (s : jsstring) : option jsstring :=
  match s with
  | [] => Some []
  | c :: rest =>
      match fuel with
      | O => None
      | S fuel =>
          if N.eqb c PERCENT then
            match rest with
            | h1 :: h2 :: rest2 =>
                B ← ParseHexOctet h1 h2;
                let n := leading_ones B in
                if (n =? 0)%nat then
                  if preserve B
                  then ([c; h1; h2] ++.) <$> Decode fuel preserve rest2
                  else (B ::.) <$> Decode fuel preserve rest2
                else if (n =? 1)%nat || (4 <? n)%nat then None
                else
                  '(bs, rest3) ← continuation (n - 1) rest2;
                  V ← utf8_code_point (B :: bs);
                  (utf16 V ++.) <$> Decode fuel preserve rest3
            | _ => None
            end
          else (c ::.) <$> Decode fuel preserve rest
      end
  end.

Definition uri_error {A} (o : option A) : outcome A :=
  match o with
  | Some a => Ret a
  | None => Throw URIError
  end.

(** What [encodeURI] leaves as it is: uriReserved, uriUnescaped and [#]. *)
Definition uri_kept (c : N) : bool := uri_reserved c || uri_unescaped c.

(** [encodeURI(v)]. *)
Definition encodeURI (v : jsvalue) : outcome jsstring :=
  s ← within (to_string v);
  uri_error (Encode uri_kept s).

(** [decodeURI(v)]. *)
Definition decodeURI (v : jsvalue) : outcome jsstring :=
  s ← within (to_string v);
  uri_error (Decode (length s) uri_reserved s).

(** ** Subscriptions *)

(** A subscription is the array [[type, host, ...]] of the source:
    - [A = [0, host, key]],
    - [B = [1 | 2, host, signal, elm, prop, key]],
    - [C = [3 | 4, host, signal, elm, key]].
    A [Subscriber] is the same array without its trailing key. *)
Definition Subscriptions := list jsvalue.
Definition Subscriber := list jsvalue.

(** The arrays the TypeScript types [A], [B] and [C] describe. *)
Definition key_type (k : jsvalue) : Prop := k = VUndefined ∨ ∃ s, k = VStr s.

Inductive is_A : Subscriptions → Prop :=
  | IsA host key : key_type key → is_A [VNum (Int 0); VObj host; key].

Inductive is_B : Subscriptions → Prop :=
  | IsB type host signal elm prop key :
      type = 1 ∨ type = 2 → key_type key →
      is_B [VNum (Int type); VObj host; VObj signal; VObj elm; VStr prop; key].

Inductive is_C : Subscriptions → Prop :=
  | IsC type host signal elm key :
      type = 3 ∨ type = 4 → key_type key →
      is_C [VNum (Int type); VObj host; VObj signal; VObj elm; key].

Section Codec.

(** [qDev]: assertions throw in a development build and are compiled out
    of a production build. *)
Variable qDev : bool.

(** Modelled from the spec: [assertTrue] of [../error/assert], which is not
    among the sources; a violated assertion "should fail fast". *)
Definition assertTrue (value1 : bool) (text : string) : outcome unit :=
  if qDev && negb value1 then Throw (AssertError (lit text)) else Ret ().

(** Modelled from the spec: [assertFail] of [../error/assert]. *)
Definition assertFail (text : string) : outcome unit :=
  if qDev then Throw (AssertError (lit text)) else Ret ().

(** [must(a)], with [None] for [null] and [undefined]. *)
Definition must {A} (a : option A) : outcome A :=
  match a with
  | None => Throw MustBeNonNull
  | Some a => Ret a
  end.

(** *** serializeSubscription *)

(** The resolver [getObjId: (obj) => string | null] of the container. *)
Variable getObjId : jsvalue → option jsstring.

(** [!id] for an identifier: it is missing or the empty string. *)
Definition no_id (id : option jsstring) : bool :=
  match id with
  | None | Some [] => true
  | Some _ => false
  end.

(** [type <= n]. *)
Definition type_le (type : jsvalue) (n : Z) : outcome bool :=
  t ← within (to_number type); Ret (num_leb t (Int n)).

(** The last statements of [serializeSubscription]:
    [if (key) base += ` ${encodeURI(key)}`; return base]. *)
Definition append_key (base : jsstring) (key : jsvalue) : outcome (option jsstring) :=
  if truthy key then
    k ← encodeURI key; Ret (Some (base ++ lit " " ++ k))
  else Ret (Some base).

Definition serializeSubscription (sub : Subscriptions) : outcome (option jsstring) :=
  let type := idx sub 0 in
  let host := match idx sub 1 with VStr s => Some s | o => getObjId o end in
  if no_id host then Ret None else
  type_s ← within (to_string type);
  let base := type_s ++ lit " " ++ default [] host in
  if strict_eq type (VNum (Int 0)) then append_key base (idx sub 2)
  else
    let signalID := getObjId (idx sub 2) in
    if no_id signalID then Ret None else
    let signalID := default [] signalID in
    le2 ← type_le type 2;
    if (le2 : bool) then
      elmID ← must (getObjId (idx sub 3));
      prop ← within (to_string (idx sub 4));
      append_key (base ++ lit " " ++ signalID ++ lit " " ++ elmID ++ lit " " ++ prop)
                 (idx sub 5)
    else
      le4 ← type_le type 4;
      if (le4 : bool) then
        nodeID ← match idx sub 3 with
                 | VStr s => Ret s
                 | o => must (getObjId o)
                 end;
        append_key (base ++ lit " " ++ signalID ++ lit " " ++ nodeID) (idx sub 4)
      else
        assertFail "Should not get here";;
        append_key base VUndefined.

(** *** parseSubscription *)

(** The resolver [getObject: (id) => any] of the container. *)
Variable getObject : jsvalue → jsvalue.

(** [isSubscriberDescriptor(host)] and the read of [host.$el$], from
    [../use/use-task]. *)
Variable isSubscriberDescriptor : jsvalue → bool.
Variable get_el : jsvalue → jsvalue.

Definition safeDecode (str : jsvalue) : outcome jsvalue :=
  if negb (strict_eq str VUndefined) then s ← decodeURI str; Ret (VStr s)
  else Ret VUndefined.

Definition parseSubscription (sub : jsstring) : outcome (option Subscriptions) :=
  let parts := split SPACE sub in
  match parts with
  | [] => Beyond
  | parts0 :: _ =>
      let type := parseInt10 parts0 in
      assertTrue (2 <=? length parts)%nat "At least 2 parts";;
      let host := getObject (part parts 1) in
      if negb (truthy host) then Ret None else
      if isSubscriberDescriptor host && negb (truthy (get_el host)) then Ret None else
      let subscription := [VNum type; host] in
      if num_eqb type (Int 0) then
        assertTrue (length parts <=? 3)%nat "Max 3 parts";;
        key ← safeDecode (part parts 2);
        Ret (Some (subscription ++ [key]))
      else if num_leb type (Int 2) then
        assertTrue ((length parts =? 5) || (length parts =? 6))%nat "Type 1 has 5";;
        let signal := getObject (part parts 2) in
        let elm := getObject (part parts 3) in
        key ← safeDecode (part parts 5);
        Ret (Some (subscription ++ [signal; elm; part parts 4; key]))
      else if num_leb type (Int 4) then
        assertTrue ((length parts =? 4) || (length parts =? 5))%nat "Type 2 has 4";;
        let signal := getObject (part parts 2) in
        let elm := getObject (part parts 3) in
        key ← safeDecode (part parts 4);
        Ret (Some (subscription ++ [signal; elm; key]))
      else Ret (Some subscription)
  end.

End Codec.

(** ** Subscription managers *)

(** The identity of a [LocalSubscriptionManager], and the identity of an
    array of managers held by the [Map]. *)
Definition manager := positive.
Definition array_ref := positive.
Bind Scope positive_scope with manager array_ref.

(** What one [createSubscriptionManager(containerState)] owns: the [$subs$]
    array of each of its managers, the [Map] from group to array of managers,
    the arrays themselves (an array outlives its entry in the [Map]: whoever
    read it still holds it), and the calls of [notifyChange] made so far,
    oldest first.  A manager without an entry in [subs_of] has an empty
    [$subs$]. *)
Record Container := {
  subs_of : gmap manager (list Subscriptions);
  groupToManagers : gmap jsvalue array_ref;
  arrays : gmap array_ref (list manager);
  notified : list Subscriptions;
}.

Definition createSubscriptionManager : Container :=
  {| subs_of := ∅; groupToManagers := ∅; arrays := ∅; notified := [] |}.

(** [this.$subs$]. *)
Definition get_subs (this : manager) (st : Container) : list Subscriptions :=
  default [] (subs_of st !! this).

Definition set_subs (this : manager) (l : list Subscriptions) (st : Container) : Container :=
  {| subs_of := <[this := l]> (subs_of st);
     groupToManagers := groupToManagers st;
     arrays := arrays st;
     notified := notified st |}.

(** [notifyChange(sub, containerState)], from [../render/dom/notify-render]:
    the model records the call. *)
Definition notifyChange (sub : Subscriptions) (st : Container) : Container :=
  {| subs_of := subs_of st;
     groupToManagers := groupToManagers st;
     arrays := arrays st;
     notified := notified st ++ [sub] |}.

Definition addToGroup (group : jsvalue) (manager : manager) (st : Container) : Container :=
  let '(managers, st) :=
    match groupToManagers st !! group with
    | Some a => (a, st)
    | None =>
        let a := fresh (dom (arrays st)) in
        (a, {| subs_of := subs_of st;
               groupToManagers := <[group := a]> (groupToManagers st);
               arrays := <[a := []]> (arrays st);
               notified := notified st |})
    end in
  let content := default [] (arrays st !! managers) in
  if bool_decide (manager ∈ content) then st
  else {| subs_of := subs_of st;
          groupToManagers := groupToManagers st;
          arrays := <[managers := content ++ [manager]]> (arrays st);
          notified := notified st |}.

Definition addSubs (this : manager) (subs : list Subscriptions) (st : Container) : Container :=
  let st := set_subs this (get_subs this st ++ subs) st in
  foldl (λ st sub, addToGroup (idx sub 1) this st) st (get_subs this st).

(** [new LocalSubscriptionManager(groupToManagers, containerState, initialMap)]:
    the new manager and the container after the call. *)
Definition createManager (initialMap : option (list Subscriptions)) (st : Container)
  : manager * Container :=
  let this := fresh (dom (subs_of st)) in
  let st := set_subs this [] st in
  (this, match initialMap with
         | Some subs => addSubs this subs st
         | None => st
         end).

(** The loop shared by [$unsubGroup$] and [$unsubEntry$]:
    [for (let i = 0; i < subs.length; i++) if (found(subs[i])) { subs.splice(i, 1); i--; }].
    A round either removes an element or moves [i] forward, so the loop runs
    at most [subs.length] rounds; [rounds] counts them down. *)
Fixpoint splice_loop (found : Subscriptions → bool) (rounds : nat) (i : nat)
    (subs : list Subscriptions) : list Subscriptions :=
  match rounds with
  | O => subs
  | S rounds =>
      match subs !! i with
      | None => subs
      | Some sub =>
          if found sub then splice_loop found rounds i (delete i subs)
          else splice_loop found rounds (S i) subs
      end
  end.

Definition unsubGroup (this : manager) (group : jsvalue) (st : Container) : Container :=
  let subs := get_subs this st in
  set_subs this
    (splice_loop (λ sub, strict_eq (idx sub 1) group) (length subs) 0 subs) st.

Definition unsubEntry (this : manager) (entry : Subscriptions) (st : Container) : Container :=
  let type := idx entry 0 in
  let group := idx entry 1 in
  let signal := idx entry 2 in
  let elm := idx entry 3 in
  let subs := get_subs this st in
  if strict_eq type (VNum (Int 1)) || strict_eq type (VNum (Int 2)) then
    let prop := idx entry 4 in
    set_subs this
      (splice_loop (λ sub, strict_eq (idx sub 0) type && strict_eq (idx sub 1) group
                           && strict_eq (idx sub 2) signal && strict_eq (idx sub 3) elm
                           && strict_eq (idx sub 4) prop)
                   (length subs) 0 subs) st
  else if strict_eq type (VNum (Int 3)) || strict_eq type (VNum (Int 4)) then
    set_subs this
      (splice_loop (λ sub, strict_eq (idx sub 0) type && strict_eq (idx sub 1) group
                           && strict_eq (idx sub 2) signal && strict_eq (idx sub 3) elm)
                   (length subs) 0 subs) st
  else st.

(** [$addSub$(sub, key)]; [key] is [VUndefined] when the argument is left out. *)
Definition addSub (this : manager) (sub : Subscriber) (key : jsvalue) (st : Container) : Container :=
  let subs := get_subs this st in
  let group := idx sub 1 in
  if strict_eq (idx sub 0) (VNum (Int 0))
     && existsb (λ s, strict_eq (idx s 0) (VNum (Int 0)) && strict_eq (idx s 1) group
                      && strict_eq (idx s 2) key) subs
  then st
  else addToGroup group this (set_subs this (subs ++ [sub ++ [key]]) st).

(** [$notifySubs$(key)]. *)
Definition notifySubs (this : manager) (key : jsvalue) (st : Container) : Container :=
  foldl (λ st sub,
           let compare := idx sub (length sub - 1) in
           if truthy key && truthy compare && negb (strict_eq compare key) then st
           else notifyChange sub st)
        st (get_subs this st).

(** [$clearSub$(group)]. *)
Definition clearSub (group : jsvalue) (st : Container) : Container :=
  match groupToManagers st !! group with
  | Some a =>
      let managers := default [] (arrays st !! a) in
      let st := foldl (λ st manager, unsubGroup manager group st) st managers in
      {| subs_of := subs_of st;
         groupToManagers := delete group (groupToManagers st);
         arrays := <[a := []]> (arrays st);
         notified := notified st |}
  | None => st
  end.

(** [$clearSignal$(signal)]. *)
Definition clearSignal (signal : Subscriptions) (st : Container) : Container :=
  match groupToManagers st !! idx signal 1 with
  | Some a =>
      foldl (λ st manager, unsubEntry manager signal st) st
            (default [] (arrays st !! a))
  | None => st
  end.

(** ** The serializability verifier *)

(** What the verifier asks of an object. *)
Record object := {
  callable : bool;                          (* typeof obj === 'function' *)
  proxy_target : jsvalue;                     (* obj[QOjectTargetSymbol] *)
  is_promise : bool;                        (* isPromise(obj) *)
  is_node : bool;                           (* isNode(obj) *)
  elements : option (list (option jsvalue));  (* Array.isArray(obj): the slots
                                               below obj.length, None a hole *)
  plain : bool;                             (* isSerializableObject(obj) *)
  entries : list (jsstring * jsvalue);        (* Object.entries(obj) *)
  constructor_name : option jsstring;       (* obj.constructor.name; None when
                                               obj.constructor is undefined
                                               or null *)
  function_name : jsstring;                 (* obj.name *)
  function_text : jsstring;                 (* String(obj) *)
}.

(** A reference the heap does not hold stands for an object the verifier
    knows nothing about: no array, no plain object, no property. *)
Definition opaque : object :=
  {| callable := false; proxy_target := VUndefined; is_promise := false;
     is_node := false; elements := None; plain := false; entries := [];
     constructor_name := Some []; function_name := []; function_text := [] |}.

Inductive jstype :=
  | TUndefined | TObject | TBoolean | TNumber | TString | TFunction | TSymbol | TBigInt.

Definition nat_to_string (n : nat) : jsstring :=
  lit (NilZero.string_of_uint (Nat.to_uint n)).

Definition QUOTE : N := 34%N.
Definition NEWLINE : N := 10%N.

(** [array.forEach(callback)]: the callback runs on the assigned indices, in
    ascending order, and a hole is skipped.  [s] is the state the callback
    updates. *)
Fixpoint forEach {S} (callback : jsvalue → nat → S → outcome S)
    (elements : list (option jsvalue)) (i : nat) (s : S) : outcome S :=
  match elements with
  | [] => Ret s
  | None :: rest => forEach callback rest (Datatypes.S i) s
  | Some v :: rest => s ← callback v i s; forEach callback rest (Datatypes.S i) s
  end.

(** [for (const x of l) body]. *)
Fixpoint for_of {A S} (body : A → S → outcome S) (l : list A) (s : S) : outcome S :=
  match l with
  | [] => Ret s
  | x :: rest => s ← body x s; for_of body rest s
  end.

Section Verifier.

(** The objects, the module's [noSerializeSet], and [canSerialize] of
    [../container/serializers]. *)
Variable heap : gmap ref object.
Variable noSerializeSet : gset ref.
Variable canSerialize : jsvalue → bool.

Definition object_at (r : ref) : object := default opaque (heap !! r).

Definition typeof (v : jsvalue) : jstype :=
  match v with
  | VUndefined => TUndefined
  | VNull => TObject
  | VBool _ => TBoolean
  | VNum _ => TNumber
  | VStr _ => TString
  | VObj r => if callable (object_at r) then TFunction else TObject
  | VSymbol _ => TSymbol
  | VBigInt _ => TBigInt
  end.

(** [isObject], [isFunction], [isArray] and [isSerializableObject] of
    [../util/types]; [isPromise] and [isNode]. *)
Definition isObject (v : jsvalue) : bool :=
  match v with
  | VObj r => negb (callable (object_at r))
  | _ => false
  end.

Definition isFunction (v : jsvalue) : bool :=
  match v with
  | VObj r => callable (object_at r)
  | _ => false
  end.

Definition isPromise (v : jsvalue) : bool :=
  match v with VObj r => is_promise (object_at r) | _ => false end.

Definition isNode (v : jsvalue) : bool :=
  match v with VObj r => is_node (object_at r) | _ => false end.

Definition array_elements (v : jsvalue) : option (list (option jsvalue)) :=
  match v with VObj r => elements (object_at r) | _ => None end.

Definition isArray (v : jsvalue) : bool := bool_decide (is_Some (array_elements v)).

Definition isSerializableObject (v : jsvalue) : bool :=
  match v with VObj r => plain (object_at r) | _ => false end.

Definition object_entries (v : jsvalue) : list (jsstring * jsvalue) :=
  match v with VObj r => entries (object_at r) | _ => [] end.

Definition getProxyTarget (obj : jsvalue) : jsvalue :=
  match obj with VObj r => proxy_target (object_at r) | _ => VUndefined end.

Definition unwrapProxy (proxy : jsvalue) : jsvalue :=
  if isObject proxy then
    if nullish (getProxyTarget proxy) then proxy else getProxyTarget proxy
  else proxy.

Definition noSerializeSet_has (obj : jsvalue) : bool :=
  match obj with VObj r => bool_decide (r ∈ noSerializeSet) | _ => false end.

Definition shouldSerialize (obj : jsvalue) : bool :=
  if isObject obj || isFunction obj then negb (noSerializeSet_has obj) else true.

Definition fastSkipSerialize (obj : jsvalue) : bool := noSerializeSet_has obj.

(** The message of the error [_verifySerializable] ends with; [None]
    when reading [value?.constructor.name] fails, [value.constructor]
    being undefined or null.  (The [console.error] before the [throw] is
    not recorded.) *)
Definition cannot_serialize (value : jsvalue) (typeObj : jstype) (ctx : jsstring)
    (preMessage : option jsstring) : option jsstring :=
  let message :=
    match preMessage with
    | Some (c :: s) => c :: s
    | _ => lit "Value cannot be serialized"
    end in
  let message :=
    if bool_decide (ctx ≠ lit "_") then message ++ lit " in " ++ ctx ++ lit ","
    else message in
  match typeObj, value with
  | TObject, VObj r =>
      name ← constructor_name (object_at r);
      Some (message ++ lit " because it's an instance of " ++ [QUOTE]
            ++ name ++ [QUOTE]
            ++ lit ". You might need to use 'noSerialize()' or use an object literal instead. Check out https://qwik.builder.io/docs/advanced/dollar/")
  | TFunction, VObj r =>
      let fnName := function_name (object_at r) in
      Some (message ++ lit " because it's a function named " ++ [QUOTE] ++ fnName
            ++ [QUOTE]
            ++ lit ". You might need to convert it to a QRL using $(fn):"
            ++ [NEWLINE; NEWLINE] ++ lit "const " ++ fnName ++ lit " = $("
            ++ function_text (object_at r) ++ lit ");" ++ [NEWLINE; NEWLINE]
            ++ lit "Please check out https://qwik.builder.io/docs/advanced/qrl/ for more information.")
  | _, _ => Some message
  end.

(** What the last statements of [_verifySerializable] throw:
    [createError(message)], or the TypeError of building the message. *)
Definition refusal (value : jsvalue) (typeObj : jstype) (ctx : jsstring)
    (preMessage : option jsstring) : error :=
  match cannot_serialize value typeObj ctx preMessage with
  | Some message => Error message
  | None => TypeError
  end.

(** The callback of [unwrapped.forEach] in [_verifySerializable]; its
    state is [expectIndex] and [seen], and [verify] is the nested call. *)
Definition check_element
    (verify : jsvalue → gset jsvalue → jsstring → option jsstring
              → outcome (jsvalue * gset jsvalue))
    (unwrapped : jsvalue) (ctx : jsstring) (v : jsvalue) (i : nat)
    (state : nat * gset jsvalue) : outcome (nat * gset jsvalue) :=
  let '(expectIndex, seen) := state in
  if negb (i =? expectIndex)%nat then Throw (QError_verifySerializable unwrapped)
  else
    '(_, seen) ← verify v seen (ctx ++ lit "[" ++ nat_to_string i ++ lit "]") None;
    Ret (S i, seen).

(** The body of the loop over [Object.entries(unwrapped)]. *)
Definition check_entry
    (verify : jsvalue → gset jsvalue → jsstring → option jsstring
              → outcome (jsvalue * gset jsvalue))
    (ctx : jsstring) (entry : jsstring * jsvalue) (seen : gset jsvalue)
  : outcome (gset jsvalue) :=
  let '(key, item) := entry in
  '(_, seen) ← verify item seen (ctx ++ lit "." ++ key) None;
  Ret seen.

(** [_verifySerializable(value, seen, ctx, preMessage)]: the value returned
    and [seen] after the call.  Every nested call spends one unit of
    [fuel]. *)
Fixpoint _verifySerializable (fuel : nat) (value : jsvalue) (seen : gset jsvalue)
    (ctx : jsstring) (preMessage : option jsstring)
  : outcome (jsvalue * gset jsvalue) :=
  match fuel with
  | O => OutOfFuel
  | S fuel =>
      let unwrapped := unwrapProxy value in
      if nullish unwrapped then Ret (value, seen) else
      if shouldSerialize unwrapped then
        if bool_decide (unwrapped ∈ seen) then Ret (value, seen) else
        let seen := {[unwrapped]} ∪ seen in
        if canSerialize unwrapped then Ret (value, seen) else
        let typeObj := typeof unwrapped in
        let fail := Throw (refusal value typeObj ctx preMessage) in
        match typeObj with
        | TObject =>
            if isPromise unwrapped then Ret (value, seen) else
            if isNode unwrapped then Ret (value, seen) else
            match array_elements unwrapped with
            | Some elems =>
                '(_, seen) ←
                  forEach (check_element (_verifySerializable fuel) unwrapped ctx)
                          elems 0%nat (0%nat, seen);
                Ret (value, seen)
            | None =>
                if isSerializableObject unwrapped then
                  seen ←
                    for_of (check_entry (_verifySerializable fuel) ctx)
                           (object_entries unwrapped) seen;
                  Ret (value, seen)
                else fail
            end
        | TBoolean | TString | TNumber => Ret (value, seen)
        | _ => fail
        end
      else Ret (value, seen)
  end.

(** [verifySerializable(value, preMessage)].  A nested call is made only
    on an object that [seen] did not hold yet, so the nesting is never
    deeper than the number of objects of the heap. *)
Definition verifySerializable (value : jsvalue) (preMessage : option jsstring)
  : outcome jsvalue :=
  let seen := ∅ in
  '(value, _) ← _verifySerializable (S (size heap)) value seen (lit "_") preMessage;
  Ret value.

End Verifier.

(** ** noSerialize *)

(** [set.add(v)] on a [WeakSet], which holds objects; a function is an
    object too.  [None] is the TypeError of a value that is no object (and
    stands for a symbol too, which engines before ES2023 refuse in the same
    way and later ones hold weakly). *)
Definition WeakSet_add (marks : gset ref) (v : jsvalue) : option (gset ref) :=
  match v with
  | VObj r => Some ({[r]} ∪ marks)
  | _ => None
  end.

(** [noSerialize(input)]: the value returned and the module's
    [noSerializeSet] after the call. *)
Definition noSerialize (input : jsvalue) (noSerializeSet : gset ref)
  : option (jsvalue * gset ref) :=
  if negb (nullish input) then
    marks ← WeakSet_add noSerializeSet input; Some (input, marks)
  else Some (input, noSerializeSet).

(** [_weakSerialize(input)] and [fastWeakSerialize(obj)], on the module's
    [weakSerializeSet]. *)
Definition _weakSerialize (input : jsvalue) (weakSerializeSet : gset ref)
  : option (jsvalue * gset ref) :=
  marks ← WeakSet_add weakSerializeSet input; Some (input, marks).

Definition fastWeakSerialize (weakSerializeSet : gset ref) (obj : jsvalue) : bool :=
  match obj with VObj r => bool_decide (r ∈ weakSerializeSet) | _ => false end.

(** ** Scoped style identifiers

    [serializeSStyle] of [core/style/qrl-styles.ts]. *)

(** [strings.join(sep)]. *)
Fixpoint join (sep : jsstring) (strings : list jsstring) : jsstring :=
  match strings with
  | [] => []
  | [s] => s
  | s :: rest => s ++ sep ++ join sep rest
  end.

(** [serializeSStyle(scopeIds)], with [None] for [undefined]. *)
Definition serializeSStyle (scopeIds : list jsstring) : option jsstring :=
  let value := join (lit "|") scopeIds in
  if (0 <? length value)%nat then Some value else None.

(** ** The theme toggle

    [setPreference], [reflectPreference], [getColorPreference] and the click
    handler of [ThemeToggle]. *)

(** What the functions read and write: the [localStorage], the attribute
    [data-theme] of [document.firstElementChild] ([None] when the document
    has no element, [Some None] when the element has no such attribute),
    the answer of the media query [(prefers-color-scheme: dark)], and
    [state.theme] of the global store. *)
Record Page := {
  localStorage : gmap jsstring jsstring;
  data_theme : option (option jsstring);
  prefers_dark : bool;
  state_theme : jsstring;
}.

Section ThemeToggle.

(** [themeStorageKey] of [../router-head/theme-script]. *)
Variable themeStorageKey : jsstring.

Definition reflectPreference (theme : jsstring) (page : Page) : Page :=
  match data_theme page with
  | Some _ =>
      {| localStorage := localStorage page; data_theme := Some (Some theme);
         prefers_dark := prefers_dark page; state_theme := state_theme page |}
  | None => page
  end.

Definition setPreference (theme : jsstring) (page : Page) : Page :=
  reflectPreference theme
    {| localStorage := <[themeStorageKey := theme]> (localStorage page);
       data_theme := data_theme page;
       prefers_dark := prefers_dark page; state_theme := state_theme page |}.

(** [localStorage.getItem(key)] is [null] or a string, and only the empty
    string is a falsy string. *)
Definition getColorPreference (page : Page) : jsstring :=
  match localStorage page !! themeStorageKey with
  | Some (c :: s) => c :: s
  | _ => if prefers_dark page then lit "dark" else lit "light"
  end.

(** The handler of [onClick$]. *)
Definition onClick (page : Page) : Page :=
  let theme :=
    if bool_decide (state_theme page = lit "light") then lit "dark" else lit "light" in
  setPreference theme
    {| localStorage := localStorage page; data_theme := data_theme page;
       prefers_dark := prefers_dark page; state_theme := theme |}.

End ThemeToggle.

(** *** colorSchemeChangeListener *)

(** The two function objects that [colorSchemeChangeListener] creates: the
    listener, [({ matches: isDark }) => { onColorSchemeChange(isDark) }], and
    the function handed to [addEventListener],
    [(event) => listener(event)].  A function object is known by its
    reference. *)
Inductive closure :=
  | Listener
  | Forward (listener : ref).

(** The window: its function objects, the [MediaQueryList] objects that
    [matchMedia] returned for [(prefers-color-scheme: dark)], each with its
    listeners for [change] in the order they were added, and the calls of
    [onColorSchemeChange] made so far, oldest first. *)
Record Window := {
  closures : gmap ref closure;
  media_query_lists : list (list ref);
  color_scheme_calls : list bool;
}.

(** [window.matchMedia(query)] returns a new [MediaQueryList] at every
    call. *)
Definition matchMedia (w : Window) : nat * Window :=
  (length (media_query_lists w),
   {| closures := closures w;
      media_query_lists := media_query_lists w ++ [[]];
      color_scheme_calls := color_scheme_calls w |}).

(** [target.addEventListener('change', callback)]: a callback that is
    registered already is not added again. *)
Definition addEventListener (target : nat) (callback : ref) (w : Window) : Window :=
  {| closures := closures w;
     media_query_lists :=
       alter (λ l, if bool_decide (callback ∈ l) then l else l ++ [callback])
             target (media_query_lists w);
     color_scheme_calls := color_scheme_calls w |}.

(** [target.removeEventListener('change', callback)]. *)
Definition removeEventListener (target : nat) (callback : ref) (w : Window) : Window :=
  {| closures := closures w;
     media_query_lists :=
       alter (List.filter (λ f, negb (Pos.eqb f callback))) target (media_query_lists w);
     color_scheme_calls := color_scheme_calls w |}.

Definition new_closure (c : closure) (w : Window) : ref * Window :=
  let f := fresh (dom (closures w)) in
  (f, {| closures := <[f := c]> (closures w);
         media_query_lists := media_query_lists w;
         color_scheme_calls := color_scheme_calls w |}).

(** [colorSchemeChangeListener(onColorSchemeChange)]: the function it
    returns, and the window after the call. *)
Definition colorSchemeChangeListener (w : Window) : (Window → Window) * Window :=
  let '(listener, w) := new_closure Listener w in
  let '(list, w) := matchMedia w in
  let '(callback, w) := new_closure (Forward listener) w in
  let w := addEventListener list callback w in
  (λ w, let '(list, w) := matchMedia w in removeEventListener list listener w, w).

(** A call of a registered function with a [change] event. *)
Definition call_listener (isDark : bool) (w : Window) : Window :=
  {| closures := closures w; media_query_lists := media_query_lists w;
     color_scheme_calls := color_scheme_calls w ++ [isDark] |}.

Definition call (isDark : bool) (w : Window) (f : ref) : Window :=
  match closures w !! f with
  | Some Listener => call_listener isDark w
  | Some (Forward listener) =>
      match closures w !! listener with
      | Some Listener => call_listener isDark w
      | _ => w
      end
  | None => w
  end.

(** The color scheme changes: every list fires [change], and its listeners
    are called in order. *)
Definition change (isDark : bool) (w : Window) : Window :=
  foldl (call isDark) w (concat (media_query_lists w)).

(** * Properties *)

(** ** Vocabulary of the manager's properties *)

(** The Variant-A subscriptions of one group and key, as [$addSub$] looks
    for them. *)
Definition same_A (group key : jsvalue) (s : Subscriptions) : bool :=
  strict_eq (idx s 0) (VNum (Int 0)) && strict_eq (idx s 1) group && strict_eq (idx s 2) key.

(** No two Variant-A subscriptions of the collection have the same group
    and key. *)
Definition deduplicated (subs : list Subscriptions) : Prop :=
  ∀ group key, (length (List.filter (same_A group key) subs) ≤ 1)%nat.

(** [sub[sub.length - 1]]: the key of a stored subscription. *)
Definition trailing (sub : Subscriptions) : jsvalue := idx sub (length sub - 1).

(** A key that [$notifySubs$] reads as missing: it is falsy. *)
Definition no_key (k : jsvalue) : bool := negb (truthy k).

(** The subscriptions [$notifySubs$(key)] hands to [notifyChange]. *)
Definition notifies (key : jsvalue) (sub : Subscriptions) : bool :=
  no_key (trailing sub) || no_key key || strict_eq (trailing sub) key.

(** The container after more calls of [notifyChange]. *)
Definition with_notified (st : Container) (calls : list Subscriptions) : Container :=
  {| subs_of := subs_of st; groupToManagers := groupToManagers st;
     arrays := arrays st; notified := notified st ++ calls |}.

(** The manager [m] is listed in the array of [group]. *)
Definition registered (st : Container) (group : jsvalue) (m : manager) : Prop :=
  ∃ a ms, groupToManagers st !! group = Some a ∧ arrays st !! a = Some ms ∧ m ∈ ms.

(** The [Map] is well formed: two groups never share an array, and the
    array of a group exists. *)
Definition index_wf (st : Container) : Prop :=
  (∀ g1 g2 a,
     groupToManagers st !! g1 = Some a → groupToManagers st !! g2 = Some a → g1 = g2)
  ∧ (∀ g a, groupToManagers st !! g = Some a → is_Some (arrays st !! a)).

(** The [Map] is complete: a manager that holds a subscription of a group
    is listed in the array of that group.  (A group that is [NaN] can be
    looked up in a [Map] but is never [===] to itself, and is left out.) *)
Definition index_complete (st : Container) : Prop :=
  ∀ m sub, sub ∈ get_subs m st → idx sub 1 ≠ VNum NaN → registered st (idx sub 1) m.

(** The invariant of the [Map]. *)
Definition index_ok (st : Container) : Prop := index_wf st ∧ index_complete st.

(** The containers a program can produce: a new one, and what the methods
    of the container and of its managers make of it.  A subscriber handed to
    [$addSub$] has a type and a host. *)
Inductive reachable : Container → Prop :=
  | reach_new : reachable createSubscriptionManager
  | reach_createManager st initialMap :
      reachable st → reachable (createManager initialMap st).2
  | reach_addSubs st this subs : reachable st → reachable (addSubs this subs st)
  | reach_addSub st this sub key :
      (2 ≤ length sub)%nat → reachable st → reachable (addSub this sub key st)
  | reach_unsubGroup st this group : reachable st → reachable (unsubGroup this group st)
  | reach_unsubEntry st this entry : reachable st → reachable (unsubEntry this entry st)
  | reach_notifySubs st this key : reachable st → reachable (notifySubs this key st)
  | reach_clearSub st group : reachable st → reachable (clearSub group st)
  | reach_clearSignal st signal : reachable st → reachable (clearSignal signal st).

(** ** Vocabulary of the verifier's properties *)

(** The objects of the heap that [seen] does not hold: what bounds the
    nesting of the calls of [_verifySerializable]. *)
Definition unseen (heap : gmap ref object) (seen : gset jsvalue) : gset ref :=
  filter (λ r, VObj r ∉ seen) (dom heap).

(** A call that ended: it threw, or it returned [value] with [seen] only
    grown. *)
Definition settled (value : jsvalue) (seen : gset jsvalue)
    (r : outcome (jsvalue * gset jsvalue)) : Prop :=
  match r with
  | Ret (v', seen') => v' = value ∧ seen ⊆ seen'
  | Throw _ => True
  | Beyond | OutOfFuel => False
  end.

(** A call that did not throw: it returned [value], unless the fuel ran
    out. *)
Definition accepted (value : jsvalue) (r : outcome (jsvalue * gset jsvalue)) : Prop :=
  match r with
  | Ret (v', _) => v' = value
  | OutOfFuel => True
  | Throw _ | Beyond => False
  end.

(** The primitives a store may hold. *)
Definition primitive (v : jsvalue) : bool :=
  match v with
  | VBool _ | VNum _ | VStr _ => true
  | _ => false
  end.

(** A value graph made of primitives, dense arrays and plain objects only:
    [G] is the set of its objects, and such a graph may have cycles. *)
Definition shaped (G : ref → Prop) (v : jsvalue) : Prop :=
  primitive v = true ∨ ∃ r, v = VObj r ∧ G r.

Definition array_or_plain (G : ref → Prop) (o : object) : Prop :=
  callable o = false ∧ nullish (proxy_target o) = true
  ∧ ((∃ vs, elements o = Some (Some <$> vs) ∧ Forall (shaped G) vs)
     ∨ (elements o = None ∧ plain o = true ∧ Forall (λ kv, shaped G kv.2) (entries o))).

Definition shapes (heap : gmap ref object) (G : ref → Prop) : Prop :=
  ∀ r, G r → ∃ o, heap !! r = Some o ∧ array_or_plain G o.

(** An acyclic value graph made of primitives, dense arrays and plain
    objects only: the value unfolds into a finite tree (an object may occur
    in several places of it). *)
Inductive acyclic_serializable (heap : gmap ref object) : jsvalue → Prop :=
  | ser_bool b : acyclic_serializable heap (VBool b)
  | ser_num n : acyclic_serializable heap (VNum n)
  | ser_str s : acyclic_serializable heap (VStr s)
  | ser_array r o vs :
      heap !! r = Some o → callable o = false → nullish (proxy_target o) = true →
      elements o = Some (Some <$> vs) →
      Forall (acyclic_serializable heap) vs →
      acyclic_serializable heap (VObj r)
  | ser_object r o :
      heap !! r = Some o → callable o = false → nullish (proxy_target o) = true →
      elements o = None → plain o = true →
      Forall (λ kv, acyclic_serializable heap kv.2) (entries o) →
      acyclic_serializable heap (VObj r).

(** Objects for the examples: an array, an object literal, an instance of a
    class. *)
Definition array_object (elems : list (option jsvalue)) : object :=
  {| callable := false; proxy_target := VUndefined; is_promise := false;
     is_node := false; elements := Some elems; plain := false; entries := [];
     constructor_name := Some (lit "Array"); function_name := []; function_text := [] |}.

Definition plain_object (props : list (jsstring * jsvalue)) : object :=
  {| callable := false; proxy_target := VUndefined; is_promise := false;
     is_node := false; elements := None; plain := true; entries := props;
     constructor_name := Some (lit "Object"); function_name := []; function_text := [] |}.

Definition instance_of (class : string) : object :=
  {| callable := false; proxy_target := VUndefined; is_promise := false;
     is_node := false; elements := None; plain := false; entries := [];
     constructor_name := Some (lit class); function_name := []; function_text := [] |}.

(** [canSerialize] of a container without serializer for any value. *)
Definition no_serializer (v : jsvalue) : bool := false.

(** [{a: 1, b: [1, 2, 3]}]. *)
Definition heap_literal : gmap ref object :=
  {[ 1%positive := plain_object [(lit "a", VNum (Int 1)); (lit "b", VObj 2)];
     2%positive := array_object [Some (VNum (Int 1)); Some (VNum (Int 2)); Some (VNum (Int 3))] ]}.

(** [const o = {n: 1, list: []}; o.self = o; o.list.push(o)]. *)
Definition heap_cyclic : gmap ref object :=
  {[ 1%positive := plain_object [(lit "n", VNum (Int 1)); (lit "list", VObj 2);
                                 (lit "self", VObj 1)];
     2%positive := array_object [Some (VObj 1)] ]}.

(** [new CustomClassInstance()]. *)
Definition heap_instance : gmap ref object :=
  {[ 1%positive := instance_of "CustomClassInstance" ]}.

(** [const a = [1]; a.length = 2]: index 1 is below the length and was never
    assigned. *)
Definition heap_trailing_hole : gmap ref object :=
  {[ 1%positive := array_object [Some (VNum (Int 1)); None] ]}.

(** [const a = []; a[1] = 1]: index 0 was never assigned. *)
Definition heap_leading_hole : gmap ref object :=
  {[ 1%positive := array_object [None; Some (VNum (Int 1))] ]}.

(** ** Vocabulary of the codec's properties *)

(** [s.isWellFormed()]: no lone surrogate. *)
Fixpoint well_formed (s : jsstring) : bool :=
  match s with
  | [] => true
  | c :: rest =>
      if is_trail c then false
      else if is_lead c then
        match rest with
        | c2 :: rest' => is_trail c2 && well_formed rest'
        | [] => false
        end
      else well_formed rest
  end.

(** A token of a record: it holds no space. *)
Definition space_free (s : jsstring) : Prop := SPACE ∉ s.

(** The record made of the given tokens: [tokens.join(' ')]. *)
Fixpoint join_tokens (tokens : list jsstring) : jsstring :=
  match tokens with
  | [] => []
  | [t] => t
  | t :: rest => t ++ SPACE :: join_tokens rest
  end.

Section CodecVocabulary.

Variable qDev : bool.
Variable getObjId : jsvalue → option jsstring.
Variable getObject : jsvalue → jsvalue.
Variable isSubscriberDescriptor : jsvalue → bool.
Variable get_el : jsvalue → jsvalue.

(** [getObjId] resolves the object to an identifier that is a non-empty
    token, and [getObject] maps that identifier back to the object. *)
Definition resolvable (v : jsvalue) : Prop :=
  ∃ id, getObjId v = Some id ∧ id ≠ [] ∧ space_free id ∧ getObject (VStr id) = v.

(** A host that is a descriptor whose [$el$] is gone. *)
Definition stale (host : jsvalue) : bool :=
  isSubscriberDescriptor host && negb (truthy (get_el host)).

(** A key that survives the round trip: none, or a non-empty string
    without lone surrogate. *)
Definition round_trip_key (key : jsvalue) : Prop :=
  key = VUndefined
  ∨ ∃ k, key = VStr k ∧ k ≠ [] ∧ code_units k ∧ well_formed k = true.

(** Encoding then decoding gives the subscription back. *)
Definition round_trips (sub : Subscriptions) : Prop :=
  ∃ record,
    serializeSubscription qDev getObjId sub = Ret (Some record)
    ∧ parseSubscription qDev getObject isSubscriberDescriptor get_el record
      = Ret (Some sub).

End CodecVocabulary.

(** Resolvers for the examples: the objects 1, 2 and 3 have the identifiers
    ["12"], ["s7"] and ["#3"]; nothing else is known to the container. *)
Definition sample_getObjId (v : jsvalue) : option jsstring :=
  match v with
  | VObj 1 => Some (lit "12")
  | VObj 2 => Some (lit "s7")
  | VObj 3 => Some (lit "#3")
  | _ => None
  end.


Definition sample_getObject (id : jsvalue) : jsvalue :=
  if decide (id = VStr (lit "12")) then VObj 1
  else if decide (id = VStr (lit "s7")) then VObj 2
  else if decide (id = VStr (lit "#3")) then VObj 3
  else VUndefined.

(** No host of the examples is a descriptor. *)
Definition no_descriptor (host : jsvalue) : bool := false.
Definition no_el (host : jsvalue) : jsvalue := VUndefined.

(** The token of a type. *)
Definition type_token (type : Z) : jsstring :=
  default [] (to_string (VNum (Int type))).

(** The tokens of a well-formed record: the token of a type from 0 to 4,
    the identifier of the group, and as many further tokens as the type
    asks for, the last of them an optional key. *)
Definition record_tokens (tokens : list jsstring) : Prop :=
  Forall space_free tokens
  ∧ ∃ type g rest,
      tokens = type_token type :: g :: rest
      ∧ ((type = 0 ∧ (length rest ≤ 1)%nat)
         ∨ ((type = 1 ∨ type = 2) ∧ (length rest = 3 ∨ length rest = 4)%nat)
         ∨ ((type = 3 ∨ type = 4) ∧ (length rest = 2 ∨ length rest = 3)%nat)).

(** ** Vocabulary of the managers' further properties *)

(** The test of [$unsubEntry$] for an entry of type 1 or 2: type, group,
    signal, element and property are the entry's; the key plays no part. *)
Definition matches_B (entry sub : Subscriptions) : bool :=
  strict_eq (idx sub 0) (idx entry 0) && strict_eq (idx sub 1) (idx entry 1)
  && strict_eq (idx sub 2) (idx entry 2) && strict_eq (idx sub 3) (idx entry 3)
  && strict_eq (idx sub 4) (idx entry 4).

(** The test of [$unsubEntry$] for an entry of type 3 or 4. *)
Definition matches_C (entry sub : Subscriptions) : bool :=
  strict_eq (idx sub 0) (idx entry 0) && strict_eq (idx sub 1) (idx entry 1)
  && strict_eq (idx sub 2) (idx entry 2) && strict_eq (idx sub 3) (idx entry 3).

(** The subscriptions [$unsubEntry$(entry)] removes. *)
Definition matches (entry sub : Subscriptions) : bool :=
  let type := idx entry 0 in
  if strict_eq type (VNum (Int 1)) || strict_eq type (VNum (Int 2)) then matches_B entry sub
  else if strict_eq type (VNum (Int 3)) || strict_eq type (VNum (Int 4)) then matches_C entry sub
  else false.

(** No array of the [Map] lists a manager twice. *)
Definition listed_once (st : Container) : Prop :=
  ∀ a ms, arrays st !! a = Some ms → NoDup ms.

(** ** Vocabulary of the verifier's further properties *)

Section VerifierVocabulary.

Variable heap : gmap ref object.
Variable noSerializeSet : gset ref.
Variable canSerialize : jsvalue → bool.

(** The values that [_verifySerializable] accepts without looking inside:
    [null] and [undefined], what [noSerialize] marked, what has a
    serializer, booleans, numbers and strings, promises and nodes.  [u] is
    a value as [unwrapProxy] gives it. *)
Definition passes (u : jsvalue) : bool :=
  nullish u || negb (shouldSerialize heap noSerializeSet u) || canSerialize u
  || primitive u || isObject heap u && (isPromise heap u || isNode heap u).

(** A value that passes, or that stands for an object of [G]. *)
Definition verifiable (G : ref → Prop) (v : jsvalue) : Prop :=
  passes (unwrapProxy heap v) = true
  ∨ ∃ r, unwrapProxy heap v = VObj r ∧ G r.

(** An object the verifier goes through: an array whose holes, if any,
    all come after its last assigned index, or a plain object; what it
    holds is verifiable. *)
Definition inspected (G : ref → Prop) (r : ref) : Prop :=
  isObject heap (VObj r) = true
  ∧ match array_elements heap (VObj r) with
    | Some elems =>
        ∃ vs k, elems = (Some <$> vs) ++ replicate k None ∧ Forall (verifiable G) vs
    | None =>
        isSerializableObject heap (VObj r) = true
        ∧ Forall (λ kv, verifiable G kv.2) (object_entries heap (VObj r))
    end.

(** A set of objects that the verifier can go through without leaving
    it. *)
Definition closed (G : ref → Prop) : Prop := ∀ r, G r → inspected G r.

(** The objects of [seen] that do not pass by themselves. *)
Definition gone_through (seen : gset jsvalue) (r : ref) : Prop :=
  VObj r ∈ seen ∧ passes (VObj r) = false.

(** [seen] holds nothing but objects and values that pass. *)
Definition objects_only (seen : gset jsvalue) : Prop :=
  ∀ v, v ∈ seen → passes v = true ∨ ∃ r, v = VObj r.

(** What a call that returned leaves: [seen] only grew, and still holds
    nothing but objects and values that pass; the value passes or is in
    [seen]; and every object that [seen] gained was gone through. *)
Definition closes (value : jsvalue) (seen seen' : gset jsvalue) : Prop :=
  seen ⊆ seen'
  ∧ objects_only seen'
  ∧ (passes (unwrapProxy heap value) = true ∨ unwrapProxy heap value ∈ seen')
  ∧ (∀ r, VObj r ∈ seen' → VObj r ∉ seen → passes (VObj r) = false →
       inspected (gone_through seen') r).

End VerifierVocabulary.

(** *** Where the verifier stops *)

(** A step from a value into it, as [_verifySerializable] writes it into
    [ctx]: [[i]] into an array, [.key] into an object. *)
Inductive step := Index (i : nat) | Key (key : jsstring).

Definition step_text (s : step) : jsstring :=
  match s with
  | Index i => lit "[" ++ nat_to_string i ++ lit "]"
  | Key key => lit "." ++ key
  end.

Definition path_text (path : list step) : jsstring := mjoin (step_text <$> path).

Section VerifierPaths.

Variable heap : gmap ref object.
Variable noSerializeSet : gset ref.
Variable canSerialize : jsvalue → bool.

(** [at_path v path w]: following [path] from [v], through arrays by
    assigned index and through plain objects by entry, leads to [w]. *)
Inductive at_path : jsvalue → list step → jsvalue → Prop :=
  | at_root v : at_path v [] v
  | at_index v elems i x path w :
      array_elements heap (unwrapProxy heap v) = Some elems →
      elems !! i = Some (Some x) →
      at_path x path w → at_path v (Index i :: path) w
  | at_key v key x path w :
      array_elements heap (unwrapProxy heap v) = None →
      isSerializableObject heap (unwrapProxy heap v) = true →
      (key, x) ∈ object_entries heap (unwrapProxy heap v) →
      at_path x path w → at_path v (Key key :: path) w.

(** A value the verifier has no way to accept: it does not pass, and if
    it is an object it is neither an array nor a plain object.  Such a
    value is a function, an instance of a class, or a symbol or a bigint,
    for which the [switch] of [_verifySerializable] has no case. *)
Definition refused (w : jsvalue) : Prop :=
  let u := unwrapProxy heap w in
  passes heap noSerializeSet canSerialize u = false
  ∧ (isObject heap u = true →
     array_elements heap u = None ∧ isSerializableObject heap u = false).

(** An array with a hole below an assigned index. *)
Definition holey (w : jsvalue) : Prop :=
  ∃ elems a b x,
    array_elements heap (unwrapProxy heap w) = Some elems
    ∧ (a < b)%nat ∧ elems !! a = Some None ∧ elems !! b = Some (Some x).

(** The error of a call of [_verifySerializable] with the context [ctx],
    and the value it is thrown for. *)
Definition thrown_at (ctx : jsstring) (preMessage : option jsstring)
    (value : jsvalue) (err : error) : Prop :=
  ∃ path w,
    at_path value path w
    ∧ ((refused w
        ∧ err = refusal heap w (typeof heap (unwrapProxy heap w))
                  (ctx ++ path_text path)
                  (match path with [] => preMessage | _ => None end))
       ∨ (holey w ∧ err = QError_verifySerializable (unwrapProxy heap w))).

End VerifierPaths.

(** A store proxy: [QOjectTargetSymbol] gives its target. *)
Definition proxy_of (target : ref) : object :=
  {| callable := false; proxy_target := VObj target; is_promise := false;
     is_node := false; elements := None; plain := false; entries := [];
     constructor_name := Some (lit "Object"); function_name := []; function_text := [] |}.

(** A function. *)
Definition function_object (name text : string) : object :=
  {| callable := true; proxy_target := VUndefined; is_promise := false;
     is_node := false; elements := None; plain := false; entries := [];
     constructor_name := Some (lit "Function"); function_name := lit name;
     function_text := lit text |}.

(** A store proxy (1) of an instance of a class (2). *)
Definition heap_proxy : gmap ref object :=
  {[ 1%positive := proxy_of 2; 2%positive := instance_of "CustomClassInstance" ]}.

(** [{a: [1, () => 1]}]. *)
Definition heap_nested : gmap ref object :=
  {[ 1%positive := plain_object [(lit "a", VObj 2)];
     2%positive := array_object [Some (VNum (Int 1)); Some (VObj 3)];
     3%positive := function_object "" "() => 1" ]}.

(** [Object.create(Object.create(null))]: an object that is not plain and
    has no [constructor]. *)
Definition heap_bare : gmap ref object :=
  {[ 1%positive :=
       {| callable := false; proxy_target := VUndefined; is_promise := false;
          is_node := false; elements := None; plain := false; entries := [];
          constructor_name := None; function_name := []; function_text := [] |} ]}.

(** ** The subscription managers *)

Lemma splice_loop_filter found rounds i (subs : list Subscriptions) :
  (length subs - i ≤ rounds)%nat →
  splice_loop found rounds i subs
  = take i subs ++ List.filter (λ sub, negb (found sub)) (drop i subs).
Proof.
  revert i subs. induction rounds as [|rounds IH]; intros i subs Hr; simpl.
  - rewrite drop_ge; [|lia]. rewrite take_ge; [|lia]. by rewrite app_nil_r.
  - destruct (subs !! i) as [sub|] eqn:Hi.
    + pose proof (lookup_lt_Some _ _ _ Hi) as Hlt.
      rewrite (drop_S _ _ _ Hi). simpl.
      destruct (found sub) eqn:Hf; simpl.
      * rewrite IH; [|rewrite length_delete; [lia|eauto]].
        rewrite delete_take_drop.
        rewrite take_app_length'; [|rewrite length_take; lia].
        rewrite drop_app_length'; [|rewrite length_take; lia]. done.
      * rewrite IH; [|lia]. rewrite (take_S_r _ _ _ Hi). by rewrite <- app_assoc.
    + apply lookup_ge_None in Hi.
      rewrite drop_ge; [|lia]. rewrite take_ge; [|lia]. by rewrite app_nil_r.
Qed.

Lemma get_subs_set_subs this m l st :
  get_subs m (set_subs this l st) = if decide (this = m) then l else get_subs m st.
Proof.
  unfold get_subs, set_subs; simpl. rewrite lookup_insert.
  by destruct (decide (this = m)).
Qed.

Lemma unsubGroup_filter this group st :
  get_subs this (unsubGroup this group st)
  = List.filter (λ sub, negb (strict_eq (idx sub 1) group)) (get_subs this st).
Proof.
  unfold unsubGroup. rewrite get_subs_set_subs, decide_True by done.
  rewrite splice_loop_filter by lia. done.
Qed.

Lemma subs_of_addToGroup group m st : subs_of (addToGroup group m st) = subs_of st.
Proof.
  unfold addToGroup.
  destruct (groupToManagers st !! group); simpl; by case_bool_decide.
Qed.

Lemma get_subs_addToGroup group m this st :
  get_subs this (addToGroup group m st) = get_subs this st.
Proof. unfold get_subs. by rewrite subs_of_addToGroup. Qed.

Lemma notified_addToGroup group m st : notified (addToGroup group m st) = notified st.
Proof.
  unfold addToGroup.
  destruct (groupToManagers st !! group); simpl; by case_bool_decide.
Qed.

Lemma strict_eq_refl v : v ≠ VNum NaN → strict_eq v v = true.
Proof.
  destruct v as [| |b|[|z]|s|r|r|z]; simpl; intros H; try done.
  - by destruct b.
  - apply Z.eqb_refl.
  - by apply bool_decide_eq_true.
  - apply Pos.eqb_refl.
  - apply Pos.eqb_refl.
  - apply Z.eqb_refl.
Qed.

Lemma strict_eq_eq a b : strict_eq a b = true → a = b.
Proof.
  destruct a as [| |x|[|x]|x|x|x|x], b as [| |y|[|y]|y|y|y|y]; simpl; try done.
  - by intros ->%eqb_prop.
  - by intros ->%Z.eqb_eq.
  - by intros ->%bool_decide_eq_true.
  - by intros ->%Pos.eqb_eq.
  - by intros ->%Pos.eqb_eq.
  - by intros ->%Z.eqb_eq.
Qed.

Lemma key_type_strict_eq key : key_type key → strict_eq key key = true.
Proof. intros [->|[s ->]]; [done|]. by apply strict_eq_refl. Qed.

Lemma idx_app_l (sub : list jsvalue) (l : list jsvalue) i :
  (i < length sub)%nat → idx (sub ++ l) i = idx sub i.
Proof. intros Hi. unfold idx. by rewrite lookup_app_l. Qed.

Lemma existsb_filter_length {A} (f : A → bool) l :
  existsb f l = negb (length (List.filter f l) =? 0)%nat.
Proof. induction l as [|a l IH]; simpl; [done|]. destruct (f a); simpl; done. Qed.

Lemma addSub_unfold this sub key st :
  addSub this sub key st
  = if strict_eq (idx sub 0) (VNum (Int 0))
       && existsb (same_A (idx sub 1) key) (get_subs this st)
    then st
    else addToGroup (idx sub 1) this
           (set_subs this (get_subs this st ++ [sub ++ [key]]) st).
Proof. reflexivity. Qed.

(** X9: A collection filled through [$addSub$] alone stays without duplicate
    Variant-A subscriptions. *)
Lemma addSub_deduplicated this (sub : Subscriber) key st :
  (2 ≤ length sub)%nat → (idx sub 0 = VNum (Int 0) → length sub = 2%nat) →
  deduplicated (get_subs this st) →
  deduplicated (get_subs this (addSub this sub key st)).
Proof.
  intros Hlen HA Hded. rewrite addSub_unfold.
  destruct (strict_eq (idx sub 0) (VNum (Int 0))) eqn:Htype; simpl.
  - destruct (existsb _ _) eqn:He; [done|].
    rewrite get_subs_addToGroup, get_subs_set_subs, decide_True by done.
    intros group key'. rewrite List.filter_app, length_app. cbn [List.filter].
    destruct (same_A group key' (sub ++ [key])) eqn:Hsame; [|simpl; specialize (Hded group key'); lia].
    apply strict_eq_eq in Htype. specialize (HA Htype).
    destruct sub as [|type [|host [|? ?]]]; try (simpl in HA; lia).
    unfold same_A, idx in Hsame. simpl in Hsame.
    apply andb_true_iff in Hsame as [[_ Hg%strict_eq_eq]%andb_true_iff Hk%strict_eq_eq].
    subst group key'. change (idx [type; host] 1) with host in He.
    rewrite existsb_filter_length in He.
    destruct (length (List.filter (same_A host key) (get_subs this st))); [done|done].
  - rewrite get_subs_addToGroup, get_subs_set_subs, decide_True by done.
    intros group key'. rewrite List.filter_app, length_app. cbn [List.filter].
    assert (Hsame : same_A group key' (sub ++ [key]) = false).
    { unfold same_A. rewrite idx_app_l by lia. by rewrite Htype. }
    rewrite Hsame. simpl. specialize (Hded group key'). lia.
Qed.

(** C2, amended: adding a Variant-A subscriber a second time, for the same
    group and key, changes nothing, and after it the collection holds as
    many subscriptions of that group and key as it held before the first add,
    and one if it held none: [$addSub$] stores at most one and removes none.
    So a collection that held at most one such subscription holds exactly one
    after, and one that held several (through [$addSubs$]) still holds them.
    A Variant-B or Variant-C subscriber added twice is stored twice, at the
    end of the collection. *)
Theorem addSub_dedup (this : manager) (key : jsvalue) (st : Container) :
  key_type key →
  (∀ group : ref,
     let sub := [VNum (Int 0); VObj group] in
     let st1 := addSub this sub key st in
     let count st := length (List.filter (same_A (VObj group) key) (get_subs this st)) in
     addSub this sub key st1 = st1
     ∧ count st1 = Nat.max 1 (count st)
     ∧ ((count st ≤ 1)%nat → count st1 = 1%nat))
  ∧ (∀ (sub : Subscriber) (type : Z),
       idx sub 0 = VNum (Int type) → 1 ≤ type ≤ 4 →
       get_subs this (addSub this sub key (addSub this sub key st))
       = get_subs this st ++ [sub ++ [key]; sub ++ [key]]).
Proof.
  intros Hkey. split.
  - intros group sub st1 count.
    assert (Hst1 : st1 = if existsb (same_A (VObj group) key) (get_subs this st)
                         then st
                         else addToGroup (VObj group) this
                                (set_subs this (get_subs this st ++ [sub ++ [key]]) st))
      by done.
    assert (Hnew : same_A (VObj group) key (sub ++ [key]) = true).
    { unfold same_A, idx. simpl. by rewrite Pos.eqb_refl, (key_type_strict_eq _ Hkey). }
    assert (Hin : existsb (same_A (VObj group) key) (get_subs this st1) = true).
    { rewrite Hst1. destruct (existsb _ (get_subs this st)) eqn:He; [done|].
      rewrite get_subs_addToGroup, get_subs_set_subs, decide_True by done.
      rewrite existsb_app. cbn [existsb]. by rewrite Hnew, orb_true_r. }
    assert (Hcount : count st1 = Nat.max 1 (count st)).
    { unfold count. rewrite Hst1.
      destruct (existsb _ (get_subs this st)) eqn:He;
        rewrite existsb_filter_length in He.
      - destruct (length _) as [|n]; [done|lia].
      - rewrite get_subs_addToGroup, get_subs_set_subs, decide_True by done.
        rewrite List.filter_app, length_app.
        destruct (length (List.filter _ (get_subs this st))); [|done].
        cbn [List.filter]. by rewrite Hnew. }
    split_and!.
    + rewrite addSub_unfold.
      change (idx sub 1) with (VObj group). by rewrite Hin.
    + done.
    + intros Hle. rewrite Hcount. lia.
  - intros sub type Ht Hrange.
    assert (Hne : strict_eq (idx sub 0) (VNum (Int 0)) = false).
    { rewrite Ht. simpl. apply Z.eqb_neq. lia. }
    rewrite !addSub_unfold, Hne. simpl.
    repeat (rewrite ?get_subs_addToGroup, ?get_subs_set_subs; rewrite ?decide_True by done).
    by rewrite <- app_assoc.
Qed.

Lemma no_key_spec k : key_type k → no_key k = true ↔ k = VUndefined ∨ k = VStr [].
Proof.
  intros [->|[s ->]]; unfold no_key; simpl.
  - split; [by left|done].
  - rewrite negb_involutive, bool_decide_eq_true.
    split; [intros ->; by right|by intros [?|[= ->]]].
Qed.

Lemma notify_loop key (l : list Subscriptions) st :
  foldl (λ st sub,
           let compare := idx sub (length sub - 1) in
           if truthy key && truthy compare && negb (strict_eq compare key) then st
           else notifyChange sub st) st l
  = with_notified st (List.filter (notifies key) l).
Proof.
  revert st. induction l as [|sub l IH]; intros st; simpl.
  - unfold with_notified. rewrite app_nil_r. by destruct st.
  - rewrite IH. unfold notifies at 2, no_key, trailing.
    destruct (truthy key), (truthy (idx sub (length sub - 1))),
      (strict_eq (idx sub (length sub - 1)) key); simpl; try done;
      unfold with_notified, notifyChange; simpl; by rewrite <- app_assoc.
Qed.

Lemma index_ok_new : index_ok createSubscriptionManager.
Proof.
  split; [split|]; simpl.
  - intros g1 g2 a. by rewrite lookup_empty.
  - intros g a. by rewrite lookup_empty.
  - intros m sub. unfold get_subs. simpl. rewrite lookup_empty. simpl.
    by intros ?%elem_of_nil.
Qed.

(** Removing subscriptions keeps the index complete. *)
Lemma index_ok_shrink st st' :
  groupToManagers st' = groupToManagers st → arrays st' = arrays st →
  (∀ m, get_subs m st' ⊆ get_subs m st) →
  index_ok st → index_ok st'.
Proof.
  intros Hg Ha Hsub [[Hi Hd] Hc]. split; [split|].
  - rewrite Hg. apply Hi.
  - rewrite Hg, Ha. apply Hd.
  - intros m sub Hin Hnan. destruct (Hc m sub (Hsub _ _ Hin) Hnan) as (a & ms & ? & ? & ?).
    exists a, ms. by rewrite Hg, Ha.
Qed.

Lemma addToGroup_registers group m st :
  index_wf st →
  index_wf (addToGroup group m st)
  ∧ registered (addToGroup group m st) group m
  ∧ (∀ g' m', registered st g' m' → registered (addToGroup group m st) g' m').
Proof.
  intros [Hi Hd]. unfold addToGroup.
  destruct (groupToManagers st !! group) as [a|] eqn:Hg.
  - destruct (Hd _ _ Hg) as [ms Hms]. rewrite Hms. simpl.
    case_bool_decide as Hin.
    + split; [by split|]. split; [by exists a, ms|done].
    + split; [split|split]; simpl.
      * apply Hi.
      * intros g' a' Hg'. destruct (decide (a = a')) as [<-|Hne].
        -- by rewrite lookup_insert_eq.
        -- rewrite lookup_insert_ne by done. by eapply Hd.
      * exists a, (ms ++ [m]). simpl. rewrite lookup_insert_eq.
        split_and!; [done..|]. apply elem_of_app. right. by apply list_elem_of_singleton.
      * intros g' m' (a' & ms' & ? & Hms' & ?). simpl.
        destruct (decide (a = a')) as [<-|Hne].
        -- exists a, (ms ++ [m]). simpl. rewrite lookup_insert_eq. simplify_eq.
           split_and!; [done..|]. apply elem_of_app. by left.
        -- exists a', ms'. simpl. by rewrite lookup_insert_ne.
  - assert (Hfresh : arrays st !! fresh (dom (arrays st)) = None).
    { apply not_elem_of_dom. apply is_fresh. }
    revert Hfresh. generalize (fresh (dom (arrays st))). intros a Hfresh.
    simpl. rewrite lookup_insert_eq. simpl.
    rewrite insert_insert_eq.
    split; [split|split]; simpl.
    * intros g1 g2 a'. rewrite !lookup_insert.
      repeat case_decide; intros; simplify_eq; try done;
        try (by eapply Hi);
        match goal with
        | H : groupToManagers st !! _ = Some _ |- _ => destruct (Hd _ _ H); congruence
        end.
    * intros g' a'. rewrite !lookup_insert.
      repeat case_decide; intros; simplify_eq; try done. by eapply Hd.
    * exists a, [m]. simpl. rewrite !lookup_insert_eq.
      split_and!; [done..|]. by apply list_elem_of_singleton.
    * intros g' m' (a' & ms' & Hg' & Hms' & ?). exists a', ms'. simpl.
      rewrite lookup_insert_ne by congruence.
      rewrite lookup_insert_ne by congruence. done.
Qed.

Lemma get_subs_ext st st' m : subs_of st = subs_of st' → get_subs m st = get_subs m st'.
Proof. unfold get_subs. by intros ->. Qed.

(** The loop of [$addSubs$]. *)
Lemma addToGroup_loop this (l : list Subscriptions) st :
  index_wf st →
  let st' := foldl (λ st sub, addToGroup (idx sub 1) this st) st l in
  index_wf st'
  ∧ subs_of st' = subs_of st
  ∧ (∀ sub, sub ∈ l → registered st' (idx sub 1) this)
  ∧ (∀ g' m', registered st g' m' → registered st' g' m').
Proof.
  revert st. induction l as [|sub l IH]; intros st Hwf; simpl.
  - split_and!; try done. by intros ? ?%elem_of_nil.
  - destruct (addToGroup_registers (idx sub 1) this st Hwf) as (Hwf1 & Hreg & Hmono).
    destruct (IH _ Hwf1) as (Hwf' & Hsubs & Hall & Hmono').
    split_and!; try done.
    + by rewrite Hsubs, subs_of_addToGroup.
    + intros sub' [->|Hin]%elem_of_cons; [by apply Hmono'|by apply Hall].
    + intros g' m' Hr. by apply Hmono', Hmono.
Qed.

Lemma index_ok_addSubs this subs st : index_ok st → index_ok (addSubs this subs st).
Proof.
  intros [Hwf Hc]. unfold addSubs.
  set (st1 := set_subs this (get_subs this st ++ subs) st).
  destruct (addToGroup_loop this (get_subs this st1) st1) as (Hwf' & Hsubs & Hall & Hmono);
    [done|].
  split; [done|].
  intros m sub Hin Hnan. rewrite (get_subs_ext _ _ m Hsubs) in Hin.
  destruct (decide (this = m)) as [<-|Hne].
  - by apply Hall.
  - apply Hmono. apply Hc; [|done]. unfold st1 in Hin.
    by rewrite get_subs_set_subs, decide_False in Hin.
Qed.

Lemma index_ok_createManager initialMap st :
  index_ok st → index_ok (createManager initialMap st).2.
Proof.
  intros Hok. unfold createManager. simpl.
  generalize (fresh (dom (subs_of st))). intros this.
  assert (Hok1 : index_ok (set_subs this [] st)).
  { apply (index_ok_shrink st); [done..| |done].
    intros m. rewrite get_subs_set_subs. case_decide; [|done].
    by intros ? ?%elem_of_nil. }
  destruct initialMap; [by apply index_ok_addSubs|done].
Qed.

Lemma index_ok_addSub this sub key st :
  (2 ≤ length sub)%nat → index_ok st → index_ok (addSub this sub key st).
Proof.
  intros Hlen [Hwf Hc]. unfold addSub.
  destruct (_ && _); [done|].
  set (st1 := set_subs this (get_subs this st ++ [sub ++ [key]]) st).
  destruct (addToGroup_registers (idx sub 1) this st1) as (Hwf' & Hreg & Hmono); [done|].
  split; [done|].
  intros m s Hin Hnan. rewrite get_subs_addToGroup in Hin. unfold st1 in Hin.
  rewrite get_subs_set_subs in Hin. case_decide as Hm.
  - subst m. apply elem_of_app in Hin as [Hin|Hin].
    + apply Hmono. by apply Hc.
    + apply list_elem_of_singleton in Hin as ->. rewrite idx_app_l by lia. done.
  - apply Hmono. by apply Hc.
Qed.

Lemma splice_loop_subseteq found (subs : list Subscriptions) :
  splice_loop found (length subs) 0 subs ⊆ subs.
Proof.
  rewrite splice_loop_filter by lia. rewrite take_0, drop_0. simpl.
  intros sub Hin. apply list_elem_of_In in Hin. apply List.filter_In in Hin as [Hin _].
  by apply list_elem_of_In.
Qed.

Lemma index_ok_unsubGroup this group st : index_ok st → index_ok (unsubGroup this group st).
Proof.
  apply index_ok_shrink; [done..|]. intros m. unfold unsubGroup.
  rewrite get_subs_set_subs. case_decide as Hm; [subst m|done].
  apply splice_loop_subseteq.
Qed.

Lemma unsubEntry_shrink this entry st :
  groupToManagers (unsubEntry this entry st) = groupToManagers st
  ∧ arrays (unsubEntry this entry st) = arrays st
  ∧ ∀ m, get_subs m (unsubEntry this entry st) ⊆ get_subs m st.
Proof.
  unfold unsubEntry.
  repeat (destruct (_ || _)); split_and!; try done;
    intros m; rewrite get_subs_set_subs; (case_decide as Hm; [subst m|done]);
    apply splice_loop_subseteq.
Qed.

Lemma index_ok_unsubEntry this entry st : index_ok st → index_ok (unsubEntry this entry st).
Proof.
  destruct (unsubEntry_shrink this entry st) as (? & ? & ?). by apply index_ok_shrink.
Qed.

Lemma index_ok_with_notified st calls : index_ok st → index_ok (with_notified st calls).
Proof. by apply index_ok_shrink. Qed.

Lemma index_ok_clearSignal signal st : index_ok st → index_ok (clearSignal signal st).
Proof.
  unfold clearSignal. destruct (groupToManagers st !! idx signal 1) as [a|]; [|done].
  generalize (default [] (arrays st !! a)). intros ms. revert st.
  induction ms as [|m ms IH]; intros st Hok; simpl; [done|].
  apply IH. by apply index_ok_unsubEntry.
Qed.

(** The loop of [$clearSub$]. *)
Lemma unsubGroup_loop group (ms : list manager) st :
  let st' := foldl (λ st manager, unsubGroup manager group st) st ms in
  groupToManagers st' = groupToManagers st
  ∧ arrays st' = arrays st
  ∧ notified st' = notified st
  ∧ ∀ m, get_subs m st'
         = if decide (m ∈ ms)
           then List.filter (λ sub, negb (strict_eq (idx sub 1) group)) (get_subs m st)
           else get_subs m st.
Proof.
  revert st. induction ms as [|m0 ms IH]; intros st; simpl.
  - by split_and!.
  - destruct (IH (unsubGroup m0 group st)) as (Hg & Ha & Hn & Hs).
    split_and!; try done.
    intros m. rewrite Hs.
    destruct (decide (m = m0)) as [->|Hne].
    + rewrite unsubGroup_filter. rewrite (decide_True (P := m0 ∈ m0 :: ms)) by left.
      case_decide; [|done].
      set (f := λ sub, negb (strict_eq (idx sub 1) group)).
      clear. induction (get_subs m0 st) as [|x l IHl]; simpl; [done|].
      destruct (f x) eqn:Hf; simpl; rewrite ?Hf; by rewrite IHl.
    + assert (Hsame : get_subs m (unsubGroup m0 group st) = get_subs m st).
      { unfold unsubGroup. by rewrite get_subs_set_subs, decide_False. }
      rewrite Hsame.
      destruct (decide (m ∈ ms)) as [Hin|Hnin].
      * by rewrite decide_True by (by right).
      * rewrite decide_False; [done|]. by intros [?|?]%elem_of_cons.
Qed.

Lemma filter_id_Forall {A} (f : A → bool) (l : list A) :
  (∀ x, x ∈ l → f x = true) → List.filter f l = l.
Proof.
  induction l as [|x l IH]; simpl; intros H; [done|].
  rewrite (H x) by left. f_equal. apply IH. intros y Hy. apply H. by right.
Qed.

(** What [$clearSub$] does to a container whose [Map] is in order. *)
Lemma clearSub_spec (group : jsvalue) (st : Container) :
  index_ok st → group ≠ VNum NaN →
  let st' := clearSub group st in
  (∀ m, get_subs m st'
        = List.filter (λ sub, negb (strict_eq (idx sub 1) group)) (get_subs m st))
  ∧ groupToManagers st' = delete group (groupToManagers st)
  ∧ (∀ a, groupToManagers st !! group = Some a → arrays st' = <[a := []]> (arrays st))
  ∧ (groupToManagers st !! group = None → arrays st' = arrays st)
  ∧ notified st' = notified st.
Proof.
  intros [[Hi Hd] Hc] Hnan st'.
  assert (Hnone : ∀ m, ¬ registered st group m →
            List.filter (λ sub, negb (strict_eq (idx sub 1) group)) (get_subs m st)
            = get_subs m st).
  { intros m Hnr. apply filter_id_Forall. intros sub Hin.
    destruct (strict_eq (idx sub 1) group) eqn:He; [|done].
    apply strict_eq_eq in He. destruct Hnr. rewrite <- He. apply Hc; [done|congruence]. }
  subst st'. unfold clearSub.
  destruct (groupToManagers st !! group) as [a|] eqn:Hg.
  - destruct (Hd _ _ Hg) as [ms Hms]. rewrite Hms. simpl.
    destruct (unsubGroup_loop group ms st) as (Hg' & Ha' & Hn' & Hs').
    split_and!; simpl.
    + intros m. unfold get_subs at 1. simpl. fold (get_subs m
        (foldl (λ st manager, unsubGroup manager group st) st ms)).
      rewrite Hs'. case_decide as Hin; [done|].
      symmetry. apply Hnone. intros (a' & ms' & ? & ? & ?). by simplify_eq.
    + by rewrite Hg'.
    + intros a' [= <-]. by rewrite Ha'.
    + done.
    + done.
  - split_and!; try done.
    + intros m. symmetry. apply Hnone. intros (a' & ms' & ? & ? & ?). congruence.
    + symmetry. by apply delete_id.
Qed.

Lemma index_ok_clearSub group st : index_ok st → index_ok (clearSub group st).
Proof.
  intros Hok. destruct (decide (group = VNum NaN)) as [->|Hnan].
  - (* the subscriptions of a NaN group are not in the index's care *)
    destruct Hok as [[Hi Hd] Hc]. unfold clearSub.
    destruct (groupToManagers st !! VNum NaN) as [a|] eqn:Hg; [|done].
    destruct (unsubGroup_loop (VNum NaN) (default [] (arrays st !! a)) st)
      as (Hg' & Ha' & Hn' & Hs').
    set (st1 := foldl _ st _) in *.
    assert (Hsame : ∀ m, get_subs m st1 = get_subs m st).
    { intros m. rewrite Hs'. case_decide; [|done]. apply filter_id_Forall.
      intros sub _. by destruct (idx sub 1) as [| |?|[|?]|?|?|?|?]. }
    split; [split|]; simpl.
    + rewrite Hg'. intros g1 g2 a'. rewrite !lookup_delete.
      repeat case_decide; try done. apply Hi.
    + rewrite Hg', Ha'. intros g a'. rewrite lookup_delete. case_decide; [done|].
      intros Hga. rewrite lookup_insert. case_decide; [done|]. by eapply Hd.
    + intros m sub Hin Hn. unfold get_subs in Hin. simpl in Hin.
      fold (get_subs m st1) in Hin. rewrite Hsame in Hin.
      destruct (Hc m sub Hin Hn) as (a' & ms' & Hga & Hms & Hm).
      exists a', ms'. simpl. rewrite Hg', Ha'.
      rewrite lookup_delete_ne by congruence.
      rewrite lookup_insert_ne; [done|]. intros ->. apply Hn.
      symmetry. by eapply Hi.
  - destruct (clearSub_spec group st Hok Hnan) as (Hs & Hg & Ha1 & Ha2 & _).
    destruct Hok as [[Hi Hd] Hc].
    split; [split|].
    + rewrite Hg. intros g1 g2 a'. rewrite !lookup_delete.
      repeat case_decide; try done. apply Hi.
    + rewrite Hg. intros g a'. rewrite lookup_delete. case_decide; [done|].
      intros Hga. destruct (groupToManagers st !! group) as [a|] eqn:Hgr.
      * rewrite (Ha1 a eq_refl), lookup_insert. case_decide; [done|]. by eapply Hd.
      * rewrite Ha2 by done. by eapply Hd.
    + intros m sub Hin Hn. rewrite Hs in Hin.
      apply list_elem_of_In, List.filter_In in Hin as [Hin Hf].
      apply list_elem_of_In in Hin.
      destruct (Hc m sub Hin Hn) as (a' & ms' & Hga & Hms & Hm).
      assert (Hne : idx sub 1 ≠ group).
      { intros Heq. rewrite Heq, strict_eq_refl in Hf; done. }
      exists a', ms'. rewrite Hg, lookup_delete_ne by done.
      split; [done|]. split; [|done].
      destruct (groupToManagers st !! group) as [a|] eqn:Hgr.
      * rewrite (Ha1 a eq_refl). rewrite lookup_insert_ne; [done|]. intros ->.
        apply Hne. by eapply Hi.
      * by rewrite Ha2.
Qed.

(** Every container the operations can produce has its [Map] in order. *)
Lemma reachable_index_ok st : reachable st → index_ok st.
Proof.
  induction 1.
  - apply index_ok_new.
  - by apply index_ok_createManager.
  - by apply index_ok_addSubs.
  - by apply index_ok_addSub.
  - by apply index_ok_unsubGroup.
  - by apply index_ok_unsubEntry.
  - unfold notifySubs. rewrite notify_loop. by apply index_ok_with_notified.
  - by apply index_ok_clearSub.
  - by apply index_ok_clearSignal.
Qed.

(** C2 as stated fails on a collection that holds the subscription twice
    already: [$addSubs$] stores what it is given, and after two calls of
    [$addSub$] for the same group and key the collection still holds two
    subscriptions of that group and key, not exactly one. *)
Lemma addSub_dedup_counterexample :
  let edge := [VNum (Int 0); VObj 5; VStr (lit "k1")] in
  let st := addSubs 1 [edge; edge] createSubscriptionManager in
  let st' := addSub 1 [VNum (Int 0); VObj 5] (VStr (lit "k1"))
               (addSub 1 [VNum (Int 0); VObj 5] (VStr (lit "k1")) st) in
  reachable st
  ∧ is_A edge
  ∧ get_subs 1 st' = [edge; edge]
  ∧ length (List.filter (same_A (VObj 5) (VStr (lit "k1"))) (get_subs 1 st')) = 2%nat.
Proof.
  split_and!.
  - apply reach_addSubs, reach_new.
  - constructor. right. by eexists.
  - reflexivity.
  - reflexivity.
Qed.

(** C2, at a collection that holds the subscription already: the subscriber
    [[0, host5]] with the key ["k1"] is stored in the first manager, and is
    then added twice more. *)
Lemma addSub_dedup_witness :
  let sub := [VNum (Int 0); VObj 5] in
  let key := VStr (lit "k1") in
  let st := addSub 1 sub key createSubscriptionManager in
  key_type key
  ∧ get_subs 1 st = [[VNum (Int 0); VObj 5; VStr (lit "k1")]]
  ∧ (length (List.filter (same_A (VObj 5) key) (get_subs 1 st)) ≤ 1)%nat
  ∧ addSub 1 sub key (addSub 1 sub key st) = addSub 1 sub key st
  ∧ length (List.filter (same_A (VObj 5) key) (get_subs 1 (addSub 1 sub key st))) = 1%nat.
Proof.
  intros sub key st.
  assert (Hk : key_type key) by (right; by eexists).
  assert (Hle : (length (List.filter (same_A (VObj 5) key) (get_subs 1 st)) ≤ 1)%nat).
  { vm_compute. lia. }
  split; [exact Hk|]. split; [reflexivity|]. split; [exact Hle|].
  destruct (addSub_dedup 1 key st Hk) as [HA _].
  destruct (HA 5%positive) as (Hnoop & _ & Hone).
  split; [exact Hnoop|exact (Hone Hle)].
Defined.

(** C3 as stated fails when the key of the call is the empty string: the
    call [$notifySubs$("")] notifies a subscription stored under the key
    ["a"], although that key is present, differs from [""], and a key was
    given to the call. *)
Lemma notifySubs_empty_key_counterexample :
  let edge := [VNum (Int 0); VObj 5; VStr (lit "a")] in
  let st := addSub 1 [VNum (Int 0); VObj 5] (VStr (lit "a")) createSubscriptionManager in
  let key := VStr [] in
  get_subs 1 st = [edge]
  ∧ notified (notifySubs 1 key st) = [edge]
  ∧ ¬ (trailing edge = VUndefined ∨ trailing edge = key ∨ key = VUndefined).
Proof.
  split; [reflexivity|]. split; [reflexivity|].
  intros [H|[H|H]]; discriminate H.
Qed.

(** C3, amended: [$notifySubs$(key)] calls [notifyChange] once for each
    stored subscription, in the order of [$subs$], whose trailing key is
    falsy (missing or the empty string), or equals [key], or when [key] is
    falsy (missing or the empty string), and for no other subscription; it
    changes nothing else in the container. *)
Theorem notifySubs_calls (this : manager) (key : jsvalue) (st : Container) :
  notifySubs this key st
  = with_notified st (List.filter (notifies key) (get_subs this st)).
Proof. apply notify_loop. Qed.

(** C4: in a container the operations can produce, [$clearSub$(group)] leaves
    in every manager exactly the subscriptions of the other groups, in their
    order; the [Map] has no entry for the group any more and the array it
    held is empty; a later [$notifySubs$] on any manager calls [notifyChange]
    for no subscription of the group. *)
Theorem clearSub_removes_group (group : ref) (st : Container) :
  reachable st →
  let st' := clearSub (VObj group) st in
  (∀ m, get_subs m st'
        = List.filter (λ sub, negb (strict_eq (idx sub 1) (VObj group))) (get_subs m st))
  ∧ groupToManagers st' !! VObj group = None
  ∧ (∀ a, groupToManagers st !! VObj group = Some a → arrays st' !! a = Some [])
  ∧ (∀ m key, ∃ calls,
       notifySubs m key st' = with_notified st' calls
       ∧ Forall (λ sub, idx sub 1 ≠ VObj group) calls).
Proof.
  intros Hok%reachable_index_ok st'.
  destruct (clearSub_spec (VObj group) st Hok) as (Hs & Hg & Ha & _ & _); [done|].
  fold st' in Hs, Hg, Ha. split_and!.
  - done.
  - rewrite Hg. apply lookup_delete_eq.
  - intros a Hga. rewrite (Ha a Hga). apply lookup_insert_eq.
  - intros m key. eexists. split; [exact (notify_loop key (get_subs m st') st')|].
    apply Forall_forall. intros sub Hin.
    apply list_elem_of_In, List.filter_In in Hin as [Hin _].
    rewrite Hs in Hin. apply List.filter_In in Hin as [_ Hf].
    intros Heq. rewrite Heq in Hf. simpl in Hf. by rewrite Pos.eqb_refl in Hf.
Qed.

(** C4, at a concrete container: one manager subscribed for the groups 5
    and 6, then [$clearSub$] of group 5. *)
Lemma clearSub_removes_group_witness :
  let st := addSub 1 [VNum (Int 3); VObj 6; VObj 8; VObj 9] VUndefined
              (addSub 1 [VNum (Int 0); VObj 5] (VStr (lit "k1"))
                 createSubscriptionManager) in
  reachable st
  ∧ get_subs 1 (clearSub (VObj 5) st) = [[VNum (Int 3); VObj 6; VObj 8; VObj 9; VUndefined]]
  ∧ groupToManagers (clearSub (VObj 5) st) !! VObj 5 = None.
Proof.
  intros st.
  assert (Hr : reachable st).
  { apply reach_addSub; [simpl; lia|]. apply reach_addSub; [simpl; lia|]. apply reach_new. }
  split; [exact Hr|].
  destruct (clearSub_removes_group 5 st Hr) as (Hs & Hg & _).
  split; [|exact Hg]. rewrite Hs. reflexivity.
Defined.

(** ** The serializability verifier *)

Section VerifierFacts.

Variable heap : gmap ref object.
Variable noSerializeSet : gset ref.
Variable canSerialize : jsvalue → bool.

Local Abbreviation verify := (_verifySerializable heap noSerializeSet canSerialize).
Local Abbreviation outcome_of := (outcome (jsvalue * gset jsvalue)).

Lemma unseen_mono seen seen' : seen ⊆ seen' → unseen heap seen' ⊆ unseen heap seen.
Proof.
  unfold unseen. intros Hsub r. rewrite !elem_of_filter.
  intros [Hnew Hdom]. split; [|done]. intros Hin. apply Hnew. by apply Hsub.
Qed.

Lemma unseen_add r seen :
  r ∈ dom heap → VObj r ∉ seen →
  (size (unseen heap ({[VObj r]} ∪ seen)) < size (unseen heap seen))%nat.
Proof.
  intros Hdom Hnew. apply subset_size. split.
  - apply unseen_mono. set_solver.
  - intros Hsub. assert (Hin : r ∈ unseen heap seen) by (by apply elem_of_filter).
    apply Hsub in Hin. apply elem_of_filter in Hin as [Hin _].
    apply Hin, elem_of_union. left. by apply elem_of_singleton.
Qed.

Lemma array_elements_dom u elems :
  array_elements heap u = Some elems → ∃ r, u = VObj r ∧ r ∈ dom heap.
Proof.
  destruct u as [| | | | |r| |]; try done. unfold array_elements, object_at.
  intros H. exists r. split; [done|]. apply elem_of_dom.
  destruct (heap !! r); [done|discriminate H].
Qed.

Lemma isSerializableObject_dom u :
  isSerializableObject heap u = true → ∃ r, u = VObj r ∧ r ∈ dom heap.
Proof.
  destruct u as [| | | | |r| |]; try done. unfold isSerializableObject, object_at.
  intros H. exists r. split; [done|]. apply elem_of_dom.
  destruct (heap !! r); [done|discriminate H].
Qed.

(** The two loops, for a nested call that settles. *)
Lemma forEach_settled (f : jsvalue → gset jsvalue → jsstring → option jsstring → outcome_of)
    (seen0 : gset jsvalue) unwrapped ctx elems i state :
  (∀ v seen c, seen0 ⊆ seen → settled v seen (f v seen c None)) →
  seen0 ⊆ state.2 →
  match forEach (check_element f unwrapped ctx) elems i state with
  | Ret (_, seen') => seen0 ⊆ seen'
  | Throw _ => True
  | Beyond | OutOfFuel => False
  end.
Proof.
  intros Hf. revert i state. induction elems as [|[v|] elems IH]; intros i [e seen] Hs; simpl.
  - done.
  - destruct (negb (i =? e)%nat); simpl; [done|].
    specialize (Hf v seen (ctx ++ lit "[" ++ nat_to_string i ++ lit "]") Hs).
    destruct (f v seen _ None) as [[v' seen']| | |]; simpl in *; try done.
    apply IH. simpl. destruct Hf as [_ Hf]. set_solver.
  - by apply IH.
Qed.

Lemma for_of_settled (f : jsvalue → gset jsvalue → jsstring → option jsstring → outcome_of)
    (seen0 : gset jsvalue) ctx l seen :
  (∀ v seen c, seen0 ⊆ seen → settled v seen (f v seen c None)) →
  seen0 ⊆ seen →
  match for_of (check_entry f ctx) l seen with
  | Ret seen' => seen0 ⊆ seen'
  | Throw _ => True
  | Beyond | OutOfFuel => False
  end.
Proof.
  intros Hf. revert seen. induction l as [|[k v] l IH]; intros seen Hs; simpl.
  - done.
  - specialize (Hf v seen (ctx ++ lit "." ++ k) Hs).
    destruct (f v seen _ None) as [[v' seen']| | |]; simpl in *; try done.
    apply IH. destruct Hf as [_ Hf]. set_solver.
Qed.

(** With more fuel than there are unseen objects, a call settles. *)
Lemma verify_settled fuel value seen ctx preMessage :
  (size (unseen heap seen) < fuel)%nat →
  settled value seen (verify fuel value seen ctx preMessage).
Proof.
  revert value seen ctx preMessage.
  induction fuel as [|fuel IH]; intros value seen ctx preMessage Hfuel; [lia|].
  simpl. set (u := unwrapProxy heap value).
  destruct (nullish u); [done|].
  destruct (shouldSerialize heap noSerializeSet u); [|done].
  case_bool_decide as Hseen; [done|].
  assert (Hgrow : seen ⊆ {[u]} ∪ seen) by set_solver.
  destruct (canSerialize u); [done|].
  assert (Hnested : ∀ r, u = VObj r → r ∈ dom heap →
            ∀ v seen' c, {[u]} ∪ seen ⊆ seen' → settled v seen' (verify fuel v seen' c None)).
  { intros r -> Hdom v seen' c Hsub. apply IH.
    pose proof (unseen_add r seen Hdom Hseen) as Hlt.
    pose proof (subseteq_size _ _ (unseen_mono _ _ Hsub)). lia. }
  destruct (typeof heap u); try done.
  destruct (isPromise heap u); [done|].
  destruct (isNode heap u); [done|].
  destruct (array_elements heap u) as [elems|] eqn:Harr.
  - destruct (array_elements_dom _ _ Harr) as (r & Hu & Hdom).
    pose proof (forEach_settled (verify fuel) ({[u]} ∪ seen) u ctx elems 0%nat
                  (0%nat, {[u]} ∪ seen) (Hnested r Hu Hdom)) as Hloop.
    destruct (forEach _ elems 0%nat _) as [[e seen']| | |]; simpl in *;
      try done; try (by apply Hloop).
    split; [done|]. etrans; [exact Hgrow|]. by apply Hloop.
  - destruct (isSerializableObject heap u) eqn:Hplain; [|done].
    destruct (isSerializableObject_dom _ Hplain) as (r & Hu & Hdom).
    pose proof (for_of_settled (verify fuel) ({[u]} ∪ seen) ctx
                  (object_entries heap u) ({[u]} ∪ seen) (Hnested r Hu Hdom)) as Hloop.
    destruct (for_of _ _ _) as [seen'| | |]; simpl in *;
      try done; try (by apply Hloop).
    split; [done|]. etrans; [exact Hgrow|]. by apply Hloop.
Qed.

(** [verifySerializable] ends: it returns its argument or throws. *)
Lemma verifySerializable_total value preMessage :
  verifySerializable heap noSerializeSet canSerialize value preMessage = Ret value
  ∨ ∃ e, verifySerializable heap noSerializeSet canSerialize value preMessage = Throw e.
Proof.
  unfold verifySerializable.
  pose proof (verify_settled (S (size heap)) value ∅ (lit "_") preMessage) as H.
  destruct (verify _ value ∅ _ _) as [[v' seen']|e| |]; simpl in *.
  - left. destruct H as [-> _]; [|done].
    rewrite <- size_dom. apply Nat.lt_succ_r, subseteq_size.
    unfold unseen. intros r. rewrite elem_of_filter. tauto.
  - right. by exists e.
  - destruct H. rewrite <- size_dom. apply Nat.lt_succ_r, subseteq_size.
    unfold unseen. intros r. rewrite elem_of_filter. tauto.
  - destruct H. rewrite <- size_dom. apply Nat.lt_succ_r, subseteq_size.
    unfold unseen. intros r. rewrite elem_of_filter. tauto.
Qed.

(** A value that [seen] holds is accepted at once. *)
Lemma verify_seen fuel value seen ctx preMessage :
  unwrapProxy heap value ∈ seen →
  verify (S fuel) value seen ctx preMessage = Ret (value, seen).
Proof.
  intros Hin. simpl.
  destruct (nullish _); [done|].
  destruct (shouldSerialize _ _ _); [|done].
  by rewrite bool_decide_eq_true_2.
Qed.

(** More fuel does not change what a call does. *)
Lemma forEach_more_fuel
    (f f' : jsvalue → gset jsvalue → jsstring → option jsstring → outcome_of)
    unwrapped ctx elems i state :
  (∀ v seen c, f v seen c None ≠ OutOfFuel → f' v seen c None = f v seen c None) →
  forEach (check_element f unwrapped ctx) elems i state ≠ OutOfFuel →
  forEach (check_element f' unwrapped ctx) elems i state
  = forEach (check_element f unwrapped ctx) elems i state.
Proof.
  intros Hf. revert i state.
  induction elems as [|[v|] elems IH]; intros i [e seen]; simpl; [done| |by apply IH].
  destruct (negb (i =? e)%nat); [done|]. simpl.
  match goal with |- context [f v seen ?c None] => specialize (Hf v seen c) end.
  destruct (f v seen _ None) as [[v' seen']| | |] eqn:Hr; simpl.
  - rewrite Hf by done. simpl. apply IH.
  - by rewrite Hf.
  - by rewrite Hf.
  - done.
Qed.

Lemma for_of_more_fuel
    (f f' : jsvalue → gset jsvalue → jsstring → option jsstring → outcome_of)
    ctx (l : list (jsstring * jsvalue)) seen :
  (∀ v seen c, f v seen c None ≠ OutOfFuel → f' v seen c None = f v seen c None) →
  for_of (check_entry f ctx) l seen ≠ OutOfFuel →
  for_of (check_entry f' ctx) l seen = for_of (check_entry f ctx) l seen.
Proof.
  intros Hf. revert seen. induction l as [|[k v] l IH]; intros seen; simpl; [done|].
  match goal with |- context [f v seen ?c None] => specialize (Hf v seen c) end.
  destruct (f v seen _ None) as [[v' seen']| | |] eqn:Hr; simpl.
  - rewrite Hf by done. simpl. apply IH.
  - by rewrite Hf.
  - by rewrite Hf.
  - done.
Qed.

Lemma verify_more_fuel fuel fuel' value seen ctx preMessage :
  (fuel ≤ fuel')%nat →
  verify fuel value seen ctx preMessage ≠ OutOfFuel →
  verify fuel' value seen ctx preMessage = verify fuel value seen ctx preMessage.
Proof.
  revert fuel' value seen ctx preMessage.
  induction fuel as [|fuel IH]; intros fuel' value seen ctx preMessage Hle; [done|].
  destruct fuel' as [|fuel']; [lia|]. simpl.
  destruct (nullish _); [done|].
  destruct (shouldSerialize _ _ _); [|done].
  case_bool_decide; [done|].
  destruct (canSerialize _); [done|].
  destruct (typeof heap _); try done.
  destruct (isPromise heap _); [done|].
  destruct (isNode heap _); [done|].
  assert (Hnested : ∀ v seen c, verify fuel v seen c None ≠ OutOfFuel →
            verify fuel' v seen c None = verify fuel v seen c None).
  { intros v s c. apply IH. lia. }
  destruct (array_elements heap _) as [elems|].
  - intros Hret. rewrite (forEach_more_fuel (verify fuel) (verify fuel')); [done..|].
    intros Hloop. by rewrite Hloop in Hret.
  - destruct (isSerializableObject heap _); [|done].
    intros Hret. rewrite (for_of_more_fuel (verify fuel) (verify fuel')); [done..|].
    intros Hloop. by rewrite Hloop in Hret.
Qed.

(** The fuel of [verifySerializable] is enough: more of it gives the same
    answer. *)
Lemma verifySerializable_fuel fuel value preMessage :
  (size heap < fuel)%nat →
  ('(value, _) ← verify fuel value ∅ (lit "_") preMessage; Ret value)
  = verifySerializable heap noSerializeSet canSerialize value preMessage.
Proof.
  intros Hfuel. unfold verifySerializable.
  rewrite (verify_more_fuel (S (size heap)) fuel); [done|lia|].
  pose proof (verify_settled (S (size heap)) value ∅ (lit "_") preMessage) as H.
  intros Hout. rewrite Hout in H. apply H.
  rewrite <- size_dom. apply Nat.lt_succ_r, subseteq_size.
  unfold unseen. intros r. rewrite elem_of_filter. tauto.
Qed.

End VerifierFacts.

Section VerifierShapes.

Variable heap : gmap ref object.
Variable noSerializeSet : gset ref.
Variable canSerialize : jsvalue → bool.

Local Abbreviation verify := (_verifySerializable heap noSerializeSet canSerialize).
Local Abbreviation outcome_of := (outcome (jsvalue * gset jsvalue)).

Lemma forEach_dense (f : jsvalue → gset jsvalue → jsstring → option jsstring → outcome_of)
    unwrapped ctx vs i seen :
  (∀ v seen c, v ∈ vs → accepted v (f v seen c None)) →
  match forEach (check_element f unwrapped ctx) (Some <$> vs) i (i, seen) with
  | Ret _ | OutOfFuel => True
  | Throw _ | Beyond => False
  end.
Proof.
  revert i seen. induction vs as [|v vs IH]; intros i seen Hf; simpl; [done|].
  rewrite Nat.eqb_refl. simpl.
  pose proof (Hf v seen (ctx ++ lit "[" ++ nat_to_string i ++ lit "]")) as Hv.
  destruct (f v seen _ None) as [[v' seen']| | |]; simpl in *; try done.
  - apply IH. intros. apply Hf. by right.
  - apply Hv. by left.
  - apply Hv. by left.
Qed.

Lemma for_of_accepted (f : jsvalue → gset jsvalue → jsstring → option jsstring → outcome_of)
    ctx (l : list (jsstring * jsvalue)) seen :
  (∀ kv seen c, kv ∈ l → accepted kv.2 (f kv.2 seen c None)) →
  match for_of (check_entry f ctx) l seen with
  | Ret _ | OutOfFuel => True
  | Throw _ | Beyond => False
  end.
Proof.
  revert seen. induction l as [|[k v] l IH]; intros seen Hf; simpl; [done|].
  pose proof (Hf (k, v) seen (ctx ++ lit "." ++ k)) as Hv. simpl in Hv.
  destruct (f v seen _ None) as [[v' seen']| | |]; simpl in *; try done.
  - apply IH. intros. apply Hf. by right.
  - apply Hv. by left.
  - apply Hv. by left.
Qed.

(** On a graph of primitives, dense arrays and plain objects no call
    throws, cycles or not. *)
Lemma verify_shaped G fuel value seen ctx preMessage :
  shapes heap G → shaped G value →
  accepted value (verify fuel value seen ctx preMessage).
Proof.
  intros HG. revert value seen ctx preMessage.
  induction fuel as [|fuel IH]; intros value seen ctx preMessage Hv; [done|].
  simpl. destruct Hv as [Hprim|(r & -> & Hr)].
  - assert (Hu : unwrapProxy heap value = value) by (by destruct value).
    rewrite Hu.
    destruct value; try done; simpl;
      (case_bool_decide; [done|]);
      by match goal with |- context [canSerialize ?v] => destruct (canSerialize v) end.
  - destruct (HG r Hr) as (o & Ho & Hcall & Htarget & Hshape).
    assert (Hobj : object_at heap r = o) by (unfold object_at; by rewrite Ho).
    assert (Hu : unwrapProxy heap (VObj r) = VObj r).
    { unfold unwrapProxy, isObject, getProxyTarget. by rewrite Hobj, Hcall, Htarget. }
    rewrite Hu. simpl.
    destruct (shouldSerialize heap noSerializeSet (VObj r)); [|done].
    case_bool_decide; [done|].
    destruct (canSerialize (VObj r)); [done|].
    unfold typeof. rewrite Hobj, Hcall.
    destruct (is_promise o); [done|].
    destruct (is_node o); [done|].
    destruct Hshape as [(vs & -> & Hvs)|(-> & -> & Hentries)].
    + pose proof (forEach_dense (verify fuel) (VObj r) ctx vs 0%nat
                    ({[VObj r]} ∪ seen)) as Hloop.
      destruct (forEach _ _ _ _) as [[e seen']| | |]; simpl; try done;
        apply Hloop; intros v s c Hin; apply IH;
        by apply (proj1 (Forall_forall _ _) Hvs).
    + pose proof (for_of_accepted (verify fuel) ctx (entries o)
                    ({[VObj r]} ∪ seen)) as Hloop.
      destruct (for_of _ _ _) as [seen'| | |]; simpl; try done;
        apply Hloop; intros kv s c Hin; apply IH;
        by apply (proj1 (Forall_forall _ _) Hentries).
Qed.

Lemma verifySerializable_shaped G value preMessage :
  shapes heap G → shaped G value →
  verifySerializable heap noSerializeSet canSerialize value preMessage = Ret value.
Proof.
  intros HG Hv.
  destruct (verifySerializable_total heap noSerializeSet canSerialize value preMessage)
    as [H|[e H]]; [done|].
  pose proof (verify_shaped G (S (size heap)) value ∅ (lit "_") preMessage HG Hv) as Hacc.
  unfold verifySerializable in H.
  destruct (verify _ value ∅ _ _) as [[v' seen']| | |]; simpl in *; done.
Qed.

Lemma acyclic_serializable_shaped value :
  acyclic_serializable heap value →
  shaped (λ r, acyclic_serializable heap (VObj r)) value.
Proof. intros H. destruct H; try (by left); right; eexists; split; try done; by econstructor. Qed.

Lemma acyclic_serializable_shapes :
  shapes heap (λ r, acyclic_serializable heap (VObj r)).
Proof.
  intros r H. inversion H as [| | |r' o vs Ho Hc Ht He Hvs|r' o Ho Hc Ht He Hp Hes]; subst.
  - exists o. split; [done|]. split_and!; [done..|]. left. exists vs. split; [done|].
    eapply Forall_impl; [exact Hvs|]. apply acyclic_serializable_shaped.
  - exists o. split; [done|]. split_and!; [done..|]. right. split_and!; [done..|].
    eapply Forall_impl; [exact Hes|]. intros kv. apply acyclic_serializable_shaped.
Qed.

(** Once an index was skipped, [forEach] stops at the next assigned
    index, before any nested call. *)
Lemma forEach_after_gap (f : jsvalue → gset jsvalue → jsstring → option jsstring → outcome_of)
    unwrapped ctx elems i e seen :
  (e < i)%nat → (∃ v, Some v ∈ elems) →
  forEach (check_element f unwrapped ctx) elems i (e, seen)
  = Throw (QError_verifySerializable unwrapped).
Proof.
  revert i. induction elems as [|[v|] elems IH]; intros i Hlt [w Hw]; simpl.
  - by apply elem_of_nil in Hw.
  - by rewrite (proj2 (Nat.eqb_neq i e)) by lia.
  - apply IH; [lia|]. apply elem_of_cons in Hw as [?|?]; [done|by exists w].
Qed.

End VerifierShapes.

(** C7: [verifySerializable] ends on every heap, cyclic or not: it returns
    its argument or throws, and the fuel of the model plays no part in that
    (more fuel gives the same answer).  A value that [seen] holds is
    returned at once, with [seen] as it was, and no nested call is made for
    it.  On a graph of primitives, dense arrays and plain objects it returns
    its argument also when the graph has cycles: no error comes from a cycle
    alone. *)
Theorem verifySerializable_cycle_safe (heap : gmap ref object) (noSerializeSet : gset ref)
    (canSerialize : jsvalue → bool) :
  (∀ value preMessage,
     verifySerializable heap noSerializeSet canSerialize value preMessage = Ret value
     ∨ ∃ e, verifySerializable heap noSerializeSet canSerialize value preMessage = Throw e)
  ∧ (∀ fuel value preMessage,
       (size heap < fuel)%nat →
       ('(value, _) ← _verifySerializable heap noSerializeSet canSerialize fuel value ∅
                        (lit "_") preMessage;
        Ret value)
       = verifySerializable heap noSerializeSet canSerialize value preMessage)
  ∧ (∀ fuel value seen ctx preMessage,
       unwrapProxy heap value ∈ seen →
       _verifySerializable heap noSerializeSet canSerialize (S fuel) value seen ctx preMessage
       = Ret (value, seen))
  ∧ (∀ G value preMessage,
       shapes heap G → shaped G value →
       verifySerializable heap noSerializeSet canSerialize value preMessage = Ret value).
Proof.
  split_and!.
  - apply verifySerializable_total.
  - apply verifySerializable_fuel.
  - apply verify_seen.
  - intros G value preMessage. apply verifySerializable_shaped.
Qed.

(** C7, on the cyclic graph [heap_cyclic], an object that holds itself and
    an array that holds the object. *)
Lemma verifySerializable_cycle_safe_witness :
  let G := λ r : ref, r = 1%positive ∨ r = 2%positive in
  shapes heap_cyclic G ∧ shaped G (VObj 1)
  ∧ verifySerializable heap_cyclic ∅ no_serializer (VObj 1) None = Ret (VObj 1).
Proof.
  intros G.
  assert (HG : shapes heap_cyclic G).
  { intros r [->| ->]; eexists; (split; [reflexivity|]); split_and!; try reflexivity.
    - right. split_and!; try reflexivity.
      apply Forall_cons. split; [by left|].
      apply Forall_cons. split; [right; eexists; split; [reflexivity|by right]|].
      apply Forall_cons. split; [right; eexists; split; [reflexivity|by left]|].
      apply Forall_nil_2.
    - left. eexists [VObj 1]. split; [reflexivity|].
      apply Forall_cons. split; [right; eexists; split; [reflexivity|by left]|].
      apply Forall_nil_2. }
  assert (Hv : shaped G (VObj 1)) by (right; eexists; split; [reflexivity|by left]).
  split; [exact HG|]. split; [exact Hv|].
  exact (proj2 (proj2 (proj2 (verifySerializable_cycle_safe heap_cyclic ∅ no_serializer)))
           G (VObj 1) None HG Hv).
Defined.

(** C8, where the code departs from it: an array whose last index was never
    assigned is accepted. *)
Lemma verifySerializable_trailing_hole :
  verifySerializable heap_trailing_hole ∅ no_serializer (VObj 1) None = Ret (VObj 1).
Proof. vm_compute. reflexivity. Qed.

(** C8, where the code agrees with it: a hole below an assigned index is
    refused with [QError_verifySerializable]. *)
Lemma verifySerializable_leading_hole :
  verifySerializable heap_leading_hole ∅ no_serializer (VObj 1) None
  = Throw (QError_verifySerializable (VObj 1)).
Proof. vm_compute. reflexivity. Qed.

(** An instance of a class is refused, and the error names the class. *)
Lemma verifySerializable_instance :
  verifySerializable heap_instance ∅ no_serializer (VObj 1) None
  = Throw (Error (lit "Value cannot be serialized because it's an instance of "
                  ++ [QUOTE] ++ lit "CustomClassInstance" ++ [QUOTE]
                  ++ lit ". You might need to use 'noSerialize()' or use an object literal instead. Check out https://qwik.builder.io/docs/advanced/dollar/")).
Proof. vm_compute. reflexivity. Qed.

(** C9: on an acyclic graph of primitives, dense arrays and plain objects
    [verifySerializable] returns its argument. *)
Theorem verifySerializable_acyclic (heap : gmap ref object) (noSerializeSet : gset ref)
    (canSerialize : jsvalue → bool) (value : jsvalue) (preMessage : option jsstring) :
  acyclic_serializable heap value →
  verifySerializable heap noSerializeSet canSerialize value preMessage = Ret value.
Proof.
  intros H. apply (verifySerializable_shaped _ _ _ (λ r, acyclic_serializable heap (VObj r))).
  - apply acyclic_serializable_shapes.
  - by apply acyclic_serializable_shaped.
Qed.

(** C9, on [{a: 1, b: [1, 2, 3]}]. *)
Lemma verifySerializable_acyclic_witness :
  acyclic_serializable heap_literal (VObj 1)
  ∧ verifySerializable heap_literal ∅ no_serializer (VObj 1) None = Ret (VObj 1).
Proof.
  assert (H : acyclic_serializable heap_literal (VObj 1)).
  { eapply ser_object; try reflexivity.
    apply Forall_cons. split; [apply ser_num|].
    apply Forall_cons. split; [|apply Forall_nil_2].
    eapply (ser_array _ _ _ [VNum (Int 1); VNum (Int 2); VNum (Int 3)]); try reflexivity.
    repeat (apply Forall_cons; split; [apply ser_num|]). apply Forall_nil_2. }
  split; [exact H|].
  exact (verifySerializable_acyclic heap_literal ∅ no_serializer (VObj 1) None H).
Defined.

(** A hole below an assigned index: [forEach] never completes. *)
Lemma forEach_gap_no_return
    (f : jsvalue → gset jsvalue → jsstring → option jsstring
         → outcome (jsvalue * gset jsvalue))
    unwrapped ctx elems i e seen :
  (e ≤ i)%nat →
  (∃ a b v, (a < b)%nat ∧ elems !! a = Some None ∧ elems !! b = Some (Some v)) →
  ∀ s, forEach (check_element f unwrapped ctx) elems i (e, seen) ≠ Ret s.
Proof.
  revert i e seen. induction elems as [|x elems IH]; intros i e seen Hle (a & b & v & Hab & Ha & Hb) s.
  - done.
  - destruct b as [|b]; [lia|]. simpl in Hb.
    destruct a as [|a]; simpl in Ha.
    + injection Ha as ->. simpl.
      rewrite forEach_after_gap; [done|lia|].
      exists v. by eapply list_elem_of_lookup_2.
    + assert (Hrest : ∃ a b v, (a < b)%nat ∧ elems !! a = Some None
                               ∧ elems !! b = Some (Some v)).
      { exists a, b, v. split; [lia|done]. }
      destruct x as [v0|]; simpl.
      * destruct (negb (i =? e)%nat); [done|]. simpl.
        destruct (f v0 seen _ None) as [[v' seen']| | |]; simpl; try done.
        apply IH; [lia|done].
      * apply IH; [lia|done].
Qed.

(** X12: An array with a hole below an assigned index is refused, unless the
    array is opted out, has a serializer, or passes for a promise or a node. *)
Lemma verifySerializable_hole_below_element (heap : gmap ref object)
    (noSerializeSet : gset ref) (canSerialize : jsvalue → bool)
    (r : ref) (o : object) (elems : list (option jsvalue)) (preMessage : option jsstring) :
  heap !! r = Some o → callable o = false → nullish (proxy_target o) = true →
  r ∉ noSerializeSet → canSerialize (VObj r) = false →
  is_promise o = false → is_node o = false →
  elements o = Some elems →
  (∃ a b v, (a < b)%nat ∧ elems !! a = Some None ∧ elems !! b = Some (Some v)) →
  ∃ e, verifySerializable heap noSerializeSet canSerialize (VObj r) preMessage = Throw e.
Proof.
  intros Ho Hcall Htarget Hns Hcan Hpromise Hnode Helems Hgap.
  destruct (verifySerializable_total heap noSerializeSet canSerialize (VObj r) preMessage)
    as [H|H]; [exfalso|done].
  revert H. unfold verifySerializable. simpl.
  assert (Hobj : object_at heap r = o) by (unfold object_at; by rewrite Ho).
  unfold unwrapProxy, isObject, getProxyTarget, shouldSerialize, isObject, isFunction,
    noSerializeSet_has, typeof, isPromise, isNode, array_elements.
  rewrite !Hobj, !Hcall, !Htarget. simpl.
  rewrite (bool_decide_eq_false_2 (r ∈ noSerializeSet)) by done. simpl.
  rewrite bool_decide_eq_false_2 by apply not_elem_of_empty.
  rewrite ?Hobj, ?Hcall, Hcan, Hpromise, Hnode, Helems.
  pose proof (forEach_gap_no_return
                (_verifySerializable heap noSerializeSet canSerialize (size heap))
                (VObj r) (lit "_") elems 0%nat 0%nat ({[VObj r]} ∪ ∅)
                (Nat.le_refl _) Hgap) as Hloop.
  destruct (forEach _ elems _ _) as [s| | |]; simpl; try done.
  by destruct (Hloop s).
Qed.

(** ** encodeURI and decodeURI *)

#[local] Ltac Zify.zify_post_hook ::= Z.to_euclidean_division_equations.

Local Open Scope N_scope.

Lemma hex_value_digit n : n < 16 → hex_value (hex_digit n) = Some n.
Proof.
  intros Hn. unfold hex_value, hex_digit.
  destruct (N.ltb_spec n 10).
  - rewrite (proj2 (N.leb_le 48 (48 + n))), (proj2 (N.leb_le (48 + n) 57)) by lia.
    simpl. f_equal. lia.
  - rewrite (proj2 (N.leb_gt (55 + n) 57)) by lia. rewrite andb_false_r.
    rewrite (proj2 (N.leb_le 65 (55 + n))), (proj2 (N.leb_le (55 + n) 70)) by lia.
    simpl. f_equal. lia.
Qed.

Lemma ParseHexOctet_escape b :
  b < 256 → ParseHexOctet (hex_digit (b / 16)) (hex_digit (b mod 16)) = Some b.
Proof.
  intros Hb. unfold ParseHexOctet.
  rewrite !hex_value_digit by lia. simpl. f_equal. lia.
Qed.

Lemma escape_octets_cons b bs rest :
  escape_octets (b :: bs) ++ rest
  = PERCENT :: hex_digit (b / 16) :: hex_digit (b mod 16) :: escape_octets bs ++ rest.
Proof. reflexivity. Qed.

Lemma continuation_escape_octets bs rest :
  Forall (λ b, b < 256) bs →
  continuation (length bs) (escape_octets bs ++ rest) = Some (bs, rest).
Proof.
  induction 1 as [|b bs Hb _ IH]; [done|].
  rewrite escape_octets_cons. cbn [length continuation]. rewrite N.eqb_refl.
  rewrite (ParseHexOctet_escape b Hb). cbn [mbind option_bind]. by rewrite IH.
Qed.

(** One round of [Decode] on an escaped ASCII character that
    [decodeURI] does not preserve. *)
Lemma Decode_escape_ascii fuel preserve b rest :
  b < 128 → preserve b = false →
  Decode (S fuel) preserve (escape_octets [b] ++ rest)
  = (b ::.) <$> Decode fuel preserve rest.
Proof.
  intros Hb Hp. rewrite escape_octets_cons. cbn [Decode]. rewrite N.eqb_refl.
  change (escape_octets [] ++ rest) with rest.
  rewrite ParseHexOctet_escape by lia. cbn [mbind option_bind].
  unfold leading_ones. rewrite (proj2 (N.ltb_lt b 128)) by done.
  cbn [Nat.eqb]. by rewrite Hp.
Qed.

(** One round of [Decode] on the escaped octets of a character beyond
    ASCII. *)
Lemma Decode_escape_multi fuel preserve b bs rest V :
  Forall (λ b, b < 256) (b :: bs) →
  leading_ones b = S (length bs) → (1 ≤ length bs ≤ 3)%nat →
  utf8_code_point (b :: bs) = Some V →
  Decode (S fuel) preserve (escape_octets (b :: bs) ++ rest)
  = (utf16 V ++.) <$> Decode fuel preserve rest.
Proof.
  intros Hall Hn Hlen HV. apply Forall_cons in Hall as [Hb Hbs].
  rewrite escape_octets_cons. cbn [Decode]. rewrite N.eqb_refl.
  rewrite ParseHexOctet_escape by done. cbn [mbind option_bind].
  rewrite Hn. cbn zeta.
  rewrite (proj2 (Nat.eqb_neq _ 0)), (proj2 (Nat.eqb_neq _ 1)),
    (proj2 (Nat.ltb_ge 4 _)) by lia.
  cbn [orb]. replace (S (length bs) - 1)%nat with (length bs) by lia.
  rewrite continuation_escape_octets by done. cbn [mbind option_bind].
  by rewrite HV.
Qed.

(** The octets of a code point beyond ASCII, as [Decode] reads them. *)
Lemma utf8_multi cp :
  128 ≤ cp → cp ≤ 1114111 → is_lead cp || is_trail cp = false →
  ∃ b bs, utf8 cp = b :: bs
          ∧ Forall (λ b, b < 256) (b :: bs)
          ∧ leading_ones b = S (length bs) ∧ (1 ≤ length bs ≤ 3)%nat
          ∧ utf8_code_point (b :: bs) = Some cp.
Proof.
  intros Hlo Hhi Hsurr. unfold utf8.
  rewrite (proj2 (N.ltb_ge cp 128)) by done.
  destruct (N.ltb_spec cp 2048); [|destruct (N.ltb_spec cp 65536)].
  - eexists _, [_]. split; [reflexivity|]. split_and!.
    + repeat (apply Forall_cons; split; [lia|]). apply Forall_nil_2.
    + unfold leading_ones.
      rewrite (proj2 (N.ltb_ge (192 + cp / 64) 128)), (proj2 (N.ltb_ge (192 + cp / 64) 192)),
        (proj2 (N.ltb_lt (192 + cp / 64) 224)) by lia. done.
    + simpl. lia.
    + simpl. lia.
    + unfold utf8_code_point, is_continuation.
      rewrite (proj2 (N.leb_le 128 (128 + cp mod 64))),
        (proj2 (N.ltb_lt (128 + cp mod 64) 192)) by lia.
      replace ((192 + cp / 64 - 192) * 64 + (128 + cp mod 64 - 128)) with cp by lia.
      by rewrite (proj2 (N.leb_le 128 cp)) by lia.
  - eexists _, [_; _]. split; [reflexivity|]. split_and!.
    + repeat (apply Forall_cons; split; [lia|]). apply Forall_nil_2.
    + unfold leading_ones.
      rewrite (proj2 (N.ltb_ge (224 + cp / 4096) 128)),
        (proj2 (N.ltb_ge (224 + cp / 4096) 192)),
        (proj2 (N.ltb_ge (224 + cp / 4096) 224)),
        (proj2 (N.ltb_lt (224 + cp / 4096) 240)) by lia. done.
    + simpl. lia.
    + simpl. lia.
    + unfold utf8_code_point, is_continuation.
      rewrite (proj2 (N.leb_le 128 (128 + cp / 64 mod 64))),
        (proj2 (N.ltb_lt (128 + cp / 64 mod 64) 192)),
        (proj2 (N.leb_le 128 (128 + cp mod 64))),
        (proj2 (N.ltb_lt (128 + cp mod 64) 192)) by lia.
      replace ((224 + cp / 4096 - 224) * 4096 + (128 + cp / 64 mod 64 - 128) * 64
               + (128 + cp mod 64 - 128)) with cp by lia.
      rewrite (proj2 (N.leb_le 2048 cp)) by lia. by rewrite Hsurr.
  - eexists _, [_; _; _]. split; [reflexivity|]. split_and!.
    + repeat (apply Forall_cons; split; [lia|]). apply Forall_nil_2.
    + unfold leading_ones.
      rewrite (proj2 (N.ltb_ge (240 + cp / 262144) 128)),
        (proj2 (N.ltb_ge (240 + cp / 262144) 192)),
        (proj2 (N.ltb_ge (240 + cp / 262144) 224)),
        (proj2 (N.ltb_ge (240 + cp / 262144) 240)),
        (proj2 (N.ltb_lt (240 + cp / 262144) 248)) by lia. done.
    + simpl. lia.
    + simpl. lia.
    + unfold utf8_code_point, is_continuation.
      rewrite (proj2 (N.leb_le 128 (128 + cp / 4096 mod 64))),
        (proj2 (N.ltb_lt (128 + cp / 4096 mod 64) 192)),
        (proj2 (N.leb_le 128 (128 + cp / 64 mod 64))),
        (proj2 (N.ltb_lt (128 + cp / 64 mod 64) 192)),
        (proj2 (N.leb_le 128 (128 + cp mod 64))),
        (proj2 (N.ltb_lt (128 + cp mod 64) 192)) by lia.
      replace ((240 + cp / 262144 - 240) * 262144 + (128 + cp / 4096 mod 64 - 128) * 4096
               + (128 + cp / 64 mod 64 - 128) * 64 + (128 + cp mod 64 - 128))
        with cp by lia.
      by rewrite (proj2 (N.leb_le 65536 cp)), (proj2 (N.leb_le cp 1114111)) by lia.
Qed.

Lemma uri_kept_not_percent c : uri_kept c = true → c ≠ PERCENT.
Proof. by intros H ->. Qed.

Lemma uri_kept_not_space c : uri_kept c = true → c ≠ SPACE.
Proof. by intros H ->. Qed.

Lemma surrogates_spec c :
  (is_lead c = true ↔ 55296 ≤ c ≤ 56319) ∧ (is_trail c = true ↔ 56320 ≤ c ≤ 57343).
Proof. unfold is_lead, is_trail. rewrite !andb_true_iff, !N.leb_le. tauto. Qed.

Lemma utf16_pair lead trail :
  is_lead lead = true → is_trail trail = true →
  let cp := pair_code_point lead trail in
  65536 ≤ cp ≤ 1114111 ∧ is_lead cp || is_trail cp = false ∧ utf16 cp = [lead; trail].
Proof.
  intros Hl%surrogates_spec Ht%surrogates_spec cp. subst cp. unfold pair_code_point.
  split; [lia|]. split.
  - apply orb_false_iff. unfold is_lead, is_trail.
    rewrite !andb_false_iff, !N.leb_gt. lia.
  - unfold utf16. rewrite (proj2 (N.ltb_ge _ 65536)) by lia. f_equal; [lia|f_equal; lia].
Qed.

(** [decodeURI] undoes [encodeURI]. *)
Lemma Decode_Encode s out fuel :
  code_units s → Encode uri_kept s = Some out → (length out ≤ fuel)%nat →
  Decode fuel uri_reserved out = Some s.
Proof.
  remember (length s) as n eqn:Hn. revert s out fuel Hn.
  induction n as [n IH] using lt_wf_ind. intros s out fuel Hn Hunits Henc Hfuel.
  destruct s as [|c rest]; simpl in Henc.
  { injection Henc as <-. by destruct fuel. }
  apply Forall_cons in Hunits as [Hc Hrest]. simpl in Hn.
  assert (Hstep : ∀ pre rest' out', rest' = rest ∨ (∃ c2, rest = c2 :: rest') →
            code_units rest' → Encode uri_kept rest' = Some out' → out = pre ++ out' →
            pre ≠ [] →
            ∃ fuel', fuel = S fuel' ∧ Decode fuel' uri_reserved out' = Some rest').
  { intros pre rest' out' Hr Hu He -> Hpre. destruct fuel as [|fuel'].
    - rewrite length_app in Hfuel. destruct pre; [done|simpl in Hfuel; lia].
    - exists fuel'. split; [done|]. eapply (IH (length rest')); try done.
      + destruct Hr as [->|[c2 ->]]; simpl in *; lia.
      + rewrite length_app in Hfuel. destruct pre; [done|simpl in Hfuel; lia]. }
  destruct (uri_kept c) eqn:Hkept.
  - destruct (Encode uri_kept rest) as [out'|] eqn:He; [|done]. injection Henc as <-.
    destruct (Hstep [c] rest out') as (fuel' & -> & Hdec); try done; [by left|].
    cbn [Decode]. rewrite (proj2 (N.eqb_neq c PERCENT)) by (by apply uri_kept_not_percent).
    by rewrite Hdec.
  - assert (Hres : uri_reserved c = false).
    { unfold uri_kept in Hkept. by apply orb_false_iff in Hkept as [? _]. }
    destruct (is_trail c) eqn:Htrail; [done|].
    destruct (is_lead c) eqn:Hlead.
    + destruct rest as [|c2 rest']; [done|].
      destruct (is_trail c2) eqn:Ht2; [|done].
      destruct (Encode uri_kept rest') as [out'|] eqn:He; [|done]. injection Henc as <-.
      apply Forall_cons in Hrest as [_ Hrest'].
      destruct (utf16_pair c c2 Hlead Ht2) as (Hrange & Hsurr & H16).
      destruct (utf8_multi (pair_code_point c c2)) as (b & bs & H8 & Hall & Hlo & Hlen & Hcp);
        [lia|lia|done|].
      destruct (Hstep (escape_octets (utf8 (pair_code_point c c2))) rest' out')
        as (fuel' & -> & Hdec); try done; [right; by eexists|by rewrite H8|].
      rewrite H8. rewrite (Decode_escape_multi _ _ _ _ _ _ Hall Hlo Hlen Hcp).
      by rewrite Hdec, H16.
    + destruct (Encode uri_kept rest) as [out'|] eqn:He; [|done]. injection Henc as <-.
      destruct (Hstep (escape_octets (utf8 c)) rest out') as (fuel' & -> & Hdec);
        try done; [by left| |].
      { unfold utf8. by repeat destruct (_ <? _). }
      destruct (N.ltb_spec c 128) as [Hascii|Hmulti].
      * unfold utf8. rewrite (proj2 (N.ltb_lt c 128)) by done.
        rewrite Decode_escape_ascii by done. by rewrite Hdec.
      * destruct (utf8_multi c) as (b & bs & H8 & Hall & Hlo & Hlen & Hcp);
          [lia|lia|by rewrite Hlead, Htrail|].
        rewrite H8. rewrite (Decode_escape_multi _ _ _ _ _ _ Hall Hlo Hlen Hcp).
        rewrite Hdec. unfold utf16. by rewrite (proj2 (N.ltb_lt c 65536)) by done.
Qed.

Lemma uri_kept_ascii c : uri_kept c = true → c < 128.
Proof.
  intros Hkept. destruct (N.ltb_spec c 128) as [|Hc]; [done|]. exfalso.
  revert Hkept. unfold uri_kept, uri_reserved, uri_unescaped, one_of. simpl.
  repeat match goal with
         | |- context [N.eqb c ?k] => rewrite (proj2 (N.eqb_neq c k)) by lia
         | |- context [N.leb c ?k] => rewrite (proj2 (N.leb_gt c k)) by lia
         end.
  by rewrite !andb_false_r.
Qed.

Lemma uri_kept_no_surrogate c : uri_kept c = true → is_lead c = false ∧ is_trail c = false.
Proof.
  intros Hc%uri_kept_ascii. unfold is_lead, is_trail.
  by rewrite !(proj2 (N.leb_gt _ c)) by lia.
Qed.

(** [encodeURI] throws on a lone surrogate only. *)
Lemma Encode_well_formed s : well_formed s = true → is_Some (Encode uri_kept s).
Proof.
  remember (length s) as n eqn:Hn. revert s Hn.
  induction n as [n IH] using lt_wf_ind. intros s Hn Hwf.
  destruct s as [|c rest]; [by eexists|]. simpl in *.
  destruct (uri_kept c) eqn:Hkept.
  - destruct (uri_kept_no_surrogate c Hkept) as [Hlead Htrail].
    rewrite Hlead, Htrail in Hwf.
    destruct (IH (length rest)) with (s := rest) as [out' He]; [lia|done..|].
    rewrite He. by eexists.
  - destruct (is_trail c); [done|].
    destruct (is_lead c).
    + destruct rest as [|c2 rest']; [done|]. apply andb_true_iff in Hwf as [Ht2 Hwf].
      destruct (IH (length rest')) with (s := rest') as [out' He]; [simpl in *; lia|done..|].
      rewrite Ht2, He. by eexists.
    + destruct (IH (length rest)) with (s := rest) as [out' He]; [lia|done..|].
      rewrite He. by eexists.
Qed.

Lemma hex_digit_not_space n : hex_digit n ≠ SPACE.
Proof. unfold hex_digit, SPACE. destruct (n <? 10); lia. Qed.

Lemma escape_octets_space_free bs : space_free (escape_octets bs).
Proof.
  unfold space_free. induction bs as [|b bs IH]; [apply not_elem_of_nil|].
  rewrite <- (app_nil_r (escape_octets (b :: bs))), escape_octets_cons, app_nil_r.
  rewrite !not_elem_of_cons. split_and!; try done; symmetry; apply hex_digit_not_space.
Qed.

(** What [encodeURI] returns is a token, and an empty one for the empty
    string only. *)
Lemma Encode_token s out :
  Encode uri_kept s = Some out → space_free out ∧ (s ≠ [] → out ≠ []).
Proof.
  remember (length s) as n eqn:Hn. revert s out Hn.
  induction n as [n IH] using lt_wf_ind. intros s out Hn Henc.
  destruct s as [|c rest]; simpl in Henc.
  { injection Henc as <-. split; [apply not_elem_of_nil|done]. }
  simpl in Hn.
  assert (Hescape : ∀ cp rest' out', (length rest' < n)%nat →
            Encode uri_kept rest' = Some out' →
            space_free (escape_octets (utf8 cp) ++ out')
            ∧ escape_octets (utf8 cp) ++ out' ≠ []).
  { intros cp rest' out' Hlen He. split.
    - unfold space_free. rewrite not_elem_of_app. split; [apply escape_octets_space_free|].
      by apply (IH (length rest') Hlen rest' out').
    - unfold utf8. by repeat destruct (_ <? _). }
  destruct (uri_kept c) eqn:Hkept.
  - destruct (Encode uri_kept rest) as [out'|] eqn:He; [|done]. injection Henc as <-.
    split; [|done]. unfold space_free. rewrite not_elem_of_cons.
    split; [symmetry; by apply uri_kept_not_space|].
    by apply (IH (length rest)) with (s := rest); [lia|..].
  - destruct (is_trail c); [done|]. destruct (is_lead c).
    + destruct rest as [|c2 rest']; [done|]. destruct (is_trail c2); [|done].
      destruct (Encode uri_kept rest') as [out'|] eqn:He; [|done]. injection Henc as <-.
      destruct (Hescape (pair_code_point c c2) rest' out') as [? ?]; [simpl in *; lia|done|].
      done.
    + destruct (Encode uri_kept rest) as [out'|] eqn:He; [|done]. injection Henc as <-.
      destruct (Hescape c rest out') as [? ?]; [lia|done|]. done.
Qed.

Lemma continuation_length n s bs rest :
  continuation n s = Some (bs, rest) → (length rest ≤ length s)%nat.
Proof.
  revert s bs rest. induction n as [|n IH]; intros s bs rest; simpl.
  - intros [= _ ->]. done.
  - destruct s as [|p [|h1 [|h2 s]]]; try done.
    destruct (N.eqb p PERCENT); [|done].
    destruct (ParseHexOctet h1 h2); [|done]. simpl.
    destruct (continuation n s) as [[bs' rest']|] eqn:Hc; [|done]. simpl.
    intros [= _ <-]. apply IH in Hc. simpl. lia.
Qed.

(** The fuel of [Decode] never runs out before the string does: with the
    length of the string as fuel, [None] is a URIError. *)
Lemma Decode_fuel preserve s fuel1 fuel2 :
  (length s ≤ fuel1)%nat → (length s ≤ fuel2)%nat →
  Decode fuel1 preserve s = Decode fuel2 preserve s.
Proof.
  remember (length s) as n eqn:Hn. revert s fuel1 fuel2 Hn.
  induction n as [n IH] using lt_wf_ind. intros s fuel1 fuel2 Hn H1 H2.
  destruct s as [|c rest]; [by destruct fuel1, fuel2|]. simpl in Hn.
  destruct fuel1 as [|fuel1]; [lia|]. destruct fuel2 as [|fuel2]; [lia|].
  cbn [Decode].
  destruct (N.eqb c PERCENT).
  - destruct rest as [|h1 [|h2 rest2]]; try done. simpl in Hn.
    destruct (ParseHexOctet h1 h2) as [B|]; [|done]. cbn [mbind option_bind].
    cbn zeta. destruct (leading_ones B =? 0)%nat.
    + rewrite (IH (length rest2)) with (fuel2 := fuel2); try done; lia.
    + destruct (_ || _); [done|].
      destruct (continuation (leading_ones B - 1) rest2) as [[bs rest3]|] eqn:Hc; [|done].
      cbn [mbind option_bind]. destruct (utf8_code_point (B :: bs)); [|done].
      cbn [mbind option_bind]. apply continuation_length in Hc.
      rewrite (IH (length rest3)) with (fuel2 := fuel2); try done; lia.
  - rewrite (IH (length rest)) with (fuel2 := fuel2); try done; lia.
Qed.

Local Close Scope N_scope.

(** ** Records and tokens *)

Lemma split_token t : space_free t → split SPACE t = [t].
Proof.
  unfold space_free. induction t as [|c t IH]; [done|].
  rewrite not_elem_of_cons. intros [Hc Ht]. simpl.
  rewrite (proj2 (N.eqb_neq c SPACE)) by done. by rewrite IH.
Qed.

Lemma split_token_space t rest :
  space_free t → split SPACE (t ++ SPACE :: rest) = t :: split SPACE rest.
Proof.
  unfold space_free. induction t as [|c t IH]; [done|].
  rewrite not_elem_of_cons. intros [Hc Ht]. simpl.
  rewrite (proj2 (N.eqb_neq c SPACE)) by done. by rewrite IH.
Qed.

(** [split] undoes [join]. *)
Lemma split_join_tokens tokens :
  tokens ≠ [] → Forall space_free tokens → split SPACE (join_tokens tokens) = tokens.
Proof.
  induction tokens as [|t tokens IH]; [done|]. intros _ [Ht Hrest]%Forall_cons.
  destruct tokens as [|t' tokens].
  - by apply split_token.
  - change (join_tokens (t :: t' :: tokens)) with (t ++ SPACE :: join_tokens (t' :: tokens)).
    rewrite split_token_space by done. by rewrite IH.
Qed.

Lemma type_token_spec (type : Z) :
  0 ≤ type ≤ 4 →
  space_free (type_token type) ∧ parseInt10 (type_token type) = Int type.
Proof.
  intros H. assert (type = 0 ∨ type = 1 ∨ type = 2 ∨ type = 3 ∨ type = 4) as Hc by lia.
  destruct Hc as [->|[->|[->|[->| ->]]]];
    (split; [|reflexivity]); by apply (bool_decide_unpack _).
Qed.

(** ** The subscription codec *)

Section CodecFacts.

Variable qDev : bool.
Variable getObjId : jsvalue → option jsstring.
Variable getObject : jsvalue → jsvalue.
Variable isSubscriberDescriptor : jsvalue → bool.
Variable get_el : jsvalue → jsvalue.

Local Abbreviation serialize := (serializeSubscription qDev getObjId).
Local Abbreviation parse :=
  (parseSubscription qDev getObject isSubscriberDescriptor get_el).

(** What [serializeSubscription] computes for each of the three shapes,
    once the host is resolved. *)
Lemma serialize_A host key id :
  getObjId (VObj host) = Some id → id ≠ [] →
  serialize [VNum (Int 0); VObj host; key]
  = append_key (join_tokens [type_token 0; id]) key.
Proof.
  intros Hid Hne. unfold serializeSubscription.
  cbn -[append_key lit]. rewrite Hid. destruct id as [|c id]; [done|].
  reflexivity.
Qed.

Lemma serialize_B type host signal elm prop key id :
  type = 1 ∨ type = 2 → getObjId (VObj host) = Some id → id ≠ [] →
  serialize [VNum (Int type); VObj host; VObj signal; VObj elm; VStr prop; key]
  = if no_id (getObjId (VObj signal)) then Ret None
    else
      elmID ← must (getObjId (VObj elm));
      append_key (join_tokens [type_token type; id;
                               default [] (getObjId (VObj signal)); elmID; prop]) key.
Proof.
  intros Htype Hid Hne. unfold serializeSubscription.
  cbn -[append_key lit]. rewrite Hid. destruct id as [|c id]; [done|].
  destruct Htype as [-> | ->]; cbn -[append_key lit];
    (destruct (getObjId (VObj signal)) as [[|c' s]|]; [done| |done]);
    (destruct (getObjId (VObj elm)) as [e|]; [|done]);
    cbn -[append_key lit]; f_equal; unfold type_token; cbn;
    by rewrite <- ?app_assoc.
Qed.

Lemma serialize_C type host signal elm key id :
  type = 3 ∨ type = 4 → getObjId (VObj host) = Some id → id ≠ [] →
  serialize [VNum (Int type); VObj host; VObj signal; elm; key]
  = if no_id (getObjId (VObj signal)) then Ret None
    else
      nodeID ← match elm with
               | VStr s => Ret s
               | o => must (getObjId o)
               end;
      append_key (join_tokens [type_token type; id;
                               default [] (getObjId (VObj signal)); nodeID]) key.
Proof.
  intros Htype Hid Hne. unfold serializeSubscription.
  cbn -[append_key lit]. rewrite Hid. destruct id as [|c id]; [done|].
  destruct Htype as [-> | ->]; cbn -[append_key lit];
    (destruct (getObjId (VObj signal)) as [[|c' s]|]; [done| |done]);
    destruct elm; cbn -[append_key lit];
    try (match goal with |- context [getObjId ?v] => destruct (getObjId v) as [e|] end;
         [|done]);
    cbn -[append_key lit]; f_equal; unfold type_token; cbn;
    by rewrite <- ?app_assoc.
Qed.

Lemma append_key_none base key :
  truthy key = false → append_key base key = Ret (Some base).
Proof. unfold append_key. by intros ->. Qed.

Lemma append_key_string tokens k out :
  k ≠ [] → Encode uri_kept k = Some out → tokens ≠ [] →
  append_key (join_tokens tokens) (VStr k) = Ret (Some (join_tokens (tokens ++ [out]))).
Proof.
  intros Hk Henc Htok. unfold append_key, encodeURI. cbn -[lit Encode].
  rewrite bool_decide_eq_false_2 by done. cbn -[lit Encode].
  rewrite Henc.
  cbn -[lit]. do 2 f_equal.
  induction tokens as [|t [|t' tokens] IH]; [done|done|].
  change (join_tokens (t :: t' :: tokens))
    with (t ++ SPACE :: join_tokens (t' :: tokens)).
  change (join_tokens ((t :: t' :: tokens) ++ [out]))
    with (t ++ SPACE :: join_tokens ((t' :: tokens) ++ [out])).
  rewrite <- IH by done. by rewrite <- app_assoc.
Qed.

(** The key of a subscription and the token it is written as, if any. *)
Lemma append_key_round_trip tokens key :
  round_trip_key key → tokens ≠ [] →
  ∃ key_token : list jsstring,
    append_key (join_tokens tokens) key = Ret (Some (join_tokens (tokens ++ key_token)))
    ∧ Forall space_free key_token
    ∧ (length key_token ≤ 1)%nat
    ∧ safeDecode (part key_token 0) = Ret key.
Proof.
  intros [->|(k & -> & Hk & Hunits & Hwf)] Htok.
  - exists []. rewrite app_nil_r. split_and!; try done. simpl. lia.
  - destruct (Encode_well_formed k Hwf) as [out Henc].
    destruct (Encode_token k out Henc) as [Hfree Hout].
    exists [out]. split_and!.
    + by apply append_key_string.
    + by apply Forall_singleton.
    + simpl. lia.
    + unfold safeDecode, decodeURI. cbn -[Decode].
      by rewrite (Decode_Encode k out (length out) Hunits Henc).
Qed.

(** What [parseSubscription] computes for a record of each of the three
    shapes; [key_token] is the token of the key, if the record has one. *)
Lemma parse_A g (key_token : list jsstring) :
  space_free g → Forall space_free key_token → (length key_token ≤ 1)%nat →
  parse (join_tokens ([type_token 0; g] ++ key_token))
  = let host := getObject (VStr g) in
    if negb (truthy host) then Ret None
    else if stale isSubscriberDescriptor get_el host then Ret None
    else key ← safeDecode (part key_token 0);
         Ret (Some [VNum (Int 0); host; key]).
Proof.
  intros Hg Hkey Hlen. unfold parseSubscription.
  destruct (type_token_spec 0) as [Hfree Hparse]; [lia|].
  revert Hfree Hparse. generalize (type_token 0). intros t Hfree Hparse.
  rewrite split_join_tokens; [|done|].
  2:{ apply Forall_app. split; [|done].
      repeat (apply Forall_cons; split; [done|]). apply Forall_nil_2. }
  destruct key_token as [|k [|k' rest]]; [| |simpl in Hlen; lia];
    destruct qDev; cbn -[safeDecode]; rewrite Hparse; cbn -[safeDecode];
    unfold stale; reflexivity.
Qed.

Lemma parse_B type g s e p (key_token : list jsstring) :
  type = 1 ∨ type = 2 →
  Forall space_free [g; s; e; p] → Forall space_free key_token →
  (length key_token ≤ 1)%nat →
  parse (join_tokens ([type_token type; g; s; e; p] ++ key_token))
  = let host := getObject (VStr g) in
    if negb (truthy host) then Ret None
    else if stale isSubscriberDescriptor get_el host then Ret None
    else key ← safeDecode (part key_token 0);
         Ret (Some [VNum (Int type); host; getObject (VStr s); getObject (VStr e);
                    VStr p; key]).
Proof.
  intros Htype Htok Hkey Hlen. unfold parseSubscription.
  destruct (type_token_spec type) as [Hfree Hparse]; [lia|].
  revert Hfree Hparse. generalize (type_token type). intros t Hfree Hparse.
  rewrite split_join_tokens; [|done|].
  2:{ apply Forall_app. split; [|done]. by apply Forall_cons. }
  destruct Htype as [-> | ->];
    (destruct key_token as [|k [|k' rest]]; [| |simpl in Hlen; lia]);
    destruct qDev; cbn -[safeDecode]; rewrite Hparse; cbn -[safeDecode];
    unfold stale; reflexivity.
Qed.

Lemma parse_C type g s e (key_token : list jsstring) :
  type = 3 ∨ type = 4 →
  Forall space_free [g; s; e] → Forall space_free key_token →
  (length key_token ≤ 1)%nat →
  parse (join_tokens ([type_token type; g; s; e] ++ key_token))
  = let host := getObject (VStr g) in
    if negb (truthy host) then Ret None
    else if stale isSubscriberDescriptor get_el host then Ret None
    else key ← safeDecode (part key_token 0);
         Ret (Some [VNum (Int type); host; getObject (VStr s); getObject (VStr e); key]).
Proof.
  intros Htype Htok Hkey Hlen. unfold parseSubscription.
  destruct (type_token_spec type) as [Hfree Hparse]; [lia|].
  revert Hfree Hparse. generalize (type_token type). intros t Hfree Hparse.
  rewrite split_join_tokens; [|done|].
  2:{ apply Forall_app. split; [|done]. by apply Forall_cons. }
  destruct Htype as [-> | ->];
    (destruct key_token as [|k [|k' rest]]; [| |simpl in Hlen; lia]);
    destruct qDev; cbn -[safeDecode]; rewrite Hparse; cbn -[safeDecode];
    unfold stale; reflexivity.
Qed.

Lemma no_id_false id : no_id id = false ↔ ∃ s, id = Some s ∧ s ≠ [].
Proof.
  destruct id as [[|c s]|]; simpl; split; try done.
  - by intros (s & [= <-] & ?).
  - intros _. by eexists.
  - by intros (s & ? & ?).
Qed.

Local Abbreviation resolvable' := (resolvable getObjId getObject).
Local Abbreviation stale' := (stale isSubscriberDescriptor get_el).
Local Abbreviation round_trips' :=
  (round_trips qDev getObjId getObject isSubscriberDescriptor get_el).

(** C1, amended: a subscription of type 0 to 4 is read back as it was
    written when its host, signal and target are objects that [getObjId]
    resolves to non-empty identifiers without space which [getObject]
    maps back, the host read back is no descriptor without [$el$], the
    property name (types 1 and 2) holds no space, and the key is missing or
    a non-empty string without lone surrogate. *)
Theorem serialize_parse_round_trip :
  (∀ host key,
     resolvable' (VObj host) → stale' (VObj host) = false → round_trip_key key →
     round_trips' [VNum (Int 0); VObj host; key])
  ∧ (∀ type host signal elm prop key,
       type = 1 ∨ type = 2 →
       resolvable' (VObj host) → resolvable' (VObj signal) → resolvable' (VObj elm) →
       stale' (VObj host) = false → space_free prop → round_trip_key key →
       round_trips' [VNum (Int type); VObj host; VObj signal; VObj elm; VStr prop; key])
  ∧ (∀ type host signal elm key,
       type = 3 ∨ type = 4 →
       resolvable' (VObj host) → resolvable' (VObj signal) → resolvable' (VObj elm) →
       stale' (VObj host) = false → round_trip_key key →
       round_trips' [VNum (Int type); VObj host; VObj signal; VObj elm; key]).
Proof.
  split_and!.
  - intros host key (id & Hid & Hne & Hfree & Hback) Hstale Hkey.
    destruct (append_key_round_trip [type_token 0; id] key Hkey)
      as (kt & Happ & Hkt & Hlen & Hdec); [done|].
    eexists. split.
    + rewrite (serialize_A host key id Hid Hne). exact Happ.
    + rewrite parse_A by done. cbn zeta. rewrite Hback. cbn [truthy negb].
      by rewrite Hstale, Hdec.
  - intros type host signal elm prop key Htype
      (id & Hid & Hne & Hfree & Hback) (ids & Hids & Hnes & Hfrees & Hbacks)
      (ide & Hide & Hnee & Hfreee & Hbacke) Hstale Hprop Hkey.
    destruct (append_key_round_trip [type_token type; id; ids; ide; prop] key Hkey)
      as (kt & Happ & Hkt & Hlen & Hdec); [done|].
    eexists. split.
    + rewrite (serialize_B type host signal elm prop key id Htype Hid Hne).
      rewrite Hids, Hide. destruct ids; [done|]. exact Happ.
    + rewrite parse_B; try done.
      * cbn zeta. rewrite Hback, Hbacks, Hbacke. cbn [truthy negb].
        by rewrite Hstale, Hdec.
      * repeat (apply Forall_cons; split; [done|]). apply Forall_nil_2.
  - intros type host signal elm key Htype
      (id & Hid & Hne & Hfree & Hback) (ids & Hids & Hnes & Hfrees & Hbacks)
      (ide & Hide & Hnee & Hfreee & Hbacke) Hstale Hkey.
    destruct (append_key_round_trip [type_token type; id; ids; ide] key Hkey)
      as (kt & Happ & Hkt & Hlen & Hdec); [done|].
    eexists. split.
    + rewrite (serialize_C type host signal (VObj elm) key id Htype Hid Hne).
      rewrite Hids, Hide. destruct ids; [done|]. exact Happ.
    + rewrite parse_C; try done.
      * cbn zeta. rewrite Hback, Hbacks, Hbacke. cbn [truthy negb].
        by rewrite Hstale, Hdec.
      * repeat (apply Forall_cons; split; [done|]). apply Forall_nil_2.
Qed.

(** C10: a subscription of type 0 whose key is the empty string is written
    without key token, as a record of two tokens, and that record is read
    back with the key [undefined]: not the subscription that was written. *)
Theorem empty_key_is_dropped (host : ref) (id : jsstring) :
  getObjId (VObj host) = Some id → id ≠ [] → space_free id →
  serialize [VNum (Int 0); VObj host; VStr []]
  = Ret (Some (join_tokens [type_token 0; id]))
  ∧ split SPACE (join_tokens [type_token 0; id]) = [type_token 0; id]
  ∧ (getObject (VStr id) = VObj host → stale' (VObj host) = false →
     parse (join_tokens [type_token 0; id])
     = Ret (Some [VNum (Int 0); VObj host; VUndefined]))
  ∧ [VNum (Int 0); VObj host; VUndefined] ≠ [VNum (Int 0); VObj host; VStr []].
Proof.
  intros Hid Hne Hfree. split_and!.
  - rewrite (serialize_A host _ id Hid Hne). by apply append_key_none.
  - apply split_join_tokens; [done|].
    repeat (apply Forall_cons; split; [try done|]); [|apply Forall_nil_2].
    by apply (type_token_spec 0).
  - intros Hback Hstale.
    rewrite <- (app_nil_r [type_token 0; id]), parse_A; [|done|done|simpl; lia].
    cbn zeta. rewrite Hback. cbn [truthy negb]. by rewrite Hstale.
  - done.
Qed.

Lemma serialize_no_host sub :
  (∃ host, idx sub 1 = VObj host) → no_id (getObjId (idx sub 1)) = true →
  serialize sub = Ret None.
Proof.
  intros [host Hhost] Hno. unfold serializeSubscription.
  rewrite Hhost in *. by rewrite Hno.
Qed.


(** C6, amended: a well-formed record whose group identifier [getObject]
    does not find is dropped; a record whose group is found is never
    dropped for its signal or its target: the subscription returned holds
    whatever [getObject] gave for them, [undefined] included. *)
Theorem parseSubscription_unresolved :
  (∀ tokens, record_tokens tokens →
     truthy (getObject (part tokens 1)) = false →
     parse (join_tokens tokens) = Ret None)
  ∧ (∀ type g s e p key_token,
       type = 1 ∨ type = 2 → Forall space_free [g; s; e; p] →
       Forall space_free key_token → (length key_token ≤ 1)%nat →
       truthy (getObject (VStr g)) = true → stale' (getObject (VStr g)) = false →
       parse (join_tokens ([type_token type; g; s; e; p] ++ key_token))
       = key ← safeDecode (part key_token 0);
         Ret (Some [VNum (Int type); getObject (VStr g); getObject (VStr s);
                    getObject (VStr e); VStr p; key]))
  ∧ (∀ type g s e key_token,
       type = 3 ∨ type = 4 → Forall space_free [g; s; e] →
       Forall space_free key_token → (length key_token ≤ 1)%nat →
       truthy (getObject (VStr g)) = true → stale' (getObject (VStr g)) = false →
       parse (join_tokens ([type_token type; g; s; e] ++ key_token))
       = key ← safeDecode (part key_token 0);
         Ret (Some [VNum (Int type); getObject (VStr g); getObject (VStr s);
                    getObject (VStr e); key])).
Proof.
  split_and!.
  - intros tokens [Hfree (type & g & rest & -> & Hshape)] Hhost.
    cbn [part lookup list_lookup from_option] in Hhost.
    apply Forall_cons in Hfree as [_ [Hg Hrest]%Forall_cons].
    destruct Hshape as [[-> Hlen]|[[Htype Hlen]|[Htype Hlen]]].
    + change (type_token 0 :: g :: rest) with ([type_token 0; g] ++ rest).
      rewrite parse_A by done. cbn zeta. by rewrite Hhost.
    + destruct rest as [|s [|e [|p kt]]]; try (simpl in Hlen; lia).
      apply Forall_cons in Hrest as [Hs [He [Hp Hkt]%Forall_cons]%Forall_cons].
      change (type_token type :: g :: s :: e :: p :: kt)
        with ([type_token type; g; s; e; p] ++ kt).
      rewrite parse_B; try done.
      * cbn zeta. by rewrite Hhost.
      * repeat (apply Forall_cons; split; [done|]). apply Forall_nil_2.
      * simpl in Hlen. lia.
    + destruct rest as [|s [|e kt]]; try (simpl in Hlen; lia).
      apply Forall_cons in Hrest as [Hs [He Hkt]%Forall_cons].
      change (type_token type :: g :: s :: e :: kt)
        with ([type_token type; g; s; e] ++ kt).
      rewrite parse_C; try done.
      * cbn zeta. by rewrite Hhost.
      * repeat (apply Forall_cons; split; [done|]). apply Forall_nil_2.
      * simpl in Hlen. lia.
  - intros type g s e p kt Htype Htok Hkt Hlen Hhost Hstale.
    rewrite parse_B by done. cbn zeta. by rewrite Hhost, Hstale.
  - intros type g s e kt Htype Htok Hkt Hlen Hhost Hstale.
    rewrite parse_C by done. cbn zeta. by rewrite Hhost, Hstale.
Qed.

End CodecFacts.

(** The sample resolvers resolve the objects 1, 2 and 3. *)
Lemma sample_resolvable (r : ref) :
  r = 1%positive ∨ r = 2%positive ∨ r = 3%positive →
  resolvable sample_getObjId sample_getObject (VObj r).
Proof.
  intros [->|[->| ->]]; eexists; (split; [reflexivity|]);
    (split; [discriminate|]); (split; [|reflexivity]);
    (apply (bool_decide_unpack _); exact I).
Defined.

(** C1 as stated fails on a key that is the empty string: the subscription
    [[0, host, ""]] is written as ["0 12"] and read back as
    [[0, host, undefined]]. *)
Lemma round_trip_empty_key_counterexample :
  let sub := [VNum (Int 0); VObj 1; VStr []] in
  is_A sub
  ∧ resolvable sample_getObjId sample_getObject (VObj 1)
  ∧ serializeSubscription true sample_getObjId sub = Ret (Some (lit "0 12"))
  ∧ parseSubscription true sample_getObject no_descriptor no_el (lit "0 12")
    = Ret (Some [VNum (Int 0); VObj 1; VUndefined])
  ∧ [VNum (Int 0); VObj 1; VUndefined] ≠ sub.
Proof.
  split_and!.
  - constructor. right. by eexists.
  - apply sample_resolvable. by left.
  - reflexivity.
  - reflexivity.
  - discriminate.
Qed.

(** The other reasons for the conditions of the round trip.  A target that
    is a literal string is written as it is and looked up with [getObject]
    when read back. *)
Lemma round_trip_literal_target :
  let sub := [VNum (Int 3); VObj 1; VObj 2; VStr (lit "node-42"); VUndefined] in
  serializeSubscription true sample_getObjId sub = Ret (Some (lit "3 12 s7 node-42"))
  ∧ parseSubscription true sample_getObject no_descriptor no_el (lit "3 12 s7 node-42")
    = Ret (Some [VNum (Int 3); VObj 1; VObj 2; VUndefined; VUndefined]).
Proof. split; reflexivity. Qed.

(** A property name with a space is written as it is, and read back as a
    property name and a key. *)
Lemma round_trip_property_with_space :
  let sub := [VNum (Int 1); VObj 1; VObj 2; VObj 3; VStr (lit "a b"); VUndefined] in
  serializeSubscription true sample_getObjId sub = Ret (Some (lit "1 12 s7 #3 a b"))
  ∧ parseSubscription true sample_getObject no_descriptor no_el (lit "1 12 s7 #3 a b")
    = Ret (Some [VNum (Int 1); VObj 1; VObj 2; VObj 3; VStr (lit "a"); VStr (lit "b")]).
Proof. split; reflexivity. Qed.

(** A key with a lone surrogate makes [encodeURI] throw. *)
Lemma serialize_lone_surrogate :
  serializeSubscription true sample_getObjId [VNum (Int 0); VObj 1; VStr [55357%N]]
  = Throw URIError.
Proof. reflexivity. Qed.

(** C1 on the subscription [(0, hostA, "k1")] of the specification: it is
    written as ["0 12 k1"] and read back as it was. *)
Lemma serialize_parse_round_trip_witness :
  resolvable sample_getObjId sample_getObject (VObj 1)
  ∧ stale no_descriptor no_el (VObj 1) = false
  ∧ round_trip_key (VStr (lit "k1"))
  ∧ round_trips true sample_getObjId sample_getObject no_descriptor no_el
      [VNum (Int 0); VObj 1; VStr (lit "k1")].
Proof.
  assert (Hr : resolvable sample_getObjId sample_getObject (VObj 1))
    by (apply sample_resolvable; by left).
  assert (Hk : round_trip_key (VStr (lit "k1"))).
  { right. eexists. split; [reflexivity|]. split; [discriminate|].
    split; [|reflexivity]. repeat (apply Forall_cons_2; [reflexivity|]). apply Forall_nil_2. }
  split; [exact Hr|]. split; [reflexivity|]. split; [exact Hk|].
  exact (proj1 (serialize_parse_round_trip true sample_getObjId sample_getObject
                  no_descriptor no_el) 1%positive (VStr (lit "k1")) Hr eq_refl Hk).
Defined.

(** The record of that subscription. *)
Lemma serialize_scenario :
  serializeSubscription true sample_getObjId [VNum (Int 0); VObj 1; VStr (lit "k1")]
  = Ret (Some (lit "0 12 k1"))
  ∧ parseSubscription true sample_getObject no_descriptor no_el (lit "0 12 k1")
    = Ret (Some [VNum (Int 0); VObj 1; VStr (lit "k1")]).
Proof. split; reflexivity. Qed.

(** C10 on the host with the identifier ["12"]. *)
Lemma empty_key_is_dropped_witness :
  sample_getObjId (VObj 1) = Some (lit "12") ∧ lit "12" ≠ [] ∧ space_free (lit "12")
  ∧ serializeSubscription true sample_getObjId [VNum (Int 0); VObj 1; VStr []]
    = Ret (Some (lit "0 12")).
Proof.
  assert (Hfree : space_free (lit "12")) by (apply (bool_decide_unpack _); exact I).
  assert (Hne : lit "12" ≠ []) by discriminate.
  split; [reflexivity|]. split; [exact Hne|]. split; [exact Hfree|].
  exact (proj1 (empty_key_is_dropped true sample_getObjId sample_getObject no_descriptor
                  no_el 1%positive (lit "12") eq_refl Hne Hfree)).
Defined.



(** C6 as stated fails when the signal is the identifier that is not found:
    the subscription is returned, with [undefined] for its signal. *)
Lemma parseSubscription_signal_counterexample :
  record_tokens [lit "1"; lit "12"; lit "zz"; lit "#3"; lit "class"]
  ∧ sample_getObject (VStr (lit "zz")) = VUndefined
  ∧ parseSubscription true sample_getObject no_descriptor no_el (lit "1 12 zz #3 class")
    = Ret (Some [VNum (Int 1); VObj 1; VUndefined; VObj 3; VStr (lit "class"); VUndefined])
  ∧ parseSubscription true sample_getObject no_descriptor no_el (lit "1 12 zz #3 class")
    ≠ Ret None.
Proof.
  split_and!.
  - split.
    + repeat (apply Forall_cons_2; [(apply (bool_decide_unpack _); exact I)|]). apply Forall_nil_2.
    + exists 1, (lit "12"), [lit "zz"; lit "#3"; lit "class"]. split; [reflexivity|].
      right. left. split; [by left|by left].
  - reflexivity.
  - reflexivity.
  - discriminate.
Qed.

(** C6 on a record whose group is not found. *)
Lemma parseSubscription_unresolved_witness :
  record_tokens [lit "0"; lit "99"]
  ∧ truthy (sample_getObject (part [lit "0"; lit "99"] 1)) = false
  ∧ parseSubscription true sample_getObject no_descriptor no_el (lit "0 99") = Ret None.
Proof.
  assert (Hrec : record_tokens [lit "0"; lit "99"]).
  { split.
    - repeat (apply Forall_cons_2; [(apply (bool_decide_unpack _); exact I)|]). apply Forall_nil_2.
    - exists 0, (lit "99"), []. split; [reflexivity|]. left. split; [reflexivity|].
      apply le_S, le_n. }
  split; [exact Hrec|]. split; [reflexivity|].
  exact (proj1 (parseSubscription_unresolved true sample_getObject no_descriptor no_el)
           [lit "0"; lit "99"] Hrec eq_refl).
Defined.

(** ** More on the subscription managers *)

(** X1: [$unsubGroup$(group)]: the loop that splices and steps back removes
    from [$subs$] exactly the subscriptions whose group is [===] to [group],
    and keeps the others in their order; nothing else changes, the [Map]
    included. *)
Theorem unsubGroup_removes (this : manager) (group : jsvalue) (st : Container) :
  let st' := unsubGroup this group st in
  get_subs this st'
  = List.filter (λ sub, negb (strict_eq (idx sub 1) group)) (get_subs this st)
  ∧ (∀ m, m ≠ this → get_subs m st' = get_subs m st)
  ∧ groupToManagers st' = groupToManagers st
  ∧ arrays st' = arrays st
  ∧ notified st' = notified st.
Proof.
  intros st'. split_and!; try done.
  - apply unsubGroup_filter.
  - intros m Hm. unfold st', unsubGroup. by rewrite get_subs_set_subs, decide_False.
Qed.

Lemma unsubEntry_filter this entry st :
  get_subs this (unsubEntry this entry st)
  = List.filter (λ sub, negb (matches entry sub)) (get_subs this st).
Proof.
  unfold unsubEntry, matches.
  destruct (_ || _).
  - rewrite get_subs_set_subs, decide_True by done.
    rewrite splice_loop_filter by lia. done.
  - destruct (_ || _).
    + rewrite get_subs_set_subs, decide_True by done.
      rewrite splice_loop_filter by lia. done.
    + symmetry. by apply filter_id_Forall.
Qed.

Lemma unsubEntry_other this entry st m :
  m ≠ this → get_subs m (unsubEntry this entry st) = get_subs m st.
Proof.
  intros Hm. unfold unsubEntry.
  repeat (destruct (_ || _)); try done; by rewrite get_subs_set_subs, decide_False.
Qed.

Lemma notified_unsubEntry this entry st : notified (unsubEntry this entry st) = notified st.
Proof. unfold unsubEntry. by repeat (destruct (_ || _)). Qed.

(** X2: [$unsubEntry$(entry)]: for an entry of type 1 or 2 the subscriptions
    with the entry's type, group, signal, element and property are removed,
    for an entry of type 3 or 4 those with its type, group, signal and
    element, whatever their key; the others keep their order. An entry of
    another type removes nothing. The [Map] is not touched. *)
Theorem unsubEntry_removes (this : manager) (entry : Subscriptions) (st : Container) :
  let st' := unsubEntry this entry st in
  get_subs this st' = List.filter (λ sub, negb (matches entry sub)) (get_subs this st)
  ∧ (∀ type, idx entry 0 = VNum (Int type) → type < 1 ∨ 4 < type → st' = st)
  ∧ (∀ m, m ≠ this → get_subs m st' = get_subs m st)
  ∧ groupToManagers st' = groupToManagers st
  ∧ arrays st' = arrays st
  ∧ notified st' = notified st.
Proof.
  intros st'. destruct (unsubEntry_shrink this entry st) as (Hg & Ha & _).
  split_and!; try done.
  - apply unsubEntry_filter.
  - intros type Htype Hrange. unfold st', unsubEntry. rewrite Htype. simpl.
    destruct Hrange;
      by rewrite !(proj2 (Z.eqb_neq _ _)) by lia.
  - intros m Hm. by apply unsubEntry_other.
  - apply notified_unsubEntry.
Qed.

Lemma filter_filter_same {A} (f : A → bool) (l : list A) :
  List.filter f (List.filter f l) = List.filter f l.
Proof.
  induction l as [|x l IH]; simpl; [done|].
  destruct (f x) eqn:Hf; simpl; rewrite ?Hf; by rewrite IH.
Qed.

(** The loop of [$clearSignal$]. *)
Lemma unsubEntry_loop entry (ms : list manager) st :
  let st' := foldl (λ st manager, unsubEntry manager entry st) st ms in
  groupToManagers st' = groupToManagers st
  ∧ arrays st' = arrays st
  ∧ notified st' = notified st
  ∧ ∀ m, get_subs m st'
         = if decide (m ∈ ms)
           then List.filter (λ sub, negb (matches entry sub)) (get_subs m st)
           else get_subs m st.
Proof.
  revert st. induction ms as [|m0 ms IH]; intros st; simpl.
  - by split_and!.
  - destruct (IH (unsubEntry m0 entry st)) as (Hg & Ha & Hn & Hs).
    destruct (unsubEntry_shrink m0 entry st) as (Hg0 & Ha0 & _).
    split_and!.
    + by rewrite Hg.
    + by rewrite Ha.
    + by rewrite Hn, notified_unsubEntry.
    + intros m. rewrite Hs.
      destruct (decide (m = m0)) as [->|Hne].
      * rewrite unsubEntry_filter. rewrite (decide_True (P := m0 ∈ m0 :: ms)) by left.
        case_decide; [|done]. apply filter_filter_same.
      * rewrite (unsubEntry_other m0 entry st m Hne).
        destruct (decide (m ∈ ms)) as [Hin|Hnin].
        -- by rewrite decide_True by (by right).
        -- rewrite decide_False; [done|]. by intros [?|?]%elem_of_cons.
Qed.

Lemma matches_group entry sub : matches entry sub = true → idx sub 1 = idx entry 1.
Proof.
  unfold matches, matches_B, matches_C.
  repeat (destruct (_ || _)); try done; intros H;
    repeat (apply andb_true_iff in H as [H ?]);
    by match goal with
       | H : strict_eq (idx sub 1) _ = true |- _ => apply strict_eq_eq in H
       end.
Qed.

(** X3: [$clearSignal$(signal)], in a container the operations can produce:
    every manager loses exactly the subscriptions that [$unsubEntry$] matches
    with [signal], whatever their key, and keeps the others in their order.
    The [Map] and its arrays stay as they were: a manager remains listed for
    the group also when it holds no subscription of it any more. *)
Theorem clearSignal_removes (signal : Subscriptions) (st : Container) :
  reachable st →
  let st' := clearSignal signal st in
  (∀ m, get_subs m st' = List.filter (λ sub, negb (matches signal sub)) (get_subs m st))
  ∧ groupToManagers st' = groupToManagers st
  ∧ arrays st' = arrays st
  ∧ notified st' = notified st.
Proof.
  intros [[Hi Hd] Hc]%reachable_index_ok st'.
  assert (Hnone : ∀ m, ¬ registered st (idx signal 1) m →
            List.filter (λ sub, negb (matches signal sub)) (get_subs m st) = get_subs m st).
  { intros m Hnr. apply filter_id_Forall. intros sub Hin.
    destruct (matches signal sub) eqn:He; [|done].
    pose proof (matches_group _ _ He) as Hg. destruct Hnr. rewrite <- Hg.
    apply Hc; [done|]. intros Hnan.
    revert He. unfold matches, matches_B, matches_C. rewrite <- Hg, Hnan. simpl.
    repeat (destruct (_ || _)); try done; by rewrite andb_false_r. }
  subst st'. unfold clearSignal.
  destruct (groupToManagers st !! idx signal 1) as [a|] eqn:Hg.
  - destruct (Hd _ _ Hg) as [ms Hms]. rewrite Hms. simpl.
    destruct (unsubEntry_loop signal ms st) as (Hg' & Ha' & Hn' & Hs').
    split_and!; try done.
    intros m. rewrite Hs'. case_decide as Hin; [done|].
    symmetry. apply Hnone. intros (a' & ms' & ? & ? & ?). by simplify_eq.
  - split_and!; try done.
    intros m. symmetry. apply Hnone. intros (a' & ms' & ? & ? & ?). congruence.
Qed.

(** [$clearSignal$] on a manager with two subscriptions of one signal that
    differ only in their key, and one of another element. *)
Lemma clearSignal_removes_witness :
  let st := addSub 1 [VNum (Int 1); VObj 5; VObj 7; VObj 9; VStr (lit "class")] VUndefined
              (addSub 1 [VNum (Int 1); VObj 5; VObj 7; VObj 8; VStr (lit "class")]
                 (VStr (lit "b"))
                 (addSub 1 [VNum (Int 1); VObj 5; VObj 7; VObj 8; VStr (lit "class")]
                    (VStr (lit "a")) createSubscriptionManager)) in
  reachable st
  ∧ get_subs 1 (clearSignal [VNum (Int 1); VObj 5; VObj 7; VObj 8; VStr (lit "class");
                             VStr (lit "a")] st)
    = [[VNum (Int 1); VObj 5; VObj 7; VObj 9; VStr (lit "class"); VUndefined]].
Proof.
  intros st.
  assert (Hr : reachable st) by (repeat (apply reach_addSub; [simpl; lia|]); apply reach_new).
  split; [exact Hr|].
  destruct (clearSignal_removes
              [VNum (Int 1); VObj 5; VObj 7; VObj 8; VStr (lit "class"); VStr (lit "a")]
              st Hr) as (Hs & _).
  rewrite Hs. reflexivity.
Defined.

(** ** What the [Map] keeps *)

Lemma addToGroup_arrays group m st :
  listed_once st → listed_once (addToGroup group m st).
Proof.
  intros Hn. unfold addToGroup.
  destruct (groupToManagers st !! group) as [a|] eqn:Hg.
  - case_bool_decide as Hin; [done|].
    intros a' ms'. simpl. rewrite lookup_insert. case_decide as Ha.
    + intros [= <-]. apply NoDup_app. split_and!.
      * destruct (arrays st !! a) as [ms|] eqn:Hms; simpl; [by eapply Hn|apply NoDup_nil_2].
      * intros x Hx ->%list_elem_of_singleton. done.
      * apply NoDup_singleton.
    + apply Hn.
  - simpl. rewrite lookup_insert_eq. simpl.
    rewrite insert_insert_eq. intros a' ms'. simpl. rewrite lookup_insert. case_decide.
    + intros [= <-]. apply NoDup_singleton.
    + apply Hn.
Qed.

Lemma addToGroup_loop_arrays this (l : list Subscriptions) st :
  listed_once st → listed_once (foldl (λ st sub, addToGroup (idx sub 1) this st) st l).
Proof.
  revert st. induction l as [|sub l IH]; intros st Hn; simpl; [done|].
  by apply IH, addToGroup_arrays.
Qed.

Lemma listed_once_ext st st' : arrays st' = arrays st → listed_once st → listed_once st'.
Proof. unfold listed_once. by intros ->. Qed.

Lemma listed_once_clearSub group st : listed_once st → listed_once (clearSub group st).
Proof.
  intros Hn. unfold clearSub.
  destruct (groupToManagers st !! group) as [a|]; [|done].
  destruct (unsubGroup_loop group (default [] (arrays st !! a)) st) as (_ & Ha & _).
  intros a' ms'. simpl. rewrite Ha, lookup_insert. case_decide.
  - intros [= <-]. apply NoDup_nil_2.
  - apply Hn.
Qed.

Lemma reachable_listed_once_aux st : reachable st → listed_once st.
Proof.
  induction 1.
  - intros a ms. simpl. by rewrite lookup_empty.
  - unfold createManager. simpl. destruct initialMap as [subs|]; [|done].
    unfold addSubs. by apply addToGroup_loop_arrays.
  - unfold addSubs. by apply addToGroup_loop_arrays.
  - unfold addSub. destruct (_ && _); [done|]. by apply addToGroup_arrays.
  - done.
  - destruct (unsubEntry_shrink this entry st) as (_ & Ha & _).
    by apply (listed_once_ext st).
  - unfold notifySubs. by rewrite notify_loop.
  - by apply listed_once_clearSub.
  - unfold clearSignal. destruct (groupToManagers st !! idx signal 1) as [a|]; [|done].
    destruct (unsubEntry_loop signal (default [] (arrays st !! a)) st) as (_ & Ha & _).
    by apply (listed_once_ext st).
Qed.

(** X4: In every container the operations can produce, a manager that holds a
    subscription is listed in the [Map] under the group of that subscription:
    [$clearSub$] and [$clearSignal$], which look the managers up there, reach
    every subscription of the group. *)
Theorem reachable_registered (st : Container) (m : manager) (sub : Subscriptions)
    (group : ref) :
  reachable st → sub ∈ get_subs m st → idx sub 1 = VObj group →
  ∃ a ms, groupToManagers st !! VObj group = Some a ∧ arrays st !! a = Some ms ∧ m ∈ ms.
Proof.
  intros [_ Hc]%reachable_index_ok Hin Hg.
  rewrite <- Hg. apply Hc; [done|]. by rewrite Hg.
Qed.

Lemma reachable_registered_witness :
  let st := addSub 2 [VNum (Int 0); VObj 5] VUndefined
              (addSub 1 [VNum (Int 0); VObj 5] (VStr (lit "k1"))
                 createSubscriptionManager) in
  reachable st
  ∧ [VNum (Int 0); VObj 5; VUndefined] ∈ get_subs 2 st
  ∧ ∃ a ms, groupToManagers st !! VObj 5 = Some a ∧ arrays st !! a = Some ms ∧ 2%positive ∈ ms.
Proof.
  intros st.
  assert (Hr : reachable st) by (repeat (apply reach_addSub; [simpl; lia|]); apply reach_new).
  assert (Hin : [VNum (Int 0); VObj 5; VUndefined] ∈ get_subs 2 st).
  { apply (bool_decide_unpack _). vm_compute. exact I. }
  split; [exact Hr|]. split; [exact Hin|].
  exact (reachable_registered st 2 _ 5 Hr Hin eq_refl).
Defined.

(** X5: In every container the operations can produce, an array of the [Map]
    lists a manager at most once, however often the manager subscribed for the
    group, two groups never share an array, and every entry of the [Map] has
    its array. *)
Theorem reachable_listed_once (st : Container) :
  reachable st →
  (∀ a ms, arrays st !! a = Some ms → NoDup ms)
  ∧ (∀ g1 g2 a,
       groupToManagers st !! g1 = Some a → groupToManagers st !! g2 = Some a → g1 = g2)
  ∧ (∀ g a, groupToManagers st !! g = Some a → is_Some (arrays st !! a)).
Proof.
  intros Hr. split; [by apply reachable_listed_once_aux|].
  by destruct (reachable_index_ok st Hr) as [[? ?] _].
Qed.

Lemma reachable_listed_once_witness :
  let st := addSub 1 [VNum (Int 3); VObj 5; VObj 8; VObj 9] VUndefined
              (addSub 1 [VNum (Int 0); VObj 5] (VStr (lit "k1"))
                 createSubscriptionManager) in
  reachable st ∧ (∀ a ms, arrays st !! a = Some ms → NoDup ms).
Proof.
  intros st.
  assert (Hr : reachable st) by (repeat (apply reach_addSub; [simpl; lia|]); apply reach_new).
  split; [exact Hr|].
  exact (proj1 (reachable_listed_once st Hr)).
Defined.

(** ** Adding subscriptions *)

Lemma addToGroup_registered group m st : registered (addToGroup group m st) group m.
Proof.
  unfold addToGroup, registered.
  destruct (groupToManagers st !! group) as [a|] eqn:Hg.
  - case_bool_decide as Hin.
    + destruct (arrays st !! a) as [ms|] eqn:Hms; simpl in Hin.
      * by exists a, ms.
      * by apply elem_of_nil in Hin.
    + eexists a, _. simpl. rewrite lookup_insert_eq. split_and!; [done..|].
      apply elem_of_app. right. by apply list_elem_of_singleton.
  - simpl. rewrite lookup_insert_eq. simpl.
    eexists _, _. simpl. rewrite !lookup_insert_eq. split_and!; [done..|].
    by apply list_elem_of_singleton.
Qed.

Lemma addToGroup_registered_mono group' m' st group m :
  registered st group m → registered (addToGroup group' m' st) group m.
Proof.
  intros (a & ms & Hg & Hms & Hm). unfold addToGroup, registered.
  destruct (groupToManagers st !! group') as [a'|] eqn:Hg'.
  - case_bool_decide as Hin; [by exists a, ms|].
    simpl. destruct (decide (a' = a)) as [->|Hne].
    + eexists a, _. rewrite lookup_insert_eq. split_and!; [done..|].
      rewrite Hms. simpl. apply elem_of_app. by left.
    + exists a, ms. by rewrite lookup_insert_ne.
  - assert (Hfresh : arrays st !! fresh (dom (arrays st)) = None).
    { apply not_elem_of_dom. apply is_fresh. }
    revert Hfresh. generalize (fresh (dom (arrays st))). intros a' Hfresh.
    simpl. rewrite lookup_insert_eq. simpl.
    exists a, ms. simpl.
    rewrite lookup_insert_ne by congruence.
    rewrite !lookup_insert_ne by congruence. done.
Qed.

Lemma addToGroup_loop_registered this (l : list Subscriptions) st :
  let st' := foldl (λ st sub, addToGroup (idx sub 1) this st) st l in
  subs_of st' = subs_of st
  ∧ notified st' = notified st
  ∧ (∀ sub, sub ∈ l → registered st' (idx sub 1) this)
  ∧ (∀ g m, registered st g m → registered st' g m).
Proof.
  revert st. induction l as [|sub l IH]; intros st; simpl.
  - split_and!; try done. by intros ? ?%elem_of_nil.
  - destruct (IH (addToGroup (idx sub 1) this st)) as (Hsubs & Hnot & Hall & Hmono).
    split_and!.
    + by rewrite Hsubs, subs_of_addToGroup.
    + by rewrite Hnot, notified_addToGroup.
    + intros sub' [->|Hin]%elem_of_cons; [|by apply Hall].
      apply Hmono, addToGroup_registered.
    + intros g m Hr. by apply Hmono, addToGroup_registered_mono.
Qed.

Lemma addSubs_spec_aux this subs st :
  get_subs this (addSubs this subs st) = get_subs this st ++ subs
  ∧ (∀ m, m ≠ this → get_subs m (addSubs this subs st) = get_subs m st)
  ∧ (∀ sub, sub ∈ get_subs this st ++ subs →
       registered (addSubs this subs st) (idx sub 1) this).
Proof.
  unfold addSubs.
  set (st1 := set_subs this (get_subs this st ++ subs) st).
  assert (Hs1 : get_subs this st1 = get_subs this st ++ subs).
  { unfold st1. by rewrite get_subs_set_subs, decide_True. }
  destruct (addToGroup_loop_registered this (get_subs this st1) st1)
    as (Hsubs & Hnot & Hall & Hmono).
  split_and!.
  - by rewrite (get_subs_ext _ _ this Hsubs).
  - intros m Hm. rewrite (get_subs_ext _ _ m Hsubs). unfold st1.
    by rewrite get_subs_set_subs, decide_False.
  - intros sub Hin. apply Hall. by rewrite Hs1.
Qed.

(** X6: [$addSubs$(subs)] appends the subscriptions as they are, duplicates
    included (only [$addSub$] looks for a subscription that is already there),
    and lists the manager in the [Map] under the group of every subscription
    it then holds, old or new. The managers listed before stay listed. *)
Theorem addSubs_appends (this : manager) (subs : list Subscriptions) (st : Container) :
  let st' := addSubs this subs st in
  get_subs this st' = get_subs this st ++ subs
  ∧ (∀ m, m ≠ this → get_subs m st' = get_subs m st)
  ∧ (∀ sub, sub ∈ get_subs this st ++ subs → registered st' (idx sub 1) this)
  ∧ (∀ g m, registered st g m → registered st' g m)
  ∧ notified st' = notified st.
Proof.
  intros st'. unfold st', addSubs.
  set (st1 := set_subs this (get_subs this st ++ subs) st).
  assert (Hs1 : get_subs this st1 = get_subs this st ++ subs).
  { unfold st1. by rewrite get_subs_set_subs, decide_True. }
  destruct (addToGroup_loop_registered this (get_subs this st1) st1)
    as (Hsubs & Hnot & Hall & Hmono).
  split_and!.
  - by rewrite (get_subs_ext _ _ this Hsubs).
  - intros m Hm. rewrite (get_subs_ext _ _ m Hsubs). unfold st1.
    by rewrite get_subs_set_subs, decide_False.
  - intros sub Hin. apply Hall. by rewrite Hs1.
  - intros g m Hr. by apply Hmono.
  - by rewrite Hnot.
Qed.

(** X7: [new LocalSubscriptionManager(map, containerState, initialMap)]: the
    new manager holds the subscriptions of [initialMap], in their order, and
    is listed in the [Map] under the group of each of them; without
    [initialMap] it holds nothing and the [Map] is as it was. The
    subscriptions of the other managers are not touched. *)
Theorem createManager_subs (initialMap : option (list Subscriptions)) (st : Container) :
  let this := (createManager initialMap st).1 in
  let st' := (createManager initialMap st).2 in
  (this ∉ dom (subs_of st))
  ∧ get_subs this st' = default [] initialMap
  ∧ (∀ m, m ≠ this → get_subs m st' = get_subs m st)
  ∧ (∀ sub, sub ∈ default [] initialMap → registered st' (idx sub 1) this)
  ∧ (initialMap = None →
     groupToManagers st' = groupToManagers st ∧ arrays st' = arrays st).
Proof.
  unfold createManager. cbn [fst snd].
  pose proof (is_fresh (dom (subs_of st))) as Hfresh.
  revert Hfresh. generalize (fresh (dom (subs_of st))). intros this Hfresh.
  assert (H0 : get_subs this (set_subs this [] st) = []).
  { by rewrite get_subs_set_subs, decide_True. }
  destruct initialMap as [subs|]; simpl.
  - destruct (addSubs_spec_aux this subs (set_subs this [] st))
      as (Hs & Ho & Hreg).
    rewrite H0 in Hs, Hreg. simpl in Hs, Hreg.
    split_and!; try done.
    intros m Hm. rewrite Ho by done. by rewrite get_subs_set_subs, decide_False.
  - split_and!; try done.
    + intros m Hm. by rewrite get_subs_set_subs, decide_False.
    + by intros ? ?%elem_of_nil.
Qed.

(** ** The array a cleared group leaves behind *)

(** X8: After [$clearSub$(group)] the array that the [Map] held for the group
    is empty and no longer in the [Map]. A subscriber added for the group
    afterwards is stored, and its manager is listed in a new array: the old
    one, which a caller of [$groupToManagers$.get] may still hold, stays
    empty. *)
Theorem clearSub_then_addSub (st : Container) (this : manager) (sub : Subscriber)
    (key : jsvalue) (group : ref) (a : array_ref) :
  reachable st → idx sub 1 = VObj group →
  groupToManagers st !! VObj group = Some a →
  let st' := addSub this sub key (clearSub (VObj group) st) in
  get_subs this st'
  = List.filter (λ s, negb (strict_eq (idx s 1) (VObj group))) (get_subs this st)
    ++ [sub ++ [key]]
  ∧ arrays st' !! a = Some []
  ∧ ∃ a', a' ≠ a ∧ groupToManagers st' !! VObj group = Some a'
          ∧ arrays st' !! a' = Some [this].
Proof.
  intros Hok%reachable_index_ok Hgroup Hga st'.
  destruct (clearSub_spec (VObj group) st Hok) as (Hs & Hg & Ha & _ & _); [done|].
  specialize (Ha a Hga).
  revert Hs Hg Ha. unfold st'. generalize (clearSub (VObj group) st). intros st1 Hs Hg Ha.
  rewrite addSub_unfold, Hgroup.
  assert (He : existsb (same_A (VObj group) key) (get_subs this st1) = false).
  { apply not_true_is_false. intros (s & Hin & Hsame)%existsb_exists.
    rewrite Hs in Hin. apply List.filter_In in Hin as [_ Hf].
    unfold same_A in Hsame. apply andb_true_iff in Hsame as [[_ Hsg]%andb_true_iff _].
    by rewrite Hsg in Hf. }
  rewrite He, andb_false_r.
  set (st2 := set_subs this (get_subs this st1 ++ [sub ++ [key]]) st1).
  assert (Hg2 : groupToManagers st2 !! VObj group = None).
  { unfold st2. simpl. rewrite Hg. apply lookup_delete_eq. }
  assert (Ha2 : arrays st2 = <[a := []]> (arrays st)) by done.
  split_and!.
  - rewrite get_subs_addToGroup. unfold st2.
    by rewrite get_subs_set_subs, decide_True, Hs.
  - unfold addToGroup. rewrite Hg2.
    assert (Hfresh : fresh (dom (arrays st2)) ≠ a).
    { intros Heq. pose proof (is_fresh (dom (arrays st2))) as Hf. rewrite Heq in Hf.
      apply Hf. rewrite Ha2. apply elem_of_dom. rewrite lookup_insert_eq. by eexists. }
    revert Hfresh. generalize (fresh (dom (arrays st2))). intros a' Hfresh.
    simpl. rewrite lookup_insert_eq. simpl.
    rewrite !lookup_insert_ne by done. rewrite Ha. apply lookup_insert_eq.
  - unfold addToGroup. rewrite Hg2.
    assert (Hfresh : fresh (dom (arrays st2)) ≠ a).
    { intros Heq. pose proof (is_fresh (dom (arrays st2))) as Hf. rewrite Heq in Hf.
      apply Hf. rewrite Ha2. apply elem_of_dom. rewrite lookup_insert_eq. by eexists. }
    revert Hfresh. generalize (fresh (dom (arrays st2))). intros a' Hfresh.
    simpl. rewrite lookup_insert_eq. simpl.
    exists a'. split; [done|]. by rewrite !lookup_insert_eq.
Qed.

Lemma clearSub_then_addSub_witness :
  let st := addSub 1 [VNum (Int 0); VObj 5] (VStr (lit "k1")) createSubscriptionManager in
  let st' := addSub 2 [VNum (Int 0); VObj 5] VUndefined (clearSub (VObj 5) st) in
  reachable st
  ∧ groupToManagers st !! VObj 5 = Some 1%positive
  ∧ arrays st' !! 1%positive = Some []
  ∧ get_subs 1 st' = []
  ∧ get_subs 2 st' = [[VNum (Int 0); VObj 5; VUndefined]].
Proof.
  intros st st'.
  assert (Hr : reachable st) by (apply reach_addSub; [simpl; lia|]; apply reach_new).
  assert (Hg : groupToManagers st !! VObj 5 = Some 1%positive) by reflexivity.
  split; [exact Hr|]. split; [exact Hg|].
  destruct (clearSub_then_addSub st 2 [VNum (Int 0); VObj 5] VUndefined 5 1 Hr eq_refl Hg)
    as (_ & Ha & _).
  split; [exact Ha|]. split; reflexivity.
Defined.

(** [addSub_deduplicated] at a collection that holds a Variant-A
    subscription of the group and key that are added: the subscriber
    [[0, host5]] with the key ["k1"] was stored in the first manager by an
    earlier [$addSub$], and is added again. *)
Lemma addSub_deduplicated_witness :
  let sub := [VNum (Int 0); VObj 5] in
  let key := VStr (lit "k1") in
  let st := addSub 1 sub key createSubscriptionManager in
  (2 ≤ length sub)%nat
  ∧ get_subs 1 st = [[VNum (Int 0); VObj 5; VStr (lit "k1")]]
  ∧ existsb (same_A (VObj 5) key) (get_subs 1 st) = true
  ∧ deduplicated (get_subs 1 st)
  ∧ deduplicated (get_subs 1 (addSub 1 sub key st))
  ∧ get_subs 1 (addSub 1 sub key st) = [[VNum (Int 0); VObj 5; VStr (lit "k1")]].
Proof.
  intros sub key st.
  assert (Hlen : (2 ≤ length sub)%nat) by (simpl; lia).
  assert (Hsubs : get_subs 1 st = [[VNum (Int 0); VObj 5; VStr (lit "k1")]])
    by reflexivity.
  assert (Hheld : deduplicated (get_subs 1 st)).
  { intros group key'. rewrite Hsubs. cbn [List.filter].
    destruct (same_A group key' _); simpl; lia. }
  split; [exact Hlen|]. split; [exact Hsubs|]. split; [reflexivity|].
  split; [exact Hheld|].
  split; [|reflexivity].
  exact (addSub_deduplicated 1 sub key st Hlen (λ _, eq_refl) Hheld).
Defined.

(** ** What the verifier accepts *)

Section VerifierAcceptance.

Variable heap : gmap ref object.
Variable noSerializeSet : gset ref.
Variable canSerialize : jsvalue → bool.

Local Abbreviation verify := (_verifySerializable heap noSerializeSet canSerialize).
Local Abbreviation outcome_of := (outcome (jsvalue * gset jsvalue)).
Local Abbreviation passes' := (passes heap noSerializeSet canSerialize).
Local Abbreviation verifiable' := (verifiable heap noSerializeSet canSerialize).
Local Abbreviation inspected' := (inspected heap noSerializeSet canSerialize).
Local Abbreviation gone_through' := (gone_through heap noSerializeSet canSerialize).
Local Abbreviation closes := (closes heap noSerializeSet canSerialize).
Local Abbreviation objects_only' := (objects_only heap noSerializeSet canSerialize).

Lemma forEach_holes {S} (callback : jsvalue → nat → S → outcome S) k i s :
  forEach callback (replicate k None) i s = Ret s.
Proof. revert i. induction k as [|k IH]; intros i; simpl; [done|apply IH]. Qed.

Lemma forEach_dense_then_holes
    (f : jsvalue → gset jsvalue → jsstring → option jsstring → outcome_of)
    unwrapped ctx vs k i seen :
  (∀ v seen c, v ∈ vs → accepted v (f v seen c None)) →
  match forEach (check_element f unwrapped ctx) ((Some <$> vs) ++ replicate k None)
          i (i, seen) with
  | Ret _ | OutOfFuel => True
  | Throw _ | Beyond => False
  end.
Proof.
  revert i seen. induction vs as [|v vs IH]; intros i seen Hf; simpl.
  - by rewrite forEach_holes.
  - rewrite Nat.eqb_refl. simpl.
    pose proof (Hf v seen (ctx ++ lit "[" ++ nat_to_string i ++ lit "]")) as Hv.
    destruct (f v seen _ None) as [[v' seen']| | |]; simpl in *; try done.
    + apply IH. intros. apply Hf. by right.
    + apply Hv. by left.
    + apply Hv. by left.
Qed.

Lemma passes_accepted fuel value seen ctx preMessage :
  passes' (unwrapProxy heap value) = true →
  accepted value (verify (S fuel) value seen ctx preMessage).
Proof.
  intros Hpass. simpl. revert Hpass. unfold passes.
  generalize (unwrapProxy heap value). intros u Hpass.
  destruct (nullish u); [done|].
  destruct (shouldSerialize heap noSerializeSet u); [|done].
  case_bool_decide; [done|].
  destruct (canSerialize u); [done|].
  simpl in Hpass.
  destruct u as [| |b|n|s|r|r|z]; simpl in *; try done.
  destruct (callable (object_at heap r)); simpl in *; [done|].
  destruct (is_promise (object_at heap r)); [done|].
  by destruct (is_node (object_at heap r)).
Qed.

(** On a closed set of objects no call throws. *)
Lemma verify_verifiable G fuel value seen ctx preMessage :
  closed heap noSerializeSet canSerialize G → verifiable' G value →
  accepted value (verify fuel value seen ctx preMessage).
Proof.
  intros HG. revert value seen ctx preMessage.
  induction fuel as [|fuel IH]; intros value seen ctx preMessage Hv; [done|].
  destruct Hv as [Hpass|(r & Hu & Hr)]; [by apply passes_accepted|].
  destruct (HG r Hr) as [Hobj Hshape].
  simpl. rewrite Hu.
  destruct (shouldSerialize heap noSerializeSet (VObj r)); [|done].
  simpl. case_bool_decide; [done|].
  destruct (canSerialize (VObj r)); [done|].
  simpl in Hobj. apply negb_true_iff in Hobj. rewrite Hobj.
  unfold isPromise, isNode.
  destruct (is_promise (object_at heap r)); [done|].
  destruct (is_node (object_at heap r)); [done|].
  unfold array_elements, isSerializableObject, object_entries in Hshape.
  destruct (elements (object_at heap r)) as [elems|].
  - destruct Hshape as (vs & k & -> & Hvs).
    pose proof (forEach_dense_then_holes (verify fuel) (VObj r) ctx vs k 0%nat
                  ({[VObj r]} ∪ seen)) as Hloop.
    destruct (forEach _ _ _ _) as [[e seen']| | |]; simpl; try done;
      apply Hloop; intros v s c Hin; apply IH;
      by apply (proj1 (Forall_forall _ _) Hvs).
  - destruct Hshape as [Hplain Hentries]. rewrite Hplain.
    pose proof (for_of_accepted (verify fuel) ctx (entries (object_at heap r))
                  ({[VObj r]} ∪ seen)) as Hloop.
    destruct (for_of _ _ _) as [seen'| | |]; simpl; try done;
      apply Hloop; intros kv s c Hin; apply IH;
      by apply (proj1 (Forall_forall _ _) Hentries).
Qed.

Lemma verifiable_mono (G G' : ref → Prop) v :
  (∀ r, G r → G' r) → verifiable' G v → verifiable' G' v.
Proof. intros HG [?|(r & ? & ?)]; [by left|right; exists r; auto]. Qed.

Lemma inspected_mono (G G' : ref → Prop) r :
  (∀ r, G r → G' r) → inspected' G r → inspected' G' r.
Proof.
  intros HG [Hobj Hshape]. split; [done|].
  destruct (array_elements heap (VObj r)) as [elems|].
  - destruct Hshape as (vs & k & ? & Hvs). exists vs, k. split; [done|].
    eapply Forall_impl; [exact Hvs|]. intros v. by apply verifiable_mono.
  - destruct Hshape as [? Hes]. split; [done|].
    eapply Forall_impl; [exact Hes|]. intros kv. by apply verifiable_mono.
Qed.

Lemma gone_through_mono (seen seen' : gset jsvalue) r :
  seen ⊆ seen' → gone_through' seen r → gone_through' seen' r.
Proof. intros Hsub [? ?]. split; [set_solver|done]. Qed.

Lemma verifiable_seen v (seen : gset jsvalue) :
  objects_only' seen →
  passes' (unwrapProxy heap v) = true ∨ unwrapProxy heap v ∈ seen →
  verifiable' (gone_through' seen) v.
Proof.
  intros Hseen [Hpass|Hin]; [by left|].
  destruct (passes' (unwrapProxy heap v)) eqn:Hp; [by left|].
  right. destruct (Hseen _ Hin) as [Hpass|[r Hr]]; [congruence|].
  exists r. split; [done|]. rewrite Hr in Hin, Hp. by split.
Qed.

Lemma objects_only_union u (seen : gset jsvalue) :
  passes' u = true ∨ (∃ r, u = VObj r) → objects_only' seen →
  objects_only' ({[u]} ∪ seen).
Proof.
  intros Hu Hseen v [->%elem_of_singleton|Hin]%elem_of_union; [done|by apply Hseen].
Qed.

Lemma forEach_closes
    (f : jsvalue → gset jsvalue → jsstring → option jsstring → outcome_of)
    unwrapped ctx elems i e seen e' seen' :
  (∀ v s c vr sr, objects_only' s → f v s c None = Ret (vr, sr) → closes v s sr) →
  objects_only' seen →
  forEach (check_element f unwrapped ctx) elems i (e, seen) = Ret (e', seen') →
  seen ⊆ seen'
  ∧ objects_only' seen'
  ∧ (e = i → ∃ vs k, elems = (Some <$> vs) ++ replicate k None
                     ∧ Forall (verifiable' (gone_through' seen')) vs)
  ∧ ((e < i)%nat → ∃ k, elems = replicate k None)
  ∧ (∀ r, VObj r ∈ seen' → VObj r ∉ seen → passes' (VObj r) = false →
       inspected' (gone_through' seen') r).
Proof.
  intros Hf. revert i e seen.
  induction elems as [|[v|] elems IH]; intros i e seen Hseen Hret; simpl in Hret.
  - injection Hret as <- <-. split_and!; try done.
    + intros _. by exists [], 0%nat.
    + intros _. by exists 0%nat.
  - destruct (Nat.eqb_spec i e) as [->|Hne]; simpl in Hret; [|done].
    destruct (f v seen _ None) as [[vr sr]| | |] eqn:Hcall; simpl in Hret; try done.
    destruct (Hf _ _ _ _ _ Hseen Hcall) as (Hsub1 & Hsr & Hv & Hnew1).
    destruct (IH _ _ _ Hsr Hret) as (Hsub2 & Hseen' & Hdense & _ & Hnew2).
    destruct (Hdense eq_refl) as (vs & k & -> & Hvs).
    split_and!.
    + by etrans.
    + done.
    + intros _. exists (v :: vs), k. split; [done|].
      apply Forall_cons. split; [|done].
      apply verifiable_seen; [done|].
      destruct Hv as [?|?]; [by left|right; by apply Hsub2].
    + lia.
    + intros r Hin Hnin Hp.
      destruct (decide (VObj r ∈ sr)) as [Hin'|Hnin']; [|by apply Hnew2].
      eapply inspected_mono; [|by apply Hnew1].
      intros r'. by apply gone_through_mono.
  - destruct (IH _ _ _ Hseen Hret) as (Hsub & Hseen' & Hdense & Hgap & Hnew).
    split_and!; try done.
    + intros ->. destruct Hgap as [k ->]; [lia|]. by exists [], (S k).
    + intros Hlt. destruct Hgap as [k ->]; [lia|]. by exists (S k).
Qed.

Lemma for_of_closes
    (f : jsvalue → gset jsvalue → jsstring → option jsstring → outcome_of)
    ctx (l : list (jsstring * jsvalue)) seen seen' :
  (∀ v s c vr sr, objects_only' s → f v s c None = Ret (vr, sr) → closes v s sr) →
  objects_only' seen →
  for_of (check_entry f ctx) l seen = Ret seen' →
  seen ⊆ seen'
  ∧ objects_only' seen'
  ∧ Forall (λ kv, verifiable' (gone_through' seen') kv.2) l
  ∧ (∀ r, VObj r ∈ seen' → VObj r ∉ seen → passes' (VObj r) = false →
       inspected' (gone_through' seen') r).
Proof.
  intros Hf. revert seen.
  induction l as [|[k v] l IH]; intros seen Hseen Hret; simpl in Hret.
  - injection Hret as <-. by split_and!.
  - destruct (f v seen _ None) as [[vr sr]| | |] eqn:Hcall; simpl in Hret; try done.
    destruct (Hf _ _ _ _ _ Hseen Hcall) as (Hsub1 & Hsr & Hv & Hnew1).
    destruct (IH _ Hsr Hret) as (Hsub2 & Hseen' & Hl & Hnew2).
    split_and!.
    + by etrans.
    + done.
    + apply Forall_cons. split; [|done]. simpl.
      apply verifiable_seen; [done|].
      destruct Hv as [?|?]; [by left|right; by apply Hsub2].
    + intros r Hin Hnin Hp.
      destruct (decide (VObj r ∈ sr)) as [Hin'|Hnin']; [|by apply Hnew2].
      eapply inspected_mono; [|by apply Hnew1].
      intros r'. by apply gone_through_mono.
Qed.

Lemma verify_closes fuel value seen ctx preMessage vr seen' :
  objects_only' seen →
  verify fuel value seen ctx preMessage = Ret (vr, seen') → closes value seen seen'.
Proof.
  revert value seen ctx preMessage vr seen'.
  induction fuel as [|fuel IH]; intros value seen ctx preMessage vr seen' Hseen;
    [done|].
  simpl. unfold closes.
  generalize (unwrapProxy heap value). intros u.
  destruct (nullish u) eqn:Hnull.
  { intros [= <- <-]. split_and!; [done|done| |done].
    left. unfold passes. by rewrite Hnull. }
  destruct (shouldSerialize heap noSerializeSet u) eqn:Hshould; simpl.
  2:{ intros [= <- <-]. split_and!; [done|done| |done].
      left. unfold passes. by rewrite Hshould, orb_true_r. }
  case_bool_decide as Hin.
  { intros [= <- <-]. split_and!; [done|done|by right|done]. }
  assert (Hone : ∀ r, VObj r ∈ {[u]} ∪ seen → VObj r ∉ seen → u = VObj r).
  { intros r [Hr%elem_of_singleton|Hr]%elem_of_union Hnin; done. }
  assert (Hsub : seen ⊆ {[u]} ∪ seen) by apply union_subseteq_r.
  assert (Hpass : passes' u = true →
            seen ⊆ {[u]} ∪ seen
            ∧ objects_only' ({[u]} ∪ seen)
            ∧ (passes' u = true ∨ u ∈ {[u]} ∪ seen)
            ∧ (∀ r, VObj r ∈ {[u]} ∪ seen → VObj r ∉ seen → passes' (VObj r) = false →
                 inspected' (gone_through' ({[u]} ∪ seen)) r)).
  { intros Hp. split_and!; [done| |by left|].
    - apply objects_only_union; [by left|done].
    - intros r Hr Hnin Hp'. specialize (Hone r Hr Hnin). subst u. congruence. }
  destruct (canSerialize u) eqn:Hcan; simpl.
  { intros [= <- <-]. apply Hpass. unfold passes. by rewrite Hcan, !orb_true_r. }
  destruct u as [| |b|n|s|r|r|z]; simpl; try done;
    try (intros [= <- <-]; apply Hpass; unfold passes; simpl;
         by rewrite ?orb_true_r).
  destruct (callable (object_at heap r)) eqn:Hcall; simpl; [done|].
  destruct (is_promise (object_at heap r)) eqn:Hpromise; simpl.
  { intros [= <- <-]. apply Hpass. unfold passes. simpl.
    by rewrite Hcall, Hpromise, !orb_true_r. }
  destruct (is_node (object_at heap r)) eqn:Hnode; simpl.
  { intros [= <- <-]. apply Hpass. unfold passes. simpl.
    by rewrite Hcall, Hnode, !orb_true_r. }
  assert (Hseen1 : objects_only' ({[VObj r]} ∪ seen)).
  { apply objects_only_union; [right; by eexists|done]. }
  destruct (elements (object_at heap r)) as [elems|] eqn:Helems.
  - destruct (forEach _ elems _ _) as [[e' s']| | |] eqn:Hloop; simpl; try done.
    intros [= <- <-].
    destruct (forEach_closes _ _ _ _ _ _ _ _ _
                (λ v s c vr sr Hs, IH v s c None vr sr Hs) Hseen1 Hloop)
      as (Hsub' & Hseen' & Hdense & _ & Hnew).
    destruct (Hdense eq_refl) as (vs & k & -> & Hvs).
    split_and!; [by etrans|done| |].
    { right. apply Hsub', elem_of_union. left. by apply elem_of_singleton. }
    intros r' Hr Hnin Hp.
    destruct (decide (r' = r)) as [->|Hne].
    + split; [simpl; by rewrite Hcall|]. simpl. rewrite Helems. by exists vs, k.
    + apply Hnew; [done| |done].
      intros [Hr'%elem_of_singleton|Hr']%elem_of_union; [congruence|done].
  - destruct (plain (object_at heap r)) eqn:Hplain; [|done].
    destruct (for_of _ _ _) as [s'| | |] eqn:Hloop; simpl; try done.
    intros [= <- <-].
    destruct (for_of_closes _ _ _ _ _
                (λ v s c vr sr Hs, IH v s c None vr sr Hs) Hseen1 Hloop)
      as (Hsub' & Hseen' & Hl & Hnew).
    split_and!; [by etrans|done| |].
    { right. apply Hsub', elem_of_union. left. by apply elem_of_singleton. }
    intros r' Hr Hnin Hp.
    destruct (decide (r' = r)) as [->|Hne].
    + split; [simpl; by rewrite Hcall|]. simpl. by rewrite Helems, Hplain.
    + apply Hnew; [done| |done].
      intros [Hr'%elem_of_singleton|Hr']%elem_of_union; [congruence|done].
Qed.

(** X10: [verifySerializable] returns exactly for the values that pass by
    themselves and for those that stand for an object of a closed set:
    every array reached has its holes, if any, after its last assigned
    index, every other object reached is a plain object, and what they
    hold passes or is such an object again. For every other value it
    throws. *)
Theorem verifySerializable_accepts (value : jsvalue) (preMessage : option jsstring) :
  verifySerializable heap noSerializeSet canSerialize value preMessage = Ret value
  ↔ ∃ G, closed heap noSerializeSet canSerialize G ∧ verifiable' G value.
Proof.
  split.
  - unfold verifySerializable.
    destruct (verify _ value ∅ _ _) as [[vr seen']| | |] eqn:Hcall; simpl; try done.
    assert (Hempty : objects_only' ∅) by (intros v Hv; by apply not_elem_of_empty in Hv).
    intros _.
    destruct (verify_closes _ _ _ _ _ _ _ Hempty Hcall) as (_ & Hseen & Hv & Hnew).
    exists (gone_through' seen'). split.
    + intros r [Hin Hp]. apply Hnew; [done|set_solver|done].
    + by apply verifiable_seen.
  - intros (G & HG & Hv).
    destruct (verifySerializable_total heap noSerializeSet canSerialize value preMessage)
      as [H|[e H]]; [done|].
    pose proof (verify_verifiable G (S (size heap)) value ∅ (lit "_") preMessage HG Hv)
      as Hacc.
    unfold verifySerializable in H.
    destruct (verify _ value ∅ _ _) as [[v' seen']| | |]; simpl in *; done.
Qed.

End VerifierAcceptance.

(** ** noSerialize and the verifier *)

(** X13: [noSerialize(obj)] returns [obj], and from then on
    [shouldSerialize(obj)] is false and [fastSkipSerialize(obj)] is true. When
    [obj] is a function, or an object that is no store proxy,
    [verifySerializable(obj)] returns it whatever it is and whatever it holds.
    What was marked before stays marked. *)
Theorem noSerialize_exempts (heap : gmap ref object) (noSerializeSet : gset ref)
    (canSerialize : jsvalue → bool) (obj : ref) (preMessage : option jsstring) :
  unwrapProxy heap (VObj obj) = VObj obj →
  ∃ marks,
    noSerialize (VObj obj) noSerializeSet = Some (VObj obj, marks)
    ∧ shouldSerialize heap marks (VObj obj) = false
    ∧ fastSkipSerialize marks (VObj obj) = true
    ∧ verifySerializable heap marks canSerialize (VObj obj) preMessage = Ret (VObj obj)
    ∧ (∀ v, fastSkipSerialize noSerializeSet v = true → fastSkipSerialize marks v = true).
Proof.
  intros Hu. exists ({[obj]} ∪ noSerializeSet).
  assert (Hhas : bool_decide (obj ∈ {[obj]} ∪ noSerializeSet) = true).
  { apply bool_decide_eq_true. apply elem_of_union. left. by apply elem_of_singleton. }
  assert (Hshould : shouldSerialize heap ({[obj]} ∪ noSerializeSet) (VObj obj) = false).
  { unfold shouldSerialize, isObject, isFunction, noSerializeSet_has. rewrite Hhas.
    by destruct (callable (object_at heap obj)). }
  split_and!; try done.
  - unfold verifySerializable. simpl. rewrite Hu. simpl. by rewrite Hshould.
  - intros [| | | | |r| |]; simpl; try done. intros Hr%bool_decide_eq_true.
    apply bool_decide_eq_true. apply elem_of_union. by right.
Qed.

(** [noSerialize] on an instance of a class, which the verifier refuses as
    long as it is not marked. *)
Lemma noSerialize_exempts_witness :
  unwrapProxy heap_instance (VObj 1) = VObj 1
  ∧ (∃ e, verifySerializable heap_instance ∅ no_serializer (VObj 1) None = Throw e)
  ∧ ∃ marks, noSerialize (VObj 1) ∅ = Some (VObj 1, marks)
           ∧ verifySerializable heap_instance marks no_serializer (VObj 1) None = Ret (VObj 1).
Proof.
  split; [reflexivity|]. split; [eexists; vm_compute; reflexivity|].
  destruct (noSerialize_exempts heap_instance ∅ no_serializer 1 None eq_refl)
    as (marks & Hmarks & _ & _ & Hret & _).
  by exists marks.
Defined.

Section VerifierMarks.

Variable heap : gmap ref object.
Variable canSerialize : jsvalue → bool.

Local Abbreviation outcome_of := (outcome (jsvalue * gset jsvalue)).

Lemma forEach_ext
    (f g : jsvalue → gset jsvalue → jsstring → option jsstring → outcome_of)
    unwrapped ctx elems i state :
  (∀ v s c, f v s c None = g v s c None) →
  forEach (check_element f unwrapped ctx) elems i state
  = forEach (check_element g unwrapped ctx) elems i state.
Proof.
  intros Hfg. revert i state.
  induction elems as [|[v|] elems IH]; intros i [e seen]; simpl; [done| |apply IH].
  destruct (negb (i =? e)%nat); [done|]. simpl. rewrite Hfg.
  destruct (g v seen _ None) as [[vr sr]| | |]; simpl; first [done|apply IH].
Qed.

Lemma for_of_ext
    (f g : jsvalue → gset jsvalue → jsstring → option jsstring → outcome_of)
    ctx (l : list (jsstring * jsvalue)) seen :
  (∀ v s c, f v s c None = g v s c None) →
  for_of (check_entry f ctx) l seen = for_of (check_entry g ctx) l seen.
Proof.
  intros Hfg. revert seen. induction l as [|[k v] l IH]; intros seen; simpl; [done|].
  rewrite Hfg. destruct (g v seen _ None) as [[vr sr]| | |]; simpl; first [done|apply IH].
Qed.

(** The verifier asks [noSerializeSet] about unwrapped values only. *)
Lemma verify_same_marks (marks marks' : gset ref) :
  (∀ v, shouldSerialize heap marks' (unwrapProxy heap v)
        = shouldSerialize heap marks (unwrapProxy heap v)) →
  ∀ fuel value seen ctx preMessage,
    _verifySerializable heap marks' canSerialize fuel value seen ctx preMessage
    = _verifySerializable heap marks canSerialize fuel value seen ctx preMessage.
Proof.
  intros Hsame. induction fuel as [|fuel IH]; intros value seen ctx preMessage; [done|].
  simpl. rewrite Hsame.
  destruct (nullish _); [done|].
  destruct (shouldSerialize heap marks _); [|done].
  case_bool_decide; [done|].
  destruct (canSerialize _); [done|].
  destruct (typeof heap _); try done.
  destruct (isPromise heap _); [done|].
  destruct (isNode heap _); [done|].
  destruct (array_elements heap _) as [elems|].
  - by rewrite (forEach_ext _ _ _ _ _ _ _ (λ v s c, IH v s c None)).
  - destruct (isSerializableObject heap _); [|done].
    by rewrite (for_of_ext _ _ _ _ _ (λ v s c, IH v s c None)).
Qed.

(** X14: [noSerialize(proxy)] on a store proxy marks the proxy, and the
    verifier asks about the target behind it: as long as no object has the
    proxy itself for its target, the mark changes the answer of
    [verifySerializable] for no value. *)
Theorem noSerialize_proxy_unheeded (noSerializeSet : gset ref) (proxy : ref) :
  isObject heap (VObj proxy) = true →
  nullish (getProxyTarget heap (VObj proxy)) = false →
  (∀ r o, heap !! r = Some o → proxy_target o ≠ VObj proxy) →
  ∃ marks,
    noSerialize (VObj proxy) noSerializeSet = Some (VObj proxy, marks)
    ∧ fastSkipSerialize marks (VObj proxy) = true
    ∧ ∀ value preMessage,
        verifySerializable heap marks canSerialize value preMessage
        = verifySerializable heap noSerializeSet canSerialize value preMessage.
Proof.
  intros Hobj Htarget Hnone. exists ({[proxy]} ∪ noSerializeSet).
  split; [done|]. split.
  { simpl. apply bool_decide_eq_true, elem_of_union. left. by apply elem_of_singleton. }
  assert (Hu : ∀ v, unwrapProxy heap v ≠ VObj proxy).
  { intros v Hv. unfold unwrapProxy in Hv.
    destruct (isObject heap v) eqn:Hv_obj.
    - destruct (nullish (getProxyTarget heap v)) eqn:Hv_target.
      + subst v. by rewrite Htarget in Hv_target.
      + destruct v as [| | | | |r| |]; try done. simpl in Hv.
        unfold object_at in Hv. destruct (heap !! r) as [o|] eqn:Hr; simpl in Hv.
        * by apply (Hnone r o).
        * done.
    - subst v. by rewrite Hobj in Hv_obj. }
  intros value preMessage. unfold verifySerializable.
  rewrite (verify_same_marks noSerializeSet ({[proxy]} ∪ noSerializeSet)); [done|].
  intros v. specialize (Hu v). revert Hu.
  generalize (unwrapProxy heap v). intros u Hu.
  unfold shouldSerialize. destruct (_ || _); [|done]. f_equal.
  destruct u as [| | | | |r| |]; try done. simpl.
  apply bool_decide_ext. rewrite elem_of_union, elem_of_singleton.
  split; [intros [->|?]; [done|done]|by right].
Qed.

End VerifierMarks.

(** The mark on a store proxy of an instance of a class: the instance is
    refused as before. *)
Lemma noSerialize_proxy_unheeded_witness :
  isObject heap_proxy (VObj 1) = true
  ∧ nullish (getProxyTarget heap_proxy (VObj 1)) = false
  ∧ ∃ marks, noSerialize (VObj 1) ∅ = Some (VObj 1, marks)
           ∧ ∃ e, verifySerializable heap_proxy marks no_serializer (VObj 1) None = Throw e.
Proof.
  assert (Hnone : ∀ r o, heap_proxy !! r = Some o → proxy_target o ≠ VObj 1).
  { intros r o. unfold heap_proxy. rewrite lookup_insert. case_decide.
    - by intros [= <-].
    - rewrite lookup_singleton. case_decide; [by intros [= <-]|done]. }
  split; [reflexivity|]. split; [reflexivity|].
  destruct (noSerialize_proxy_unheeded heap_proxy no_serializer ∅ 1 eq_refl eq_refl Hnone)
    as (marks & Hmarks & _ & Hsame).
  exists marks. split; [exact Hmarks|]. rewrite Hsame. eexists. vm_compute. reflexivity.
Defined.

(** ** Where the verifier stops *)

Section VerifierErrors.

Variable heap : gmap ref object.
Variable noSerializeSet : gset ref.
Variable canSerialize : jsvalue → bool.

Local Abbreviation verify := (_verifySerializable heap noSerializeSet canSerialize).
Local Abbreviation outcome_of := (outcome (jsvalue * gset jsvalue)).

Lemma forEach_throws
    (f : jsvalue → gset jsvalue → jsstring → option jsstring → outcome_of)
    unwrapped ctx (all : list (option jsvalue)) elems i e seen err :
  (∀ j, elems !! j = all !! (i + j)%nat) →
  e = i ∨ ((e < i)%nat ∧ ∃ a, (a < i)%nat ∧ all !! a = Some None) →
  forEach (check_element f unwrapped ctx) elems i (e, seen) = Throw err →
  (err = QError_verifySerializable unwrapped
   ∧ ∃ a b x, (a < b)%nat ∧ all !! a = Some None ∧ all !! b = Some (Some x))
  ∨ (∃ j x s, all !! j = Some (Some x)
              ∧ f x s (ctx ++ lit "[" ++ nat_to_string j ++ lit "]") None = Throw err).
Proof.
  revert i e seen. induction elems as [|[v|] elems IH]; intros i e seen Hall He; simpl.
  - done.
  - assert (Hi : all !! i = Some (Some v)).
    { specialize (Hall 0%nat). by rewrite Nat.add_0_r in Hall. }
    assert (Hrest : ∀ j, elems !! j = all !! (S i + j)%nat).
    { intros j. specialize (Hall (S j)). simpl in Hall.
      by replace (S i + j)%nat with (i + S j)%nat by lia. }
    destruct (Nat.eqb_spec i e) as [->|Hne]; simpl.
    + destruct (f v seen _ None) as [[vr sr]| | |] eqn:Hcall; simpl; try done.
      * apply IH; [done|by left].
      * intros [= <-]. right. by exists e, v, seen.
    + intros [= <-]. left. split; [done|].
      destruct He as [->|(_ & a & Ha & Hhole)]; [done|]. by exists a, i, v.
  - assert (Hi : all !! i = Some None).
    { specialize (Hall 0%nat). by rewrite Nat.add_0_r in Hall. }
    assert (Hrest : ∀ j, elems !! j = all !! (S i + j)%nat).
    { intros j. specialize (Hall (S j)). simpl in Hall.
      by replace (S i + j)%nat with (i + S j)%nat by lia. }
    apply IH; [done|]. right. split; [destruct He as [->|[? _]]; lia|].
    exists i. split; [lia|done].
Qed.

Lemma for_of_throws
    (f : jsvalue → gset jsvalue → jsstring → option jsstring → outcome_of)
    ctx (l : list (jsstring * jsvalue)) seen err :
  for_of (check_entry f ctx) l seen = Throw err →
  ∃ key x s, (key, x) ∈ l ∧ f x s (ctx ++ lit "." ++ key) None = Throw err.
Proof.
  revert seen. induction l as [|[k v] l IH]; intros seen; simpl; [done|].
  destruct (f v seen _ None) as [[vr sr]| | |] eqn:Hcall; simpl; try done.
  - intros (key & x & s & Hin & Hx)%IH. exists key, x, s. split; [by right|done].
  - intros [= <-]. exists k, v, seen. split; [by left|done].
Qed.

Local Abbreviation at_path' := (at_path heap).
Local Abbreviation refused' := (refused heap noSerializeSet canSerialize).
Local Abbreviation holey' := (holey heap).
Local Abbreviation thrown_at := (thrown_at heap noSerializeSet canSerialize).

Lemma path_text_cons s path : path_text (s :: path) = step_text s ++ path_text path.
Proof. reflexivity. Qed.

Lemma thrown_at_step ctx preMessage value s x err :
  (∀ path w, at_path' x path w → at_path' value (s :: path) w) →
  thrown_at (ctx ++ step_text s) None x err →
  thrown_at ctx preMessage value err.
Proof.
  intros Hstep (path & w & Hpath & Herr). exists (s :: path), w.
  split; [by apply Hstep|].
  rewrite path_text_cons, app_assoc.
  destruct Herr as [[? ->]|[? ->]]; [left|right]; split; try done.
  by destruct path.
Qed.

Lemma verify_throws fuel value seen ctx preMessage err :
  verify fuel value seen ctx preMessage = Throw err →
  thrown_at ctx preMessage value err.
Proof.
  revert value seen ctx preMessage err.
  induction fuel as [|fuel IH]; intros value seen ctx preMessage err; [done|].
  simpl. remember (unwrapProxy heap value) as u eqn:Hu.
  destruct (nullish u) eqn:Hnull; [done|].
  destruct (shouldSerialize heap noSerializeSet u) eqn:Hshould; [|done].
  case_bool_decide as Hseen; [done|].
  destruct (canSerialize u) eqn:Hcan; [done|].
  assert (Hhere : passes heap noSerializeSet canSerialize u = false →
            (isObject heap u = true →
             array_elements heap u = None ∧ isSerializableObject heap u = false) →
            thrown_at ctx preMessage value
              (refusal heap value (typeof heap u) ctx preMessage)).
  { intros Hp Hkind. exists [], value. split; [constructor|]. left.
    unfold refused. rewrite <- Hu. split; [done|]. unfold path_text. simpl.
    by rewrite app_nil_r. }
  destruct u as [| |b|n|s|r|r|z]; try done.
  2,3: (simpl; intros [= <-]; apply Hhere; [|done];
        unfold passes; simpl; by rewrite ?Hshould, ?Hcan).
  cbn [typeof isPromise isNode array_elements isSerializableObject object_entries].
  cbn [typeof isFunction isObject array_elements isSerializableObject] in Hhere.
  destruct (callable (object_at heap r)) eqn:Hcall.
  { intros [= <-]. apply Hhere; [|done].
    unfold passes. simpl. by rewrite ?Hshould, ?Hcan, ?Hcall. }
  destruct (is_promise (object_at heap r)) eqn:Hpromise; [done|].
  destruct (is_node (object_at heap r)) eqn:Hnode; [done|].
  destruct (elements (object_at heap r)) as [elems|] eqn:Helems.
  - destruct (forEach _ elems _ _) as [[e' s']| | |] eqn:Hloop; simpl; try done.
    intros [= <-].
    apply (forEach_throws _ _ _ elems) in Hloop; [|done|by left].
    destruct Hloop as [[-> (a & b & x & Hab & Ha & Hb)]|(j & x & s & Hj & Hcall')].
    + exists [], value. split; [constructor|]. right. rewrite <- Hu. split; [|done].
      exists elems, a, b, x. rewrite <- Hu. simpl. by rewrite Helems.
    + apply IH in Hcall'. eapply (thrown_at_step _ _ _ (Index j)); [|exact Hcall'].
      intros path w Hpath. eapply at_index; [|exact Hj|done].
      rewrite <- Hu. simpl. by rewrite Helems.
  - destruct (plain (object_at heap r)) eqn:Hplain.
    + destruct (for_of _ _ _) as [s'| | |] eqn:Hloop; simpl; try done.
      intros [= <-].
      apply for_of_throws in Hloop as (key & x & s & Hin & Hcall').
      apply IH in Hcall'. eapply (thrown_at_step _ _ _ (Key key)); [|exact Hcall'].
      intros path w Hpath. eapply at_key; [| | |done].
      * rewrite <- Hu. simpl. by rewrite Helems.
      * rewrite <- Hu. done.
      * rewrite <- Hu. done.
    + intros [= <-]. apply Hhere; [|by rewrite ?Hcall, ?Helems, ?Hplain].
      unfold passes. simpl. by rewrite ?Hshould, ?Hcan, ?Hcall, ?Hpromise, ?Hnode.
Qed.

(** X11: When [verifySerializable] throws, the error tells where: it is
    thrown for a value [w] that a path of indices and keys leads to from
    the argument.  Either [w] does not pass and, if it is an object, is
    neither an array nor a plain object (it is a function, an instance of
    a class, a symbol or a bigint), and the error is the one that the last
    statements of [_verifySerializable] throw for [w]:
    [createError(message)] with that path written after ["_"] (the caller's
    [preMessage] is used only when [w] is the argument itself), or the
    TypeError of reading [constructor.name] for an object without
    constructor.  Or [w] is an array with a hole below an assigned index,
    and the error is [QError_verifySerializable] of that array. *)
Theorem verifySerializable_throws (value : jsvalue) (preMessage : option jsstring)
    (err : error) :
  verifySerializable heap noSerializeSet canSerialize value preMessage = Throw err →
  ∃ path w,
    at_path' value path w
    ∧ ((refused' w
        ∧ err = refusal heap w (typeof heap (unwrapProxy heap w))
                  (lit "_" ++ path_text path)
                  (match path with [] => preMessage | _ => None end))
       ∨ (holey' w ∧ err = QError_verifySerializable (unwrapProxy heap w))).
Proof.
  unfold verifySerializable.
  destruct (verify _ value ∅ _ _) as [[vr seen']| | |] eqn:Hcall; simpl; try done.
  intros [= <-]. exact (verify_throws _ _ _ _ _ _ Hcall).
Qed.

End VerifierErrors.

(** What is refused is a function, an object that is neither an array nor a
    plain object, a symbol or a bigint. *)
Lemma refused_kind (heap : gmap ref object) (noSerializeSet : gset ref)
    (canSerialize : jsvalue → bool) (w : jsvalue) :
  refused heap noSerializeSet canSerialize w →
  let u := unwrapProxy heap w in
  isFunction heap u = true
  ∨ (isObject heap u = true ∧ array_elements heap u = None
     ∧ isSerializableObject heap u = false)
  ∨ (∃ r, u = VSymbol r) ∨ (∃ z, u = VBigInt z).
Proof.
  intros [Hp Hkind] u. fold u in Hp, Hkind.
  destruct u as [| |b|n|s|r|r|z] eqn:Hu;
    try (unfold passes in Hp; simpl in Hp; by rewrite ?orb_true_r in Hp).
  - simpl in *. destruct (callable (object_at heap r)); [by left|].
    right. left. split; [done|]. by apply Hkind.
  - right. right. left. by eexists.
  - right. right. right. by eexists.
Qed.

(** The function in [{a: [1, () => 1]}] is refused where it is, and the
    message of the caller is not used for it. *)
Lemma verifySerializable_throws_witness :
  let err := refusal heap_nested (VObj 3) TFunction (lit "_.a[1]") None in
  verifySerializable heap_nested ∅ no_serializer (VObj 1) (Some (lit "Only serializable props"))
  = Throw err
  ∧ ∃ path w,
      at_path heap_nested (VObj 1) path w
      ∧ ((refused heap_nested ∅ no_serializer w
          ∧ err = refusal heap_nested w
                    (typeof heap_nested (unwrapProxy heap_nested w))
                    (lit "_" ++ path_text path)
                    (match path with
                     | [] => Some (lit "Only serializable props")
                     | _ => None
                     end))
         ∨ (holey heap_nested w
            ∧ err = QError_verifySerializable (unwrapProxy heap_nested w))).
Proof.
  intros err.
  assert (H : verifySerializable heap_nested ∅ no_serializer (VObj 1)
                (Some (lit "Only serializable props")) = Throw err).
  { vm_compute. reflexivity. }
  split; [exact H|].
  exact (verifySerializable_throws heap_nested ∅ no_serializer _ _ _ H).
Defined.

(** The error thrown for the function of [heap_nested] is
    [createError(message)], and the message starts with the default text and
    the path. *)
Lemma verifySerializable_nested_message :
  ∃ rest,
    verifySerializable heap_nested ∅ no_serializer (VObj 1)
      (Some (lit "Only serializable props"))
    = Throw (Error (lit "Value cannot be serialized in _.a[1], because it's a function named "
                    ++ rest)).
Proof. eexists. vm_compute. reflexivity. Qed.

(** An object that is not plain and has no [constructor] is refused with
    the TypeError of reading [constructor.name], not with
    [createError(message)]. *)
Lemma verifySerializable_no_constructor :
  verifySerializable heap_bare ∅ no_serializer (VObj 1) None = Throw TypeError.
Proof. vm_compute. reflexivity. Qed.

(** A symbol or a bigint that has no serializer is refused: the [switch] on
    [typeof] has no case for it, and the message says no more than that the
    value cannot be serialized. *)
Lemma verifySerializable_symbol_bigint (heap : gmap ref object) (noSerializeSet : gset ref)
    (canSerialize : jsvalue → bool) (value : jsvalue) :
  (∃ r, value = VSymbol r) ∨ (∃ z, value = VBigInt z) →
  canSerialize value = false →
  verifySerializable heap noSerializeSet canSerialize value None
  = Throw (Error (lit "Value cannot be serialized")).
Proof.
  intros [[r ->]|[z ->]] Hcan; unfold verifySerializable; simpl;
    unfold unwrapProxy; simpl;
    (rewrite bool_decide_eq_false_2 by apply not_elem_of_empty);
    by rewrite Hcan.
Qed.

(** The array [heap_leading_hole], whose index 0 was never assigned. *)
Lemma verifySerializable_hole_below_element_witness :
  (∃ a b v, (a < b)%nat ∧ [None; Some (VNum (Int 1))] !! a = Some (@None jsvalue)
            ∧ [None; Some (VNum (Int 1))] !! b = Some (Some v))
  ∧ ∃ e, verifySerializable heap_leading_hole ∅ no_serializer (VObj 1) None = Throw e.
Proof.
  assert (Hgap : ∃ a b v, (a < b)%nat ∧ [None; Some (VNum (Int 1))] !! a = Some (@None jsvalue)
                          ∧ [None; Some (VNum (Int 1))] !! b = Some (Some v)).
  { exists 0%nat, 1%nat, (VNum (Int 1)). split; [lia|]. split; reflexivity. }
  split; [exact Hgap|].
  exact (verifySerializable_hole_below_element heap_leading_hole ∅ no_serializer 1
           (array_object [None; Some (VNum (Int 1))]) [None; Some (VNum (Int 1))] None
           eq_refl eq_refl eq_refl (not_elem_of_empty _) eq_refl eq_refl eq_refl eq_refl Hgap).
Defined.

(** ** More on the codec *)

(** [encodeURI] throws on every string with a lone surrogate. *)
Lemma Encode_ill_formed s : well_formed s = false → Encode uri_kept s = None.
Proof.
  remember (length s) as n eqn:Hn. revert s Hn.
  induction n as [n IH] using lt_wf_ind. intros s Hn Hwf.
  destruct s as [|c rest]; [done|]. simpl in *.
  destruct (uri_kept c) eqn:Hkept.
  - destruct (uri_kept_no_surrogate c Hkept) as [Hlead Htrail].
    rewrite Hlead, Htrail in Hwf.
    by rewrite (IH (length rest)) with (s := rest); [|lia|done..].
  - destruct (is_trail c); [done|].
    destruct (is_lead c).
    + destruct rest as [|c2 rest']; [done|].
      destruct (is_trail c2); [|done]. simpl in Hwf.
      by rewrite (IH (length rest')) with (s := rest'); [|simpl in *; lia|done..].
    + by rewrite (IH (length rest)) with (s := rest); [|lia|done..].
Qed.

(** X15: The key of a record: [encodeURI(key)] throws a URIError exactly when
    the key has a lone surrogate; otherwise it returns a token without space,
    which is not empty unless the key is, and [safeDecode] of that token gives
    the key back. *)
Theorem encodeURI_safeDecode (key : jsstring) :
  code_units key →
  if well_formed key then
    ∃ token, encodeURI (VStr key) = Ret token
             ∧ space_free token ∧ (key ≠ [] → token ≠ [])
             ∧ safeDecode (VStr token) = Ret (VStr key)
  else encodeURI (VStr key) = Throw URIError.
Proof.
  intros Hunits. destruct (well_formed key) eqn:Hwf.
  - destruct (Encode_well_formed key Hwf) as [token Henc].
    destruct (Encode_token key token Henc) as [Hfree Hne].
    exists token. unfold encodeURI, safeDecode, decodeURI. cbn -[Encode Decode].
    rewrite Henc. split_and!; try done.
    by rewrite (Decode_Encode key token (length token) Hunits Henc).
  - unfold encodeURI. cbn -[Encode]. by rewrite Encode_ill_formed.
Qed.

(** The key ["a b"] is written as ["a%20b"]. *)
Lemma encodeURI_safeDecode_witness :
  code_units (lit "a b")
  ∧ encodeURI (VStr (lit "a b")) = Ret (lit "a%20b")
  ∧ ∃ token, encodeURI (VStr (lit "a b")) = Ret token
             ∧ safeDecode (VStr token) = Ret (VStr (lit "a b")).
Proof.
  assert (Hunits : code_units (lit "a b")).
  { repeat (apply Forall_cons_2; [reflexivity|]). apply Forall_nil_2. }
  split; [exact Hunits|]. split; [reflexivity|].
  destruct (encodeURI_safeDecode (lit "a b") Hunits) as (token & Henc & _ & _ & Hdec).
  by exists token.
Defined.

Section CodecErrors.

Variable qDev : bool.
Variable getObjId : jsvalue → option jsstring.
Variable getObject : jsvalue → jsvalue.
Variable isSubscriberDescriptor : jsvalue → bool.
Variable get_el : jsvalue → jsvalue.

Local Abbreviation serialize := (serializeSubscription qDev getObjId).
Local Abbreviation parse :=
  (parseSubscription qDev getObject isSubscriberDescriptor get_el).
Local Abbreviation stale' := (stale isSubscriberDescriptor get_el).

Lemma safeDecode_malformed token :
  Decode (length token) uri_reserved token = None →
  safeDecode (VStr token) = Throw URIError.
Proof. intros H. unfold safeDecode, decodeURI. cbn -[Decode]. by rewrite H. Qed.

(** X16: [safeDecode] catches nothing: a record whose group is found and
    whose key token is no valid escape sequence makes [parseSubscription]
    throw the URIError of [decodeURI], for each of the three shapes of a
    record. *)
Theorem parseSubscription_malformed_key (g key_token : jsstring) :
  space_free g → space_free key_token →
  truthy (getObject (VStr g)) = true → stale' (getObject (VStr g)) = false →
  Decode (length key_token) uri_reserved key_token = None →
  parse (join_tokens [type_token 0; g; key_token]) = Throw URIError
  ∧ (∀ type s e p,
       type = 1 ∨ type = 2 → Forall space_free [s; e; p] →
       parse (join_tokens [type_token type; g; s; e; p; key_token]) = Throw URIError)
  ∧ (∀ type s e,
       type = 3 ∨ type = 4 → Forall space_free [s; e] →
       parse (join_tokens [type_token type; g; s; e; key_token]) = Throw URIError).
Proof.
  intros Hg Hk Hhost Hstale Hbad.
  assert (Hkt : Forall space_free [key_token]) by (by apply Forall_singleton).
  split_and!.
  - change [type_token 0; g; key_token] with ([type_token 0; g] ++ [key_token]).
    rewrite parse_A by done. cbn zeta. rewrite Hhost, Hstale. cbn [negb part].
    change (part [key_token] 0) with (VStr key_token). by rewrite safeDecode_malformed.
  - intros type s e p Htype Hsep.
    change [type_token type; g; s; e; p; key_token]
      with ([type_token type; g; s; e; p] ++ [key_token]).
    rewrite parse_B; [|done|by apply Forall_cons|done|done].
    cbn zeta. rewrite Hhost, Hstale. cbn [negb part].
    change (part [key_token] 0) with (VStr key_token). by rewrite safeDecode_malformed.
  - intros type s e Htype Hse.
    change [type_token type; g; s; e; key_token]
      with ([type_token type; g; s; e] ++ [key_token]).
    rewrite parse_C; [|done|by apply Forall_cons|done|done].
    cbn zeta. rewrite Hhost, Hstale. cbn [negb part].
    change (part [key_token] 0) with (VStr key_token). by rewrite safeDecode_malformed.
Qed.

Lemma append_key_ill_formed base k :
  well_formed k = false → append_key base (VStr k) = Throw URIError.
Proof.
  intros Hwf. unfold append_key, encodeURI. cbn -[Encode lit].
  rewrite bool_decide_eq_false_2 by (by intros ->). cbn -[Encode lit].
  by rewrite Encode_ill_formed.
Qed.

(** X17: A key with a lone surrogate cannot be written: when [getObjId]
    resolves every reference of the subscription, [serializeSubscription]
    throws the URIError of [encodeURI], and returns no record. *)
Theorem serializeSubscription_ill_formed_key (sub : Subscriptions) (k : jsstring) :
  is_A sub ∨ is_B sub ∨ is_C sub →
  trailing sub = VStr k → well_formed k = false →
  no_id (getObjId (idx sub 1)) = false →
  (is_B sub ∨ is_C sub →
   no_id (getObjId (idx sub 2)) = false ∧ is_Some (getObjId (idx sub 3))) →
  serialize sub = Throw URIError.
Proof.
  intros Hsub Hkey Hwf Hhost Hrest.
  apply no_id_false in Hhost as (id & Hid & Hne).
  destruct Hsub as [H|[H|H]].
  - destruct H as [host key _].
    change (key = VStr k) in Hkey. change (getObjId (VObj host) = Some id) in Hid.
    subst key.
    rewrite (serialize_A qDev getObjId host (VStr k) id Hid Hne).
    by apply append_key_ill_formed.
  - destruct (Hrest (or_introl H)) as [Hs [elmID He]].
    destruct H as [type host signal elm prop key Htype _].
    change (key = VStr k) in Hkey. change (getObjId (VObj host) = Some id) in Hid.
    change (no_id (getObjId (VObj signal)) = false) in Hs.
    change (getObjId (VObj elm) = Some elmID) in He.
    subst key.
    rewrite (serialize_B qDev getObjId type host signal elm prop (VStr k) id Htype Hid Hne).
    rewrite Hs, He. cbn [must mbind outcome_bind].
    by apply append_key_ill_formed.
  - destruct (Hrest (or_intror H)) as [Hs [elmID He]].
    destruct H as [type host signal elm key Htype _].
    change (key = VStr k) in Hkey. change (getObjId (VObj host) = Some id) in Hid.
    change (no_id (getObjId (VObj signal)) = false) in Hs.
    change (getObjId (VObj elm) = Some elmID) in He.
    subst key.
    rewrite (serialize_C qDev getObjId type host signal (VObj elm) (VStr k) id Htype Hid Hne).
    rewrite Hs, He. cbn [must mbind outcome_bind].
    by apply append_key_ill_formed.
Qed.

(** X18: A record whose type is no number, or a number above 4, is not
    refused: when its group is found, [parseSubscription] returns the array
    of the type and the group alone, whatever tokens follow; no assertion
    fails, and no token is decoded.  (The type is at most 2^53: up to
    there [parseInt] returns the integer that the digits stand for.) *)
Theorem parseSubscription_unknown_type (t g : jsstring) (rest : list jsstring) :
  Forall space_free (t :: g :: rest) →
  parseInt10 t = NaN ∨ (∃ z, parseInt10 t = Int z ∧ 4 < z ≤ 9007199254740992) →
  parse (join_tokens (t :: g :: rest))
  = let host := getObject (VStr g) in
    if negb (truthy host) then Ret None
    else if stale' host then Ret None
    else Ret (Some [VNum (parseInt10 t); host]).
Proof.
  intros Hfree Htype. unfold parseSubscription.
  rewrite split_join_tokens by done.
  cbn [part lookup list_lookup from_option length]. unfold assertTrue.
  cbn [Nat.leb negb andb]. rewrite andb_false_r. cbn [mbind outcome_bind].
  cbn zeta. unfold stale.
  destruct (negb (truthy (getObject (VStr g)))); [done|].
  destruct (_ && _); [done|].
  destruct Htype as [->|(z & -> & Hz & _)]; [done|].
  cbn [num_eqb num_leb].
  by rewrite (proj2 (Z.eqb_neq z 0)), !(proj2 (Z.leb_gt _ _)) by lia.
Qed.

End CodecErrors.

(** The record ["0 12 %"]: its key token is a percent sign without the two
    digits. *)
Lemma parseSubscription_malformed_key_witness :
  space_free (lit "12") ∧ space_free (lit "%")
  ∧ Decode 1 uri_reserved (lit "%") = None
  ∧ parseSubscription true sample_getObject no_descriptor no_el (lit "0 12 %")
    = Throw URIError.
Proof.
  assert (Hg : space_free (lit "12")) by (apply (bool_decide_unpack _); exact I).
  assert (Hk : space_free (lit "%")) by (apply (bool_decide_unpack _); exact I).
  split; [exact Hg|]. split; [exact Hk|]. split; [reflexivity|].
  exact (proj1 (parseSubscription_malformed_key true sample_getObject no_descriptor no_el
                  (lit "12") (lit "%") Hg Hk eq_refl eq_refl eq_refl)).
Defined.

(** The subscription [[0, host, "\uD83D"]]. *)
Lemma serializeSubscription_ill_formed_key_witness :
  let sub := [VNum (Int 0); VObj 1; VStr [55357%N]] in
  is_A sub ∧ trailing sub = VStr [55357%N] ∧ well_formed [55357%N] = false
  ∧ serializeSubscription true sample_getObjId sub = Throw URIError.
Proof.
  intros sub.
  assert (HA : is_A sub) by (constructor; right; by eexists).
  split; [exact HA|]. split; [reflexivity|]. split; [reflexivity|].
  apply (serializeSubscription_ill_formed_key true sample_getObjId sub [55357%N]
           (or_introl HA) eq_refl eq_refl eq_refl).
  intros [H|H]; inversion H.
Defined.

(** The records ["5 12 x y"] and ["task 12"]. *)
Lemma parseSubscription_unknown_type_witness :
  Forall space_free [lit "5"; lit "12"; lit "x"; lit "y"]
  ∧ parseInt10 (lit "5") = Int 5
  ∧ parseSubscription true sample_getObject no_descriptor no_el (lit "5 12 x y")
    = Ret (Some [VNum (Int 5); VObj 1])
  ∧ parseSubscription true sample_getObject no_descriptor no_el (lit "task 12")
    = Ret (Some [VNum NaN; VObj 1]).
Proof.
  assert (Hfree : Forall space_free [lit "5"; lit "12"; lit "x"; lit "y"]).
  { repeat (apply Forall_cons_2; [apply (bool_decide_unpack _); exact I|]).
    apply Forall_nil_2. }
  split; [exact Hfree|]. split; [reflexivity|]. split; [|reflexivity].
  assert (Htype : parseInt10 (lit "5") = NaN
                  ∨ ∃ z, parseInt10 (lit "5") = Int z ∧ 4 < z ≤ 9007199254740992).
  { right. exists 5. split; [reflexivity|lia]. }
  exact (parseSubscription_unknown_type true sample_getObject no_descriptor no_el
           (lit "5") (lit "12") [lit "x"; lit "y"] Hfree Htype).
Defined.

(** ** The errors of the codec *)

Lemma split_not_nil sep s : split sep s ≠ [].
Proof.
  destruct s as [|c s]; simpl; [done|].
  destruct (N.eqb c sep); [done|]. by destruct (split sep s).
Qed.

Lemma safeDecode_part (parts : list jsstring) i :
  (∃ v, safeDecode (part parts i) = Ret v) ∨ safeDecode (part parts i) = Throw URIError.
Proof.
  unfold part. destruct (parts !! i) as [s|]; simpl; [|left; by eexists].
  unfold safeDecode, decodeURI. cbn -[Decode].
  destruct (Decode (length s) uri_reserved s); [left; by eexists|by right].
Qed.

(** X22: No string makes [parseSubscription] fail in a way of its own: it
    returns, or it throws the URIError of [decodeURI] for the key token, or,
    in a development build only, the error of one of its assertions. *)
Theorem parseSubscription_errors (qDev : bool) (getObject : jsvalue → jsvalue)
    (isSubscriberDescriptor : jsvalue → bool) (get_el : jsvalue → jsvalue)
    (sub : jsstring) :
  match parseSubscription qDev getObject isSubscriberDescriptor get_el sub with
  | Ret _ => True
  | Throw e => e = URIError ∨ (qDev = true ∧ ∃ text, e = AssertError text)
  | Beyond | OutOfFuel => False
  end.
Proof.
  unfold parseSubscription.
  pose proof (split_not_nil SPACE sub) as Hne.
  destruct (split SPACE sub) as [|parts0 parts]; [done|].
  generalize (parts0 :: parts). intros l.
  assert (Hassert : ∀ b text (k : outcome (option Subscriptions)),
            match k with
            | Ret _ => True
            | Throw e => e = URIError ∨ (qDev = true ∧ ∃ text, e = AssertError text)
            | Beyond | OutOfFuel => False
            end →
            match assertTrue qDev b text;; k with
            | Ret _ => True
            | Throw e => e = URIError ∨ (qDev = true ∧ ∃ text, e = AssertError text)
            | Beyond | OutOfFuel => False
            end).
  { intros b text k Hk. unfold assertTrue.
    destruct qDev; simpl; [|done]. destruct b; simpl; [done|]. right. split; [done|].
    by eexists. }
  assert (Hkey : ∀ i (f : jsvalue → option Subscriptions),
            match key ← safeDecode (part l i); Ret (f key) with
            | Ret _ => True
            | Throw e => e = URIError ∨ (qDev = true ∧ ∃ text, e = AssertError text)
            | Beyond | OutOfFuel => False
            end).
  { intros i f. destruct (safeDecode_part l i) as [[v ->]| ->]; simpl; [done|by left]. }
  apply Hassert.
  destruct (negb (truthy _)); [done|].
  destruct (_ && _); [done|].
  destruct (num_eqb _ _); [apply Hassert, Hkey|].
  destruct (num_leb _ (Int 2)); [apply Hassert, Hkey|].
  destruct (num_leb _ (Int 4)); [apply Hassert, Hkey|done].
Qed.

Lemma append_key_outcome base key :
  key_type key →
  (∃ record, append_key base key = Ret (Some record)) ∨ append_key base key = Throw URIError.
Proof.
  intros [->|[k ->]]; unfold append_key; simpl; [left; by eexists|].
  case_bool_decide; simpl; [left; by eexists|].
  unfold encodeURI. cbn -[Encode lit].
  destruct (Encode uri_kept k); simpl; [left; by eexists|by right].
Qed.

(** X23: A subscription of one of the three shapes makes
    [serializeSubscription] fail in two ways only: the error of [must] for a
    target that [getObjId] does not resolve, and the URIError of [encodeURI]
    for the key; no assertion fails, in a development build or another. *)
Theorem serializeSubscription_errors (qDev : bool) (getObjId : jsvalue → option jsstring)
    (sub : Subscriptions) :
  is_A sub ∨ is_B sub ∨ is_C sub →
  match serializeSubscription qDev getObjId sub with
  | Ret _ => True
  | Throw e => e = MustBeNonNull ∨ e = URIError
  | Beyond | OutOfFuel => False
  end.
Proof.
  intros Hsub.
  destruct (no_id (getObjId (idx sub 1))) eqn:Hhost.
  { rewrite serialize_no_host; [done| |done].
    destruct Hsub as [H|[H|H]]; destruct H; by eexists. }
  apply no_id_false in Hhost as (id & Hid & Hne).
  assert (Hkey : ∀ base key, key_type key →
            match append_key base key with
            | Ret _ => True
            | Throw e => e = MustBeNonNull ∨ e = URIError
            | Beyond | OutOfFuel => False
            end).
  { intros base key Hk. destruct (append_key_outcome base key Hk) as [[r ->]| ->];
      [done|by right]. }
  destruct Hsub as [H|[H|H]].
  - destruct H as [host key Hk]. change (getObjId (VObj host) = Some id) in Hid.
    rewrite (serialize_A qDev getObjId host key id Hid Hne). by apply Hkey.
  - destruct H as [type host signal elm prop key Htype Hk].
    change (getObjId (VObj host) = Some id) in Hid.
    rewrite (serialize_B qDev getObjId type host signal elm prop key id Htype Hid Hne).
    destruct (no_id _); [done|].
    destruct (getObjId (VObj elm)); simpl; [by apply Hkey|by left].
  - destruct H as [type host signal elm key Htype Hk].
    change (getObjId (VObj host) = Some id) in Hid.
    rewrite (serialize_C qDev getObjId type host signal (VObj elm) key id Htype Hid Hne).
    destruct (no_id _); [done|].
    destruct (getObjId (VObj elm)); simpl; [by apply Hkey|by left].
Qed.

(** The subscription [[1, host, signal, elm, "class"]] whose target is not
    known to the container. *)
Lemma serializeSubscription_errors_witness :
  let sub := [VNum (Int 1); VObj 1; VObj 2; VObj 4; VStr (lit "class"); VUndefined] in
  is_B sub
  ∧ serializeSubscription true sample_getObjId sub = Throw MustBeNonNull
  ∧ match serializeSubscription true sample_getObjId sub with
    | Ret _ => True
    | Throw e => e = MustBeNonNull ∨ e = URIError
    | Beyond | OutOfFuel => False
    end.
Proof.
  intros sub.
  assert (HB : is_B sub) by (constructor; [by left|by left]).
  split; [exact HB|]. split; [reflexivity|].
  exact (serializeSubscription_errors true sample_getObjId sub (or_intror (or_introl HB))).
Defined.

(** ** Scoped style identifiers *)

Lemma join_nil sep (strings : list jsstring) :
  sep ≠ [] → join sep strings = [] ↔ strings = [] ∨ strings = [[]].
Proof.
  intros Hsep. destruct strings as [|s [|s' rest]]; simpl.
  - split; [by left|done].
  - split; [intros ->; by right|by intros [?|[= ->]]].
  - split; [|by intros [?|?]].
    intros [_ [? _]%app_eq_nil]%app_eq_nil. done.
Qed.

Lemma split_one sep s : sep ∉ s → split sep s = [s].
Proof.
  induction s as [|c s IH]; [done|].
  rewrite not_elem_of_cons. intros [Hc Hs]. simpl.
  rewrite (proj2 (N.eqb_neq c sep)) by done. by rewrite IH.
Qed.

Lemma split_more sep s rest :
  sep ∉ s → split sep (s ++ sep :: rest) = s :: split sep rest.
Proof.
  induction s as [|c s IH]; simpl.
  - intros _. by rewrite N.eqb_refl.
  - rewrite not_elem_of_cons. intros [Hc Hs].
    rewrite (proj2 (N.eqb_neq c sep)) by done. by rewrite IH.
Qed.

Lemma split_join sep (strings : list jsstring) :
  strings ≠ [] → Forall (λ s, sep ∉ s) strings → split sep (join [sep] strings) = strings.
Proof.
  induction strings as [|s strings IH]; [done|]. intros _ [Hs Hrest]%Forall_cons.
  destruct strings as [|s' strings].
  - by apply split_one.
  - change (join [sep] (s :: s' :: strings)) with (s ++ sep :: join [sep] (s' :: strings)).
    rewrite split_more by done. by rewrite IH.
Qed.

(** X19: [serializeSStyle] returns [undefined] for no identifier and for the
    empty identifier alone, and for nothing else; what it returns otherwise is
    never the empty string, and [split('|')] gives the identifiers back as
    long as none of them holds a bar. *)
Theorem serializeSStyle_undefined (scopeIds : list jsstring) :
  (serializeSStyle scopeIds = None ↔ scopeIds = [] ∨ scopeIds = [[]])
  ∧ (∀ value, serializeSStyle scopeIds = Some value →
       value ≠ []
       ∧ (Forall (λ id, 124%N ∉ id) scopeIds → split 124 value = scopeIds)).
Proof.
  unfold serializeSStyle. cbn zeta.
  pose proof (join_nil (lit "|") scopeIds) as Hnil.
  destruct (join (lit "|") scopeIds) as [|c value] eqn:Hjoin; simpl.
  - split; [|done]. split; [intros _; by apply Hnil|done].
  - split.
    + split; [done|]. intros H. by apply Hnil in H.
    + intros ? [= <-]. split; [done|]. intros Hbar. rewrite <- Hjoin.
      apply split_join; [|done]. intros ->. done.
Qed.

(** ** The theme toggle *)

Section ThemeToggleFacts.

Variable themeStorageKey : jsstring.

(** X20: What [setPreference] stores is what [getColorPreference] returns,
    whatever the media query says, and what the root element of the
    document shows, if the document has one; only the empty string is not
    read back: the media query decides then. *)
Theorem setPreference_getColorPreference (theme : jsstring) (page : Page) :
  let page' := setPreference themeStorageKey theme page in
  getColorPreference themeStorageKey page'
  = (if bool_decide (theme = []) then
       if prefers_dark page then lit "dark" else lit "light"
     else theme)
  ∧ (is_Some (data_theme page) → data_theme page' = Some (Some theme))
  ∧ (data_theme page = None → data_theme page' = None).
Proof.
  intros page'. unfold page', setPreference, reflectPreference, getColorPreference.
  destruct (data_theme page) as [a|] eqn:Ha; simpl; rewrite ?Ha, lookup_insert_eq;
    (split; [by destruct theme|]); split; try done; by intros [? ?].
Qed.

(** X21: A click sets [state.theme] to ["dark"] when it was ["light"] and
    to ["light"] when it was anything else; that theme is stored, and
    [getColorPreference] returns it from then on. Two clicks give back a
    theme that was ["light"] or ["dark"]. *)
Theorem onClick_toggles (page : Page) :
  let page' := onClick themeStorageKey page in
  (state_theme page' = lit "dark" ∨ state_theme page' = lit "light")
  ∧ (state_theme page' = lit "dark" ↔ state_theme page = lit "light")
  ∧ getColorPreference themeStorageKey page' = state_theme page'
  ∧ (state_theme page = lit "light" ∨ state_theme page = lit "dark" →
     state_theme (onClick themeStorageKey page') = state_theme page).
Proof.
  intros page'. unfold page', onClick, setPreference, reflectPreference,
    getColorPreference.
  case_bool_decide as Hlight;
    destruct (data_theme page) as [a|] eqn:Ha; simpl; rewrite ?Ha; simpl;
    rewrite ?lookup_insert_eq; simpl; split_and!; try done;
    try (by left); try (by right);
    try (intros [H|H]; rewrite ?H in *; done).
Qed.

End ThemeToggleFacts.

Lemma call_keeps isDark w f :
  closures (call isDark w f) = closures w
  ∧ media_query_lists (call isDark w f) = media_query_lists w.
Proof.
  unfold call. destruct (closures w !! f) as [[|g]|]; try done.
  by destruct (closures w !! g) as [[|?]|].
Qed.

Lemma calls_keep isDark (l : list ref) w :
  closures (foldl (call isDark) w l) = closures w.
Proof.
  revert w. induction l as [|f l IH]; intros w; simpl; [done|].
  rewrite IH. apply call_keeps.
Qed.

Lemma calls_ext isDark (l : list ref) w w' :
  closures w = closures w' → color_scheme_calls w = color_scheme_calls w' →
  color_scheme_calls (foldl (call isDark) w l)
  = color_scheme_calls (foldl (call isDark) w' l).
Proof.
  revert w w'. induction l as [|f l IH]; intros w w' Hc Hs; simpl; [done|].
  apply IH.
  - by rewrite !(proj1 (call_keeps _ _ _)).
  - unfold call. rewrite Hc. destruct (closures w' !! f) as [[|g]|]; simpl; try done.
    + by rewrite Hs.
    + destruct (closures w' !! g) as [[|?]|]; simpl; try done. by rewrite Hs.
Qed.

(** X24: The function that [colorSchemeChangeListener] returns removes nothing:
    it asks a new [MediaQueryList] to remove [listener], while the function
    that was added is the one that forwards to it, on the list of the first
    call.  After it ran, a change of the color scheme calls
    [onColorSchemeChange] as before. *)
Theorem colorSchemeChangeListener_cleanup (w : Window) (isDark : bool) :
  let cleanup := (colorSchemeChangeListener w).1 in
  let w1 := (colorSchemeChangeListener w).2 in
  media_query_lists (cleanup w1) = media_query_lists w1 ++ [[]]
  ∧ (∃ callback listener,
       media_query_lists w1 = media_query_lists w ++ [[callback]]
       ∧ closures w1 !! callback = Some (Forward listener)
       ∧ closures w1 !! listener = Some Listener)
  ∧ color_scheme_calls (change isDark (cleanup w1))
    = color_scheme_calls (change isDark w1)
  ∧ ∃ calls, color_scheme_calls (change isDark (cleanup w1)) = calls ++ [isDark].
Proof.
  unfold colorSchemeChangeListener, new_closure, matchMedia. cbn [fst snd].
  pose proof (is_fresh (dom (closures w))) as Hl.
  revert Hl. generalize (fresh (dom (closures w))). intros listener Hl.
  cbn [closures media_query_lists color_scheme_calls].
  pose proof (is_fresh (dom (<[listener := Listener]> (closures w)))) as Hc.
  revert Hc. generalize (fresh (dom (<[listener := Listener]> (closures w)))).
  intros callback Hc.
  assert (Hne : callback ≠ listener).
  { intros ->. apply Hc. apply elem_of_dom. rewrite lookup_insert_eq. by eexists. }
  unfold addEventListener, removeEventListener.
  cbn [closures media_query_lists color_scheme_calls].
  assert (Hadd : alter (λ l, if bool_decide (callback ∈ l) then l else l ++ [callback])
                   (length (media_query_lists w)) (media_query_lists w ++ [[]])
                 = media_query_lists w ++ [[callback]]).
  { rewrite alter_app_r_alt by lia. rewrite Nat.sub_diag. simpl.
    by rewrite ?bool_decide_eq_false_2 by apply not_elem_of_nil. }
  rewrite Hadd.
  assert (Hrem : alter (List.filter (λ f, negb (Pos.eqb f listener)))
                   (length (media_query_lists w ++ [[callback]]))
                   ((media_query_lists w ++ [[callback]]) ++ [[]])
                 = (media_query_lists w ++ [[callback]]) ++ [[]]).
  { rewrite alter_app_r_alt by apply Nat.le_refl. by rewrite Nat.sub_diag. }
  rewrite Hrem.
  assert (Hsame : ∀ w2 w3 : Window,
            closures w2 = closures w3 → color_scheme_calls w2 = color_scheme_calls w3 →
            media_query_lists w2 = media_query_lists w3 ++ [[]] →
            color_scheme_calls (change isDark w2) = color_scheme_calls (change isDark w3)).
  { intros w2 w3 Hcl Hcalls Hlists. unfold change. rewrite Hlists.
    rewrite concat_app. simpl. rewrite app_nil_r. by apply calls_ext. }
  split_and!.
  - done.
  - exists callback, listener. split; [done|]. split.
    + apply lookup_insert_eq.
    + rewrite lookup_insert_ne by done. apply lookup_insert_eq.
  - by apply Hsame.
  - rewrite (Hsame _ {| closures := <[callback := Forward listener]>
                                      (<[listener := Listener]> (closures w));
                        media_query_lists := media_query_lists w ++ [[callback]];
                        color_scheme_calls := color_scheme_calls w |}); try done.
    unfold change. cbn [media_query_lists].
    rewrite concat_app. simpl. rewrite foldl_app. simpl.
    set (w' := foldl _ _ _).
    assert (Hcl : closures w' = <[callback := Forward listener]>
                                  (<[listener := Listener]> (closures w))).
    { unfold w'. by rewrite calls_keep. }
    unfold call. rewrite Hcl, lookup_insert_eq.
    rewrite lookup_insert_ne by done. rewrite lookup_insert_eq.
    by eexists.
Qed.
